(** * Full-gradient saliency maps: a shallow embedding of
    [cnn_class_activation_maps.ipynb]

    The notebook polls a SageMaker-debugger trial for evaluation steps and,
    for every batch item of every step, accumulates a full-gradient saliency
    map with NumPy and plots it.  This development embeds

    - the NumPy fragment the notebook uses (arrays with a shape and row-major
      data, broadcasting, [np.min], [np.max], [np.sum(axis=0)], indexing);
    - the notebook's helpers [normalize] and [compute_implicit_biases];
    - the body of the rendering loop (base term, per-layer terms, final
      normalisation, the call to [plot]);
    - the two [while] loops of the notebook, over an abstract trial.

    Numbers.  NumPy computes on binary floating point.  The development
    has the numeric helpers twice.

    - Where a statement is about which operations are done, in which order
      and on which entries, or about shapes, exceptions and the loops, the
      arrays hold exact rationals ([Q]) and one extra value, [None], for
      the non-finite results (nan, inf) that a division by zero or the
      square root of a negative number produces; NumPy does not raise
      there, it warns and goes on, and so does the embedding.
    - Where a statement is about the values themselves (the range of
      [normalize] and of the accumulator), the arrays hold IEEE 754
      doubles, with rounding to nearest-even, overflow to an infinity, and
      nan: module [Binary64].

    Library functions that are not part of the notebook
    ([scipy.ndimage.zoom], [np.sqrt], [np.exp]) are parameters.  Of
    [plot], which the notebook defines, the embedding keeps the checks on
    the shapes of its arguments and the call itself. *)

From Stdlib Require Import QArith Qabs Qround Lqa.
From stdpp Require Import gmap strings list sorting.

Local Open Scope Q_scope.

(* ================================================================== *)
(** * Part I: definitions                                              *)
(* ================================================================== *)

(** ** Python results and exceptions *)

(** The exceptions NumPy and plain Python expressions of the notebook can
    raise.  [TensorUnavailableForStep] is not among them: only the trial
    raises it (see [exn] below). *)
Inductive np_error : Type :=
  | ValueError
  | IndexError
  | AxisError
  | ZeroDivisionError
  | LibraryError (msg : string).

Inductive exn : Type :=
  | TensorUnavailableForStep
  | NumpyError (e : np_error)
  | TrialError (msg : string).

Inductive result (E A : Type) : Type :=
  | Ok (a : A)
  | Raised (e : E).
Arguments Ok {E A} a.
Arguments Raised {E A} e.

Definition result_bind {E A B} (f : A -> result E B) (m : result E A)
  : result E B :=
  match m with
  | Ok a => f a
  | Raised e => Raised e
  end.

#[global] Instance result_mbind E : MBind (result E) := @result_bind E.
#[global] Instance result_mret E : MRet (result E) := @Ok E.

Abbreviation np_result := (result np_error).

(** ** Values and arrays *)

(** A float: a rational, or [None] for nan/inf. *)
Abbreviation val := (option Q).

Definition vlift2 (f : Q -> Q -> Q) (a b : val) : val :=
  match a, b with
  | Some x, Some y => Some (f x y)
  | _, _ => None
  end.

Definition vadd : val -> val -> val := vlift2 Qplus.
Definition vsub : val -> val -> val := vlift2 Qminus.
Definition vmul : val -> val -> val := vlift2 Qmult.

(** [x / 0] is nan or inf: [None]. *)
Definition vdiv (a b : val) : val :=
  match a, b with
  | Some x, Some y => if Qeq_bool y 0 then None else Some (x / y)
  | _, _ => None
  end.

Definition vabs (a : val) : val := Qabs <$> a.
Definition vneg (a : val) : val := Qopp <$> a.

Definition qmin (x y : Q) : Q := if Qle_bool x y then x else y.
Definition qmax (x y : Q) : Q := if Qle_bool x y then y else x.

(** [np.min] and [np.max] propagate nan. *)
Definition vmin : val -> val -> val := vlift2 qmin.
Definition vmax : val -> val -> val := vlift2 qmax.

(** An [ndarray]: its shape and its entries in row-major order. *)
Record ndarray : Type := mk_ndarray { shape : list nat; data : list val }.

Definition size_of (s : list nat) : nat := foldr Nat.mul 1%nat s.

(** The invariant of a NumPy array: as many entries as the shape says. *)
Definition well_formed (a : ndarray) : Prop :=
  length (data a) = size_of (shape a).

Definition ndim (a : ndarray) : nat := length (shape a).

(** [tensor.shape[i]]: a tuple index, [IndexError] out of range. *)
Definition shape_at (a : ndarray) (i : nat) : np_result nat :=
  match shape a !! i with
  | Some n => Ok n
  | None => Raised IndexError
  end.

Definition map_data (f : val -> val) (a : ndarray) : ndarray :=
  {| shape := shape a; data := f <$> data a |}.

Definition np_abs : ndarray -> ndarray := map_data vabs.
Definition np_neg : ndarray -> ndarray := map_data vneg.

(** [np.min(tensor)], [np.max(tensor)]: over all entries; [ValueError] on
    an array without entries. *)
Definition np_min (a : ndarray) : np_result val :=
  match data a with
  | [] => Raised ValueError
  | x :: r => Ok (foldl vmin x r)
  end.

Definition np_max (a : ndarray) : np_result val :=
  match data a with
  | [] => Raised ValueError
  | x :: r => Ok (foldl vmax x r)
  end.

(** [tensor - s], [tensor / s] with a scalar [s]. *)
Definition sub_scalar (a : ndarray) (s : val) : ndarray :=
  map_data (fun x => vsub x s) a.
Definition div_scalar (a : ndarray) (s : val) : ndarray :=
  map_data (fun x => vdiv x s) a.

(** *** Broadcasting *)

(** [l] cut into [n] consecutive pieces of [k] entries. *)
Fixpoint chunks {A} (k n : nat) (l : list A) : list (list A) :=
  match n with
  | O => []
  | S n' => take k l :: chunks k n' (drop k l)
  end.

Definition pad_shape (n : nat) (s : list nat) : list nat :=
  replicate (n - length s) 1%nat ++ s.

(** The data of an array of shape [sb] stretched to shape [st], both of
    the same rank: an axis of length 1 is repeated, any other axis has to
    agree. *)
Fixpoint bcast_data (sb st : list nat) (d : list val) : option (list val) :=
  match sb, st with
  | [], [] => Some d
  | nb :: sb', nt :: st' =>
      if decide (nb = nt) then
        @concat val <$> mapM (bcast_data sb' st') (chunks (size_of sb') nb d)
      else if decide (nb = 1%nat) then
        r ← bcast_data sb' st' d; Some (concat (replicate nt r))
      else None
  | _, _ => None
  end.

(** [np.broadcast_to(a, s)]. *)
Definition np_broadcast_to (a : ndarray) (s : list nat) : np_result ndarray :=
  if decide (ndim a ≤ length s)%nat then
    match bcast_data (pad_shape (length s) (shape a)) s (data a) with
    | Some d => Ok {| shape := s; data := d |}
    | None => Raised ValueError
    end
  else Raised ValueError.

Fixpoint join_shapes (s1 s2 : list nat) : option (list nat) :=
  match s1, s2 with
  | [], [] => Some []
  | a :: r1, b :: r2 =>
      r ← join_shapes r1 r2;
      if decide (a = b) then Some (a :: r)
      else if decide (a = 1%nat) then Some (b :: r)
      else if decide (b = 1%nat) then Some (a :: r)
      else None
  | _, _ => None
  end.

Definition broadcast_shapes (s1 s2 : list nat) : option (list nat) :=
  let n := (length s1 `max` length s2)%nat in
  join_shapes (pad_shape n s1) (pad_shape n s2).

(** An elementwise binary operator ([a * b], [a + b], [a / b]) with
    NumPy's broadcasting; shapes that do not broadcast raise
    [ValueError]. *)
Definition np_binop (f : val -> val -> val) (a b : ndarray)
  : np_result ndarray :=
  match broadcast_shapes (shape a) (shape b) with
  | Some s =>
      a' ← np_broadcast_to a s;
      b' ← np_broadcast_to b s;
      Ok {| shape := s; data := zip_with f (data a') (data b') |}
  | None => Raised ValueError
  end.

Definition np_mul : ndarray -> ndarray -> np_result ndarray := np_binop vmul.
Definition np_add : ndarray -> ndarray -> np_result ndarray := np_binop vadd.
Definition np_div : ndarray -> ndarray -> np_result ndarray := np_binop vdiv.

(** [a += b]: [b] is broadcast to the shape of [a], which does not
    change. *)
Definition np_iadd (a b : ndarray) : np_result ndarray :=
  b' ← np_broadcast_to b (shape a);
  Ok {| shape := shape a; data := zip_with vadd (data a) (data b') |}.

(** *** Reductions, indexing, reshaping *)

Definition add_rows (acc row : list val) : list val := zip_with vadd acc row.

(** [np.sum(a, axis=0)]. *)
Definition np_sum_axis0 (a : ndarray) : np_result ndarray :=
  match shape a with
  | [] => Raised AxisError
  | n :: rest =>
      let k := size_of rest in
      Ok {| shape := rest;
            data := foldl add_rows (replicate k (Some 0)) (chunks k n (data a)) |}
  end.

(** [a[i]], an integer index on the first axis. *)
Definition index0 (a : ndarray) (i : nat) : np_result ndarray :=
  match shape a with
  | [] => Raised IndexError
  | n :: rest =>
      if decide (i < n)%nat then
        let k := size_of rest in
        Ok {| shape := rest; data := take k (drop (i * k) (data a)) |}
      else Raised IndexError
  end.

(** [a[i, :, ..., :]] with [colons] colons: more indices than axes is an
    [IndexError]. *)
Definition index0_colons (colons : nat) (a : ndarray) (i : nat)
  : np_result ndarray :=
  if decide (S colons ≤ ndim a)%nat then index0 a i else Raised IndexError.

(** [a[i:i+1, :, :, :]]: a slice never raises on the first axis, it is
    empty when [i] is out of range. *)
Definition slice0_one (a : ndarray) (i : nat) : np_result ndarray :=
  if decide (4 ≤ ndim a)%nat then
    match shape a with
    | [] => Raised IndexError
    | n :: rest =>
        let k := size_of rest in
        let m := (if decide (i < n)%nat then 1 else 0)%nat in
        Ok {| shape := m :: rest; data := take (m * k) (drop (i * k) (data a)) |}
    end
  else Raised IndexError.

(** [a[0, channel, :, :]]. *)
Definition channel_slice (a : ndarray) (channel : nat) : np_result ndarray :=
  if decide (4 ≤ ndim a)%nat then
    a0 ← index0 a 0; index0 a0 channel
  else Raised IndexError.

(** [a.reshape(s)]. *)
Definition np_reshape (a : ndarray) (s : list nat) : np_result ndarray :=
  if decide (size_of s = length (data a)) then Ok {| shape := s; data := data a |}
  else Raised ValueError.

(** [np.argmax] of a vector: the first nan if there is one, else the first
    index of the maximum. *)
Fixpoint argmax_from (best : Q) (besti i : nat) (l : list val) : nat :=
  match l with
  | [] => besti
  | None :: _ => i
  | Some x :: r =>
      if Qle_bool x best then argmax_from best besti (S i) r
      else argmax_from x i (S i) r
  end.

Definition np_argmax (a : ndarray) : np_result nat :=
  match data a with
  | [] => Raised ValueError
  | None :: _ => Ok 0%nat
  | Some x :: r => Ok (argmax_from x 0 1 r)
  end.

(** Python's [int(x)] on a float: truncation; [ValueError] on nan. *)
Definition py_int (x : val) : np_result Z :=
  match x with
  | Some q => Ok (Z.quot (Qnum q) (Zpos (Qden q)))
  | None => Raised ValueError
  end.

(** Python's [round]: to the nearest integer, a tie to the even one. *)
Definition round_half_even (q : Q) : Z :=
  let f := Qfloor q in
  let r := q - inject_Z f in
  if Qlt_le_dec r (1 # 2) then f
  else if Qlt_le_dec (1 # 2) r then (f + 1)%Z
  else if Z.even f then f else (f + 1)%Z.

(** ** Loops *)

(** A Python [for] loop that threads one variable through its body, in any
    monad of this file. *)
Fixpoint for_fold {M : Type -> Type} `{!MBind M, !MRet M} {A B : Type}
    (body : B -> A -> M B) (acc : B) (l : list A) : M B :=
  match l with
  | [] => mret acc
  | x :: r => acc' ← body acc x; for_fold body acc' r
  end.

(** [range(n)]. *)
Definition range (n : nat) : list nat := seq 0 n.

(** [zip(a, b, c)]: as long as the shortest of the three. *)
Definition zip3 {A B C} (a : list A) (b : list B) (c : list C)
  : list (A * B * C) := zip (zip a b) c.

(** ** The notebook's numeric helpers *)

(** [def normalize(tensor)]:
    [tensor = tensor - np.min(tensor); tensor = tensor / np.max(tensor)]. *)
Definition normalize (tensor : ndarray) : np_result ndarray :=
  lo ← np_min tensor;
  let tensor := sub_scalar tensor lo in
  hi ← np_max tensor;
  let tensor := div_scalar tensor hi in
  Ok tensor.

(** The base term of a saliency map,
    [np.sum(normalize(np.abs(image_gradient * image)), axis=0)]. *)
Definition base_term (image_gradient image : ndarray) : np_result ndarray :=
  p ← np_mul image_gradient image;
  t ← normalize (np_abs p);
  np_sum_axis0 t.

(** ** The trial and what the notebook does to the outside *)

Inductive mode : Type := GLOBAL | EVAL.

(** An smdebug trial, as the notebook uses it: an object with a state of
    its own that answers three calls.  [trial_value name step] is
    [trial.tensor(name).value(step_num=step, mode=modes.EVAL)]. *)
Record Trial (TS : Type) : Type := {
  trial_steps : mode -> TS -> list nat * TS;
  trial_loaded_all_steps : TS -> bool * TS;
  trial_value : string -> nat -> TS -> result exn ndarray * TS
}.
Arguments trial_steps {TS} _ _ _.
Arguments trial_loaded_all_steps {TS} _ _.
Arguments trial_value {TS} _ _ _ _.

Inductive message : Type :=
  | WaitingForTensors
  | Done
  | GettingTensors
  | PredictedClass (c : nat)
  | TensorUnavailable (step : nat).

(** What the notebook does to the outside: [print], [time.sleep] and the
    figure [plot] shows for its four arguments.  What the figure looks
    like is not modelled. *)
Inductive event : Type :=
  | Printed (m : message)
  | Slept (seconds : nat)
  | Plotted (saliency_map image : ndarray) (predicted_class : nat)
         (propability : Z).

(** Where [plot] raises, as far as the shapes of its arrays decide it:
    [image * std + mean] with the lists [mean] and [std] of shape
    [(3, 1, 1)], [image.transpose(1, 2, 0)], which wants three axes, the
    sum of the heatmap and the image, and [np.max] of the sum, which wants
    an entry.  [cv2.applyColorMap] gives a heatmap of shape [(h, w, 3)]
    for a map of shape [(h, w)]; a map of another rank is taken to be
    refused.  The values play no part: [astype(np.uint8)] does not
    raise. *)
Definition plot_arrays (saliency_map image : ndarray) : np_result unit :=
  match broadcast_shapes (shape image) [3; 1; 1]%nat with
  | Some [c; h; w] =>
      match shape saliency_map with
      | [h'; w'] =>
          match broadcast_shapes [h'; w'; 3]%nat [h; w; c] with
          | Some s =>
              if decide (size_of s = 0%nat) then Raised ValueError else Ok tt
          | None => Raised ValueError
          end
      | _ => Raised (LibraryError "cv2.applyColorMap")
      end
  | _ => Raised ValueError
  end.

Section Notebook.

(** [np.sqrt] on a non-negative rational and [np.exp]. *)
Variable sqrtQ : Q -> Q.
Variable expQ : Q -> Q.

(** [scipy.ndimage.zoom(input, zoom, order=1)]. *)
Variable zoom : ndarray -> Q -> np_result ndarray.

(** The notebook's global [image_size]. *)
Variable image_size : nat.

(** [np.sqrt]: nan below zero. *)
Definition vsqrt (a : val) : val :=
  match a with
  | Some x => if Qle_bool 0 x then Some (sqrtQ x) else None
  | None => None
  end.

Definition np_sqrt : ndarray -> ndarray := map_data vsqrt.
Definition np_exp : ndarray -> ndarray := map_data (fmap expQ).

(** The expression appended by [compute_implicit_biases],
    [- running_mean / np.sqrt(running_var) * weight]. *)
Definition implicit_bias (weight running_var running_mean : ndarray)
  : np_result ndarray :=
  q ← np_div (np_neg running_mean) (np_sqrt running_var);
  np_mul q weight.

(** [image_size / n], Python's true division. *)
Definition zoom_factor (n : nat) : np_result Q :=
  if decide (n = 0%nat) then Raised ZeroDivisionError
  else Ok (inject_Z (Z.of_nat image_size) / inject_Z (Z.of_nat n)).

(** The lines from [bias = bias + implicit_bias] to
    [bias_gradient = normalize(np.abs(bias * gradient))]. *)
Definition bias_gradient_of (gradient bias implicit_bias : ndarray)
  : np_result ndarray :=
  bias ← np_add bias implicit_bias;
  c ← shape_at bias 0;
  bias ← np_reshape bias [1; c; 1; 1]%nat;
  bias ← np_broadcast_to bias (shape gradient);
  p ← np_mul bias gradient;
  normalize (np_abs p).

(** The body of [for channel in range(bias_gradient.shape[1])]. *)
Definition add_channel (bias_gradient : ndarray) (saliency_map : ndarray)
    (channel : nat) : np_result ndarray :=
  slice ← channel_slice bias_gradient channel;
  h ← shape_at bias_gradient 2;
  factor ← zoom_factor h;
  interpolated ← zoom slice factor;
  np_iadd saliency_map interpolated.

(** What one layer does to [saliency_map], once its gradient and bias
    have been fetched. *)
Definition layer_update (saliency_map gradient bias implicit_bias : ndarray)
  : np_result ndarray :=
  bias_gradient ← bias_gradient_of gradient bias implicit_bias;
  channels ← shape_at bias_gradient 1;
  for_fold (add_channel bias_gradient) saliency_map (range channels).

(** The probability shown in the title of the plot:
    [scores = np.exp(np.asarray(predicted_class))],
    [scores = scores / scores.sum(0)], [int(np.max(scores) * 100)]. *)
Definition propability (predicted_class : ndarray) : np_result Z :=
  let scores := np_exp predicted_class in
  total ← np_sum_axis0 scores;
  scores ← np_div scores total;
  m ← np_max scores;
  py_int (vmul m (Some 100)).

(** The full-gradient accumulator on tensors that are already at hand:
    base term, the layers in list order, final [normalize].
    [accumulated_map] is the map before the final [normalize]. *)
Definition accumulated_map (image image_gradient : ndarray)
    (layers : list (ndarray * ndarray * ndarray)) : np_result ndarray :=
  saliency_map ← base_term image_gradient image;
  for_fold (fun saliency_map '(gradient, bias, implicit_bias) =>
              layer_update saliency_map gradient bias implicit_bias)
           saliency_map layers.

Definition full_gradient (image image_gradient : ndarray)
    (layers : list (ndarray * ndarray * ndarray)) : np_result ndarray :=
  saliency_map ← accumulated_map image image_gradient layers;
  normalize saliency_map.

(** ** The notebook's effects *)

Context {TS : Type}.
Variable trial : Trial TS.

Record world : Type := { trial_state : TS; output : list event }.

Definition M (A : Type) : Type := world -> result exn A * world.

Definition M_bind {A B} (f : A -> M B) (m : M A) : M B :=
  fun w => match m w with
           | (Ok a, w') => f a w'
           | (Raised e, w') => (Raised e, w')
           end.
#[global] Instance M_mbind : MBind M := @M_bind.
#[global] Instance M_mret : MRet M := fun A a w => (Ok a, w).

Definition emit (e : event) : M unit :=
  fun w => (Ok tt, {| trial_state := trial_state w; output := output w ++ [e] |}).

Definition print (m : message) : M unit := emit (Printed m).
Definition sleep (seconds : nat) : M unit := emit (Slept seconds).

(** A NumPy computation inside the notebook. *)
Definition np {A} (r : np_result A) : M A :=
  fun w => match r with
           | Ok a => (Ok a, w)
           | Raised e => (Raised (NumpyError e), w)
           end.

(** [def plot(saliency_map, image, predicted_class, propability)]: the
    arrays are checked as [plot_arrays] says, then the figure is shown. *)
Definition plot (saliency_map image : ndarray) (predicted_class : nat)
    (p : Z) : M unit :=
  np (plot_arrays saliency_map image);;
  emit (Plotted saliency_map image predicted_class p).

Definition on_trial {A} (call : TS -> A * TS) : M A :=
  fun w => let '(a, s) := call (trial_state w) in
           (Ok a, {| trial_state := s; output := output w |}).

Definition value (name : string) (step : nat) : M ndarray :=
  fun w => let '(r, s) := trial_value trial name step (trial_state w) in
           (r, {| trial_state := s; output := output w |}).

(** The tensor names collected by the cells before the loop. *)
Variables bn_weights running_vars running_means : list string.
Variables gradients biases : list string.

(** [def compute_implicit_biases(bn_weights, running_vars,
    running_means, step)]. *)
Definition compute_implicit_biases (bn_weights running_vars
    running_means : list string) (step : nat) : M (list ndarray) :=
  for_fold (fun implicit_biases '(weight_name, running_var_name, running_mean_name) =>
              weight ← value weight_name step;
              running_var ← value running_var_name step;
              running_mean ← value running_mean_name step;
              b ← np (implicit_bias weight running_var running_mean);
              mret (implicit_biases ++ [b]))
           [] (zip3 bn_weights running_vars running_means).

(** The body of [for gradient_name, bias_name, implicit_bias in
    zip(gradients, biases, implicit_biases)]. *)
Definition render_layer (step item : nat) (saliency_map : ndarray)
    (layer : string * string * ndarray) : M ndarray :=
  let '(gradient_name, bias_name, implicit_bias) := layer in
  t ← value gradient_name step;
  gradient ← np (slice0_one t item);
  bias ← value bias_name step;
  np (layer_update saliency_map gradient bias implicit_bias).

(** The body of [for item in range(image_batch.shape[0])]. *)
Definition render_item (step : nat) (image_batch : ndarray)
    (implicit_biases : list ndarray) (item : nat) : M unit :=
  image ← np (index0_colons 3 image_batch item);
  t ← value "gradient/image" step;
  image_gradient ← np (index0_colons 1 t item);
  saliency_map ← np (base_term image_gradient image);
  saliency_map ← for_fold (render_layer step item) saliency_map
                    (zip3 gradients biases implicit_biases);
  saliency_map ← np (normalize saliency_map);
  t ← value "fc_output_0" step;
  predicted_class ← np (index0_colons 1 t item);
  c ← np (np_argmax predicted_class);
  print (PredictedClass c);;
  p ← np (propability predicted_class);
  plot saliency_map image c p.

(** The body of the [try]. *)
Definition render_step_body (step : nat) : M unit :=
  image_batch ← value "ResNet_input_0" step;
  implicit_biases ← compute_implicit_biases bn_weights running_vars
                       running_means step;
  n ← np (shape_at image_batch 0);
  for_fold (fun _ item => render_item step image_batch implicit_biases item)
           tt (range n).

(** [try: ... except TensorUnavailableForStep: print(...)]. *)
Definition render_step (step : nat) : M unit :=
  fun w => match render_step_body step w with
           | (Raised TensorUnavailableForStep, w') =>
               print (TensorUnavailable step) w'
           | r => r
           end.

(** [list(set(steps).symmetric_difference(set(rendered_steps)))]. *)
Definition symmetric_difference (a b : gset nat) : gset nat :=
  (a ∖ b) ∪ (b ∖ a).

Definition steps_to_render (steps rendered_steps : list nat) : list nat :=
  elements (symmetric_difference (list_to_set steps)
                                 (list_to_set rendered_steps)).

Definition sorted (l : list nat) : list nat := merge_sort Nat.le l.

(** One turn of [while not loaded_all_steps]: the new value of the flag
    and of [rendered_steps]. *)
Definition poll_iteration (rendered_steps : list nat)
  : M (bool * list nat) :=
  loaded_all_steps ← on_trial (trial_loaded_all_steps trial);
  steps ← on_trial (trial_steps trial EVAL);
  let steps_to_render := steps_to_render steps rendered_steps in
  for_fold (fun _ step => render_step step) tt (sorted steps_to_render);;
  let rendered_steps := rendered_steps ++ steps_to_render in
  sleep 5;;
  mret (loaded_all_steps, rendered_steps).

(** [while not loaded_all_steps: ...] followed by [print('\nDone')].
    [None]: the loop is still running when the fuel is used up. *)
Fixpoint polling_loop (fuel : nat) (loaded_all_steps : bool)
    (rendered_steps : list nat) (w : world)
  : option (result exn (list nat) * world) :=
  if loaded_all_steps then
    Some ((print Done;; mret rendered_steps) w)
  else
    match fuel with
    | O => None
    | S fuel =>
        match poll_iteration rendered_steps w with
        | (Ok (loaded_all_steps, rendered_steps), w') =>
            polling_loop fuel loaded_all_steps rendered_steps w'
        | (Raised e, w') => Some (Raised e, w')
        end
    end.

(** The values the variable [steps] of the waiting cell takes: the
    integer it starts with, then the lists [trial.steps()] returns. *)
Inductive pyobj : Type :=
  | PyInt (n : Z)
  | PyList (l : list nat).

(** Python's [==] on these: an integer never equals a list. *)
Definition py_eq (a b : pyobj) : bool :=
  match a, b with
  | PyInt x, PyInt y => bool_decide (x = y)
  | PyList x, PyList y => bool_decide (x = y)
  | _, _ => false
  end.

(** [while steps == 0: steps = trial.steps(); print(...);
    time.sleep(3)]. *)
Fixpoint waiting_loop (fuel : nat) (steps : pyobj) (w : world)
  : option (result exn pyobj * world) :=
  if py_eq steps (PyInt 0) then
    match fuel with
    | O => None
    | S fuel =>
        match (steps ← on_trial (trial_steps trial GLOBAL);
               print WaitingForTensors;;
               sleep 3;;
               mret (PyList steps)) w with
        | (Ok steps, w') => waiting_loop fuel steps w'
        | (Raised e, w') => Some (Raised e, w')
        end
    end
  else Some (Ok steps, w).

(** The waiting cell: [steps = 0], the loop, the two prints and
    [rendered_steps = []]. *)
Definition waiting_cell (fuel : nat) (w : world)
  : option (result exn pyobj * world) :=
  match waiting_loop fuel (PyInt 0) w with
  | Some (Ok steps, w') =>
      Some ((print Done;; print GettingTensors;; mret steps) w')
  | r => r
  end.

(** The rendering cell: [loaded_all_steps = False] and the loop, on the
    empty [rendered_steps] the waiting cell left. *)
Definition rendering_cell (fuel : nat) (w : world)
  : option (result exn (list nat) * world) :=
  polling_loop fuel false [] w.

(** One turn of the polling loop in which the steps [todo] are rendered:
    the two calls to the trial, the steps in their order, the sleep. *)
Definition turn_rendering (todo : list nat) : M unit :=
  _ ← on_trial (trial_loaded_all_steps trial);
  _ ← on_trial (trial_steps trial EVAL);
  for_fold (fun _ step => render_step step) tt todo;;
  sleep 5.

(** Turns that render what [schedule] says, one after the other. *)
Definition turns_rendering (schedule : list (list nat)) : M unit :=
  for_fold (fun _ todo => turn_rendering todo) tt schedule.

End Notebook.

(** ** Predicates and reference definitions used by the statements *)

(** No entry is nan. *)
Definition finite (a : ndarray) : Prop := Forall is_Some (data a).

(** The entries of an array differ somewhere. *)
Definition non_constant (a : ndarray) : Prop :=
  exists x y, Some x ∈ data a /\ Some y ∈ data a /\ ~ x == y.

(** All entries have the same value. *)
Definition constant (a : ndarray) : Prop :=
  exists c, Forall (fun v => exists x, v = Some x /\ x == c) (data a).

Definition in_unit_interval (v : val) : Prop :=
  exists q, v = Some q /\ 0 <= q <= 1.

(** Entries agree as numbers: rationals up to [==], nan with nan. *)
Definition same_values (l1 l2 : list val) : Prop :=
  Forall2 (option_Forall2 Qeq) l1 l2.

(** Min-max normalisation as a formula, [(q - min) / (max - min)]. *)
Definition minmax_normalize (d : list Q) : list Q :=
  match d with
  | [] => []
  | x :: r =>
      let lo := foldl qmin x r in
      let hi := foldl qmax x r in
      (fun q => (q - lo) / (hi - lo)) <$> d
  end.

(** The sum over the [c] channels of a channels-first tensor with [k]
    entries per channel, pixel by pixel. *)
Definition channel_sum (c k : nat) (d : list Q) (p : nat) : Q :=
  foldr Qplus 0 ((fun ch => nth (ch * k + p) d 0) <$> seq 0 c).

Arguments channel_sum : simpl never.

Definition sum_over_channels (c k : nat) (d : list Q) : list Q :=
  channel_sum c k d <$> seq 0 k.

(** Rows of rationals added entry by entry. *)
Definition qadd_rows (a b : list Q) : list Q := zip_with Qplus a b.

Definition abs_product (g i : list Q) : list Q :=
  Qabs <$> zip_with Qmult g i.

(** The base term the way the specification words it: [normalize] applied
    after the channel sum. *)
Definition base_term_normalize_last (c k : nat) (image_gradient image : list Q)
  : list Q :=
  minmax_normalize (sum_over_channels c k (abs_product image_gradient image)).

(** The base term with [normalize] applied to the whole product first and
    the channel sum after it. *)
Definition base_term_normalize_first (c k : nat) (image_gradient image : list Q)
  : list Q :=
  sum_over_channels c k (minmax_normalize (abs_product image_gradient image)).

(** A two-channel image of one row and two pixels, and a gradient. *)
Definition image_1x2 : ndarray :=
  {| shape := [2; 1; 2]%nat; data := [Some 1; Some 1; Some 1; Some 1] |}.
Definition gradient_1x2 : ndarray :=
  {| shape := [2; 1; 2]%nat; data := [Some 0; Some 1; Some 2; Some 2] |}.

(** An array without nan, from its shape and its entries. *)
Definition arr (s : list nat) (l : list Q) : ndarray :=
  {| shape := s; data := Some <$> l |}.

(** [-running_mean / sqrt(running_var) * weight], entry by entry. *)
Definition implicit_bias_formula (sqrtQ : Q -> Q)
    (weight running_var running_mean : list Q) : list Q :=
  zip_with Qmult
    (zip_with Qdiv (Qopp <$> running_mean) (sqrtQ <$> running_var))
    weight.

(** The trial answers [value(name, step)] with the tensor [table name],
    in every state that satisfies [inv]. *)
Definition serves {TS} (trial : Trial TS) (inv : TS -> Prop) (step : nat)
    (table : string -> option ndarray) : Prop :=
  forall s name a, inv s -> table name = Some a ->
    exists s', trial_value trial name step s = (Ok a, s') /\ inv s'.

(** A trial that does not change: the same steps and tensors at every
    call. *)
Definition static_trial (steps : list nat)
    (table : string -> nat -> option ndarray) : Trial unit :=
  {| trial_steps := fun _ s => (steps, s);
     trial_loaded_all_steps := fun s => (true, s);
     trial_value := fun name step s =>
       (match table name step with
        | Some a => Ok a
        | None => Raised TensorUnavailableForStep
        end, s) |}.

(** A square root on the rationals that is exact on squares. *)
Definition sqrt_floor (q : Q) : Q := Z.sqrt (Qnum q) # Pos.sqrt (Qden q).

(** One batch-normalisation layer with two channels. *)
Definition bn_table (name : string) (step : nat) : option ndarray :=
  if decide (step = 1%nat) then
    if String.eqb name "bn1.weight" then Some (arr [2%nat] [2; 3])
    else if String.eqb name "bn1.running_var" then Some (arr [2%nat] [4; 9])
    else if String.eqb name "bn1.running_mean" then Some (arr [2%nat] [1; -6])
    else None
  else None.

(** The recorded statistics of one batch-normalisation layer: three
    tensors of one shape. *)
Record bn_layer : Type := {
  bn_shape : list nat;
  bn_weight : list Q;
  bn_running_var : list Q;
  bn_running_mean : list Q
}.

(** The three names of a layer stand for its three tensors, whose
    running variance is positive. *)
Definition bn_recorded (table : string -> option ndarray)
    (names : string * string * string) (l : bn_layer) : Prop :=
  let '(weight_name, running_var_name, running_mean_name) := names in
  table weight_name = Some (arr (bn_shape l) (bn_weight l)) /\
  table running_var_name = Some (arr (bn_shape l) (bn_running_var l)) /\
  table running_mean_name = Some (arr (bn_shape l) (bn_running_mean l)) /\
  length (bn_weight l) = size_of (bn_shape l) /\
  length (bn_running_var l) = size_of (bn_shape l) /\
  length (bn_running_mean l) = size_of (bn_shape l) /\
  Forall (Qlt 0) (bn_running_var l).

Definition implicit_bias_of (sqrtQ : Q -> Q) (l : bn_layer) : ndarray :=
  arr (bn_shape l)
    (implicit_bias_formula sqrtQ (bn_weight l) (bn_running_var l)
       (bn_running_mean l)).

Definition bn1 : bn_layer :=
  {| bn_shape := [2%nat]; bn_weight := [2; 3];
     bn_running_var := [4; 9]; bn_running_mean := [1; -6] |}.

(** The contribution of one layer the way the specification words it,
    for a gradient of shape [(1, c, h, w)] and biases of [c] entries: the
    total bias of a channel at every pixel of the channel, the absolute
    product scaled to [0,1], and every channel slice brought to the
    resolution of the image, [image_size] rows and columns, and added
    into the map entry by entry. *)
Definition broadcast_channels (k : nat) (bias_total : list Q) : list Q :=
  concat (replicate k <$> bias_total).

(** Min-max scaling as a formula, [(q - min) / (max - min)]: nan
    everywhere when all entries are equal. *)
Definition unit_scale (d : list Q) : np_result (list val) :=
  match d with
  | [] => Raised ValueError
  | x :: r =>
      let lo := foldl qmin x r in
      let hi := foldl qmax x r in
      Ok ((fun q => if Qeq_bool hi lo then None
                    else Some ((q - lo) / (hi - lo))) <$> d)
  end.

(** The sum of two arrays of one shape, entry by entry. *)
Definition add_entries (a b : ndarray) : np_result ndarray :=
  if decide (shape b = shape a) then
    Ok {| shape := shape a; data := zip_with vadd (data a) (data b) |}
  else Raised ValueError.

(** [resize a rows columns] stands for the interpolation of order 1 of
    the matrix [a] onto a grid of [rows] by [columns] points. *)
Definition layer_contribution
    (resize : ndarray -> nat -> nat -> np_result ndarray)
    (image_size c h w : nat) (saliency_map : ndarray)
    (gradient explicit_bias implicit_bias : list Q) : np_result ndarray :=
  let bias_total := zip_with Qplus explicit_bias implicit_bias in
  let product :=
    Qabs <$> zip_with Qmult (broadcast_channels (h * w) bias_total) gradient in
  term ← unit_scale product;
  for_fold (fun saliency_map slice =>
              upsampled ← resize {| shape := [h; w]; data := slice |}
                                 image_size image_size;
              add_entries saliency_map upsampled)
           saliency_map (chunks (h * w) c term).

(** What [scipy.ndimage.zoom] does with a matrix and one factor for both
    axes: the factor fixes the shape of the output,
    [round(rows * zoom), round(columns * zoom)], and the input is
    interpolated onto a grid of that shape. *)
Definition zoom_resizes (zoom : ndarray -> Q -> np_result ndarray)
    (resize : ndarray -> nat -> nat -> np_result ndarray) : Prop :=
  forall a h w factor, shape a = [h; w] ->
    zoom a factor
    = resize a (Z.to_nat (round_half_even (inject_Z (Z.of_nat h) * factor)))
               (Z.to_nat (round_half_even (inject_Z (Z.of_nat w) * factor))).

(** The output of an interpolation has the shape that was asked for. *)
Definition resize_shape (resize : ndarray -> nat -> nat -> np_result ndarray)
  : Prop :=
  forall a rows columns r, resize a rows columns = Ok r ->
    shape r = [rows; columns] /\ well_formed r.

(** ** Assertions about runs of the notebook *)

(** A triple for the notebook's monad: from a world that satisfies [P],
    [m] ends in a world that satisfies [Q] with its result, or raises an
    exception [e] and leaves a world that satisfies [X e]. *)
Definition hoare {TS A} (P : world (TS:=TS) -> Prop) (m : M A)
    (Q : A -> world (TS:=TS) -> Prop) (X : exn -> world (TS:=TS) -> Prop)
  : Prop :=
  forall w, P w ->
    match m w with
    | (Ok a, w') => Q a w'
    | (Raised e, w') => X e w'
    end.

(** The trial, in state [s], has the tensor [name] at [step]: asking for
    it does not raise [TensorUnavailableForStep]. *)
Definition available {TS} (trial : Trial TS) (step : nat) (name : string)
    (s : TS) : Prop :=
  (trial_value trial name step s).1 <> Raised TensorUnavailableForStep.

(** A tensor the trial has at a step is not taken back by a later
    request for a tensor of that step. *)
Definition tensors_stay_available {TS} (trial : Trial TS) (step : nat) : Prop :=
  forall s name name',
    available trial step name s ->
    available trial step name (trial_value trial name' step s).2.

(** The names whose tensors the rendering of one batch item asks for. *)
Definition fetched_by_item (gradients biases : list string)
    (implicit_biases : list ndarray) (name : string) : Prop :=
  name = "gradient/image" \/ name = "fc_output_0" \/
  exists g b ib, (g, b, ib) ∈ zip3 gradients biases implicit_biases /\
                 (name = g \/ name = b).

Definition output_is {TS} (o : list event) : world (TS:=TS) -> Prop :=
  fun w => output w = o.

Definition unchanged_if_unavailable {TS} (o : list event)
  : exn -> world (TS:=TS) -> Prop :=
  fun e w => e = TensorUnavailableForStep -> output w = o.

Definition not_unavailable {TS} : exn -> world (TS:=TS) -> Prop :=
  fun e _ => e <> TensorUnavailableForStep.

Definition all_available {TS} (trial : Trial TS) (step : nat)
    (names : string -> Prop) : world (TS:=TS) -> Prop :=
  fun w => forall name, names name -> available trial step name (trial_state w).

(** In the turn of the polling loop that starts in world [w0] with
    [rendered_steps], the [for] loop comes to [step] in world [w]. *)
Definition iteration_reaches (sqrtQ expQ : Q -> Q)
    (zoom : ndarray -> Q -> np_result ndarray) (image_size : nat)
    {TS} (trial : Trial TS)
    (bn_weights running_vars running_means gradients biases : list string)
    (rendered_steps : list nat) (w0 : world (TS:=TS)) (step : nat)
    (w : world (TS:=TS)) : Prop :=
  let '(_, s1) := trial_loaded_all_steps trial (trial_state w0) in
  let '(steps, s2) := trial_steps trial EVAL s1 in
  exists before after,
    sorted (steps_to_render steps rendered_steps) = before ++ step :: after /\
    for_fold (fun _ step =>
                render_step sqrtQ expQ zoom image_size trial bn_weights
                  running_vars running_means gradients biases step)
             tt before {| trial_state := s2; output := output w0 |}
    = (Ok tt, w).

(** ** Stand-ins for the library functions, and trials to run the
    notebook on *)

Definition entry (d : list val) (i : nat) : val := default None (d !! i).

(** Linear interpolation between two neighbours of a row of [n] entries
    that starts at [base], at the coordinate [x]. *)
Definition interpolate (d : list val) (base n : nat) (x : Q) : val :=
  let i0 := Z.to_nat (Qfloor x) in
  let i1 := (i0 + 1) `min` (n - 1) in
  let t := x - inject_Z (Qfloor x) in
  vadd (vmul (Some (1 - t)) (entry d (base + i0)))
       (vmul (Some t) (entry d (base + i1))).

(** The coordinate in an axis of [n] points for the [o]-th of [n'] output
    points: the end points are kept. *)
Definition source_coordinate (n n' o : nat) : Q :=
  if decide (n' ≤ 1)%nat then 0
  else inject_Z (Z.of_nat o) * inject_Z (Z.of_nat (n - 1))
       / inject_Z (Z.of_nat (n' - 1)).

(** Interpolation of order 1 of a matrix onto a grid of [h'] rows and
    [w'] columns: the new points are interpolated linearly, first along
    the rows, then along the columns. *)
Definition resize_linear (a : ndarray) (h' w' : nat) : np_result ndarray :=
  match shape a with
  | [h; w] =>
      if decide (h = 0 \/ w = 0 \/ h' = 0 \/ w' = 0)%nat then
        Raised (LibraryError "zoom of an empty array")
      else
        let wide := (* h rows of w' entries *)
          r ← seq 0 h;
          (fun o => interpolate (data a) (r * w) w (source_coordinate w w' o))
            <$> seq 0 w' in
        let column (c : nat) : list val :=
          (fun r => entry wide (r * w' + c)) <$> seq 0 h in
        Ok {| shape := [h'; w'];
              data := o ← seq 0 h';
                      (fun c => interpolate (column c) 0 h
                                  (source_coordinate h h' o))
                        <$> seq 0 w' |}
  | _ => Raised (LibraryError "zoom_linear is for matrices")
  end.

(** A zoom of order 1 for matrices: every axis is scaled by [factor]. *)
Definition zoom_linear (a : ndarray) (factor : Q) : np_result ndarray :=
  match shape a with
  | [h; w] =>
      resize_linear a
        (Z.to_nat (round_half_even (inject_Z (Z.of_nat h) * factor)))
        (Z.to_nat (round_half_even (inject_Z (Z.of_nat w) * factor)))
  | _ => Raised (LibraryError "zoom_linear is for matrices")
  end.

(** A positive stand-in for [np.exp] that is exact at 0. *)
Definition exp_taylor (q : Q) : Q := 1 + q + q * q / 2.

(** A mock of the data source: its evaluation steps are [1, 2] for the
    first [early] calls of [steps] and [1, 2, 3] after them, its
    [loaded_all_steps] becomes true when a tensor of step 3 has been asked
    for, and its tensors are those of [table]. *)
Record poll_state : Type := { polls : nat; fetched_step3 : bool }.

Definition growing_trial (early : nat)
    (table : string -> nat -> option ndarray) : Trial poll_state :=
  {| trial_steps := fun _ s =>
       (if decide (polls s < early)%nat then [1; 2]%nat else [1; 2; 3]%nat,
        {| polls := S (polls s); fetched_step3 := fetched_step3 s |});
     trial_loaded_all_steps := fun s => (fetched_step3 s, s);
     trial_value := fun name step s =>
       (match table name step with
        | Some a => Ok a
        | None => Raised TensorUnavailableForStep
        end,
        {| polls := polls s;
           fetched_step3 := if decide (step = 3%nat) then true
                            else fetched_step3 s |}) |}.

(** A trial that takes its tensors back: it answers the first [served]
    requests for a tensor from [table] and raises
    [TensorUnavailableForStep] at every later one. *)
Definition revoking_trial (served : nat)
    (table : string -> nat -> option ndarray) : Trial nat :=
  {| trial_steps := fun _ n => ([1%nat], n);
     trial_loaded_all_steps := fun n => (true, n);
     trial_value := fun name step n =>
       (if decide (n < served)%nat then
          match table name step with
          | Some a => Ok a
          | None => Raised TensorUnavailableForStep
          end
        else Raised TensorUnavailableForStep,
        S n) |}.

(** The tensors of a network without batch-normalisation layers for a
    batch of two images of three channels and one pixel; the first entry
    of the batch is the number of the step. *)
Definition two_images (name : string) (step : nat) : option ndarray :=
  let s := inject_Z (Z.of_nat step) in
  if String.eqb name "ResNet_input_0" then
    Some (arr [2; 3; 1; 1]%nat [s; 2; 3; 4; 5; 6])
  else if String.eqb name "gradient/image" then
    Some (arr [2; 3; 1; 1]%nat [1; 1; 1; 1; 1; 1])
  else if String.eqb name "fc_output_0" then
    Some (arr [2; 2]%nat [0; 0; 0; 0])
  else None.

(** A trial that lists step 5 at the first call of [steps] and no step
    after it, and never has a tensor. *)
Definition forgetful_trial : Trial nat :=
  {| trial_steps := fun _ n => (if decide (n = 0%nat) then [5%nat] else [], S n);
     trial_loaded_all_steps := fun n => (false, n);
     trial_value := fun _ _ n => (Raised TensorUnavailableForStep, n) |}.

(** One turn of the polling loop, as a relation between the values of
    [rendered_steps] and the worlds before and after it. *)
Definition turn (sqrtQ expQ : Q -> Q)
    (zoom : ndarray -> Q -> np_result ndarray) (image_size : nat)
    {TS} (trial : Trial TS)
    (bn_weights running_vars running_means gradients biases : list string)
    (before after : list nat * world (TS:=TS)) : Prop :=
  exists loaded_all_steps,
    poll_iteration sqrtQ expQ zoom image_size trial bn_weights running_vars
      running_means gradients biases before.1 before.2
    = (Ok (loaded_all_steps, after.1), after.2).

(** The steps the trial lists at the poll of the turn that starts in
    world [w]. *)
Definition listed_steps {TS} (trial : Trial TS) (w : world (TS:=TS))
  : list nat :=
  (trial_steps trial EVAL
     (trial_loaded_all_steps trial (trial_state w)).2).1.

Definition fresh_poll_world : world :=
  {| trial_state := {| polls := 0; fetched_step3 := false |}; output := [] |}.

(** Two layers of one channel over a 1 x 2 feature map, for the
    two-channel image of one row above ([image_size = 1]). *)
Definition layer_a : ndarray * ndarray * ndarray :=
  (arr [1; 1; 1; 2]%nat [3; -1], arr [1%nat] [1], arr [1%nat] [2]).
Definition layer_b : ndarray * ndarray * ndarray :=
  (arr [1; 1; 1; 2]%nat [1; 4], arr [1%nat] [-2], arr [1%nat] [1]).

(** A trial with the statistics of one layer at step 1 and nothing else,
    and a trial whose tensors are all scalars. *)
Definition bn_trial : Trial unit := static_trial [1%nat] bn_table.
Definition scalar_trial : Trial unit :=
  static_trial [1%nat] (fun _ _ => Some (arr [] [1])).

(** A trial that lists step 5 at every poll and never has a tensor. *)
Definition empty_trial : Trial unit := static_trial [5%nat] (fun _ _ => None).

Definition fresh_world : world :=
  {| trial_state := tt; output := [] |}.

(** A vector with three different entries, and a two-channel gradient of
    one row that is zero everywhere. *)
Definition vector_243 : ndarray :=
  {| shape := [3]%nat; data := [Some 2; Some 4; Some 3] |}.

Definition zeros_1x2 : ndarray :=
  {| shape := [2; 1; 2]%nat; data := [Some 0; Some 0; Some 0; Some 0] |}.

(** ** The same helpers on binary64 numbers

    Where a statement depends on rounding or on overflow, the arrays
    hold IEEE 754 doubles: the arrays are taken to be of dtype [float64],
    NumPy's default. *)

Module Binary64.

(** A double: nan, an infinity, or a finite number, which is the rational
    it stands for.  The sign of a zero is not kept: the functions modelled
    here give the same result on [0.0] and [-0.0], but for the sign of the
    infinity in [x / 0]. *)
Inductive float : Type :=
  | NaN
  | Inf (negative : bool)
  | Num (q : Q).

(** [2 ** k]. *)
Definition pow2 (k : Z) : Z := Z.shiftl 1 k.

(** Rounding to the nearest double, ties to even, of a number given in
    units of [2 ** -1074], the smallest positive double.  A double is a
    whole number of units with at most 53 significant bits: for [x] below
    [2 ** 53] units (the subnormal numbers and the first binade) the
    doubles are the integers, above it the multiples of [2 ** k] with
    [k = floor(log2 x) - 52]. *)
Definition ulp_exponent (x : Q) : Z := Z.max 0 (Z.log2 (Qfloor x) - 52).

Definition round_units_pos (x : Q) : Z :=
  let k := ulp_exponent x in
  (round_half_even (x / inject_Z (pow2 k)) * pow2 k)%Z.

Definition round_units (x : Q) : Z :=
  if Qle_bool 0 x then round_units_pos x else (- round_units_pos (- x))%Z.

(** The double nearest to a rational: [float(q)].  What rounds to
    [2 ** 1024] or beyond is an infinity. *)
Definition double (q : Q) : float :=
  let n := round_units (q * inject_Z (pow2 1074)) in
  if (pow2 2098 <=? Z.abs n)%Z then Inf (n <? 0)%Z
  else Num (Qred (inject_Z n / inject_Z (pow2 1074))).

Definition negative (q : Q) : bool := negb (Qle_bool 0 q).

Definition fopp (a : float) : float :=
  match a with
  | NaN => NaN
  | Inf s => Inf (negb s)
  | Num x => Num (- x)
  end.

Definition fadd (a b : float) : float :=
  match a, b with
  | NaN, _ | _, NaN => NaN
  | Inf s, Inf t => if Bool.eqb s t then Inf s else NaN
  | Inf s, Num _ | Num _, Inf s => Inf s
  | Num x, Num y => double (x + y)
  end.

Definition fsub (a b : float) : float := fadd a (fopp b).

Definition fmul (a b : float) : float :=
  match a, b with
  | NaN, _ | _, NaN => NaN
  | Inf s, Inf t => Inf (xorb s t)
  | Inf s, Num y | Num y, Inf s =>
      if Qeq_bool y 0 then NaN else Inf (xorb s (negative y))
  | Num x, Num y => double (x * y)
  end.

Definition fdiv (a b : float) : float :=
  match a, b with
  | NaN, _ | _, NaN => NaN
  | Inf _, Inf _ => NaN
  | Inf s, Num y => Inf (xorb s (negative y))
  | Num _, Inf _ => Num 0
  | Num x, Num y =>
      if Qeq_bool y 0 then if Qeq_bool x 0 then NaN else Inf (negative x)
      else double (x / y)
  end.

Definition fabs (a : float) : float :=
  match a with
  | NaN => NaN
  | Inf _ => Inf false
  | Num x => Num (Qabs x)
  end.

(** [a <= b]: false when one of the two is nan. *)
Definition fle (a b : float) : bool :=
  match a, b with
  | NaN, _ | _, NaN => false
  | Inf true, _ | _, Inf false => true
  | Inf false, _ | _, Inf true => false
  | Num x, Num y => Qle_bool x y
  end.

(** [np.min] and [np.max] of two numbers: nan if one of them is. *)
Definition fmin (a b : float) : float :=
  match a, b with
  | NaN, _ | _, NaN => NaN
  | _, _ => if fle a b then a else b
  end.

Definition fmax (a b : float) : float :=
  match a, b with
  | NaN, _ | _, NaN => NaN
  | _, _ => if fle a b then b else a
  end.

(** *** Arrays of doubles and the NumPy fragment on them *)

Record ndarray : Type := mk_ndarray { shape : list nat; data : list float }.

Definition ndim (a : ndarray) : nat := length (shape a).

Definition shape_at (a : ndarray) (i : nat) : np_result nat :=
  match shape a !! i with
  | Some n => Ok n
  | None => Raised IndexError
  end.

Definition map_data (f : float -> float) (a : ndarray) : ndarray :=
  {| shape := shape a; data := f <$> data a |}.

Definition np_abs : ndarray -> ndarray := map_data fabs.

Definition np_min (a : ndarray) : np_result float :=
  match data a with
  | [] => Raised ValueError
  | x :: r => Ok (foldl fmin x r)
  end.

Definition np_max (a : ndarray) : np_result float :=
  match data a with
  | [] => Raised ValueError
  | x :: r => Ok (foldl fmax x r)
  end.

Definition sub_scalar (a : ndarray) (s : float) : ndarray :=
  map_data (fun x => fsub x s) a.
Definition div_scalar (a : ndarray) (s : float) : ndarray :=
  map_data (fun x => fdiv x s) a.

Fixpoint bcast_data (sb st : list nat) (d : list float)
  : option (list float) :=
  match sb, st with
  | [], [] => Some d
  | nb :: sb', nt :: st' =>
      if decide (nb = nt) then
        @concat float <$> mapM (bcast_data sb' st') (chunks (size_of sb') nb d)
      else if decide (nb = 1%nat) then
        r ← bcast_data sb' st' d; Some (concat (replicate nt r))
      else None
  | _, _ => None
  end.

Definition np_broadcast_to (a : ndarray) (s : list nat) : np_result ndarray :=
  if decide (ndim a ≤ length s)%nat then
    match bcast_data (pad_shape (length s) (shape a)) s (data a) with
    | Some d => Ok {| shape := s; data := d |}
    | None => Raised ValueError
    end
  else Raised ValueError.

Definition np_binop (f : float -> float -> float) (a b : ndarray)
  : np_result ndarray :=
  match broadcast_shapes (shape a) (shape b) with
  | Some s =>
      a' ← np_broadcast_to a s;
      b' ← np_broadcast_to b s;
      Ok {| shape := s; data := zip_with f (data a') (data b') |}
  | None => Raised ValueError
  end.

Definition np_mul : ndarray -> ndarray -> np_result ndarray := np_binop fmul.
Definition np_add : ndarray -> ndarray -> np_result ndarray := np_binop fadd.

Definition np_iadd (a b : ndarray) : np_result ndarray :=
  b' ← np_broadcast_to b (shape a);
  Ok {| shape := shape a; data := zip_with fadd (data a) (data b') |}.

Definition add_rows (acc row : list float) : list float :=
  zip_with fadd acc row.

Definition np_sum_axis0 (a : ndarray) : np_result ndarray :=
  match shape a with
  | [] => Raised AxisError
  | n :: rest =>
      let k := size_of rest in
      Ok {| shape := rest;
            data := foldl add_rows (replicate k (Num 0)) (chunks k n (data a)) |}
  end.

Definition index0 (a : ndarray) (i : nat) : np_result ndarray :=
  match shape a with
  | [] => Raised IndexError
  | n :: rest =>
      if decide (i < n)%nat then
        let k := size_of rest in
        Ok {| shape := rest; data := take k (drop (i * k) (data a)) |}
      else Raised IndexError
  end.

Definition channel_slice (a : ndarray) (channel : nat) : np_result ndarray :=
  if decide (4 ≤ ndim a)%nat then
    a0 ← index0 a 0; index0 a0 channel
  else Raised IndexError.

Definition np_reshape (a : ndarray) (s : list nat) : np_result ndarray :=
  if decide (size_of s = length (data a)) then Ok {| shape := s; data := data a |}
  else Raised ValueError.

(** [def normalize(tensor)]:
    [tensor = tensor - np.min(tensor); tensor = tensor / np.max(tensor)]. *)
Definition normalize (tensor : ndarray) : np_result ndarray :=
  lo ← np_min tensor;
  let tensor := sub_scalar tensor lo in
  hi ← np_max tensor;
  let tensor := div_scalar tensor hi in
  Ok tensor.

(** [np.sum(normalize(np.abs(image_gradient * image)), axis=0)]. *)
Definition base_term (image_gradient image : ndarray) : np_result ndarray :=
  p ← np_mul image_gradient image;
  t ← normalize (np_abs p);
  np_sum_axis0 t.

Section Accumulator.

(** [scipy.ndimage.zoom(input, zoom, order=1)] and the notebook's global
    [image_size]. *)
Variable zoom : ndarray -> float -> np_result ndarray.
Variable image_size : nat.

(** [image_size / n], Python's true division of two integers. *)
Definition zoom_factor (n : nat) : np_result float :=
  if decide (n = 0%nat) then Raised ZeroDivisionError
  else Ok (double (inject_Z (Z.of_nat image_size) / inject_Z (Z.of_nat n))).

Definition bias_gradient_of (gradient bias implicit_bias : ndarray)
  : np_result ndarray :=
  bias ← np_add bias implicit_bias;
  c ← shape_at bias 0;
  bias ← np_reshape bias [1; c; 1; 1]%nat;
  bias ← np_broadcast_to bias (shape gradient);
  p ← np_mul bias gradient;
  normalize (np_abs p).

Definition add_channel (bias_gradient : ndarray) (saliency_map : ndarray)
    (channel : nat) : np_result ndarray :=
  slice ← channel_slice bias_gradient channel;
  h ← shape_at bias_gradient 2;
  factor ← zoom_factor h;
  interpolated ← zoom slice factor;
  np_iadd saliency_map interpolated.

Definition layer_update (saliency_map gradient bias implicit_bias : ndarray)
  : np_result ndarray :=
  bias_gradient ← bias_gradient_of gradient bias implicit_bias;
  channels ← shape_at bias_gradient 1;
  for_fold (add_channel bias_gradient) saliency_map (range channels).

(** The accumulator: base term, the layers in list order, final
    [normalize]. *)
Definition accumulated_map (image image_gradient : ndarray)
    (layers : list (ndarray * ndarray * ndarray)) : np_result ndarray :=
  saliency_map ← base_term image_gradient image;
  for_fold (fun saliency_map '(gradient, bias, implicit_bias) =>
              layer_update saliency_map gradient bias implicit_bias)
           saliency_map layers.

Definition full_gradient (image image_gradient : ndarray)
    (layers : list (ndarray * ndarray * ndarray)) : np_result ndarray :=
  saliency_map ← accumulated_map image image_gradient layers;
  normalize saliency_map.

End Accumulator.

(** *** What the statements speak of *)

(** A number that a double can hold. *)
Definition is_double (a : float) : bool :=
  match a with
  | Num q => match double q with
             | Num q' => Qeq_bool q' q
             | _ => false
             end
  | _ => true
  end.

Definition is_finite (a : float) : bool :=
  match a with
  | Num _ => true
  | _ => false
  end.

(** An array of finite doubles. *)
Definition finite (a : ndarray) : Prop :=
  Forall (fun x => is_finite x = true /\ is_double x = true) (data a).

(** Two entries of the array differ. *)
Definition non_constant (a : ndarray) : Prop :=
  exists x y, Num x ∈ data a /\ Num y ∈ data a /\ ~ x == y.

(** [tensor - np.min(tensor)] does not overflow. *)
Definition range_finite (a : ndarray) : Prop :=
  exists lo, np_min a = Ok lo /\
             Forall (fun x => is_finite (fsub x lo) = true) (data a).

Definition in_unit_interval (v : float) : Prop :=
  exists q, v = Num q /\ 0 <= q <= 1.

(** The rational a finite double stands for. *)
Definition value_of (a : float) : Q :=
  match a with
  | Num q => q
  | _ => 0
  end.

(** [scipy.ndimage.zoom] where the factor is 1: the array itself.  No
    other factor is asked for in the examples below. *)
Definition zoom_by_one (a : ndarray) (factor : float) : np_result ndarray :=
  match factor with
  | Num q => if Qeq_bool q 1 then Ok a
             else Raised (LibraryError "a factor other than 1")
  | _ => Raised (LibraryError "a factor other than 1")
  end.

(** An array of doubles from its shape and rationals. *)
Definition arr (s : list nat) (l : list Q) : ndarray :=
  {| shape := s; data := double <$> l |}.

End Binary64.

(** ** Arrays of doubles to run [normalize] and the accumulator on *)

(** Three doubles whose range [2 ** 1023 - (- 2 ** 1023)] overflows, and
    three whose quotient is rounded. *)
Definition huge_range : Binary64.ndarray :=
  Binary64.arr [3%nat] [- inject_Z (2 ^ 1023); 0; inject_Z (2 ^ 1023)].

Definition tenths : Binary64.ndarray :=
  Binary64.arr [3%nat] [1 # 10; 2 # 10; 3 # 10].

(** An image of one channel and 2 x 2 pixels, its gradient, and two layers
    of one channel whose feature maps have the size of the image
    ([image_size = 2], the zoom factor is 1). *)
Definition ones_2x2 : Binary64.ndarray :=
  Binary64.arr [1; 2; 2]%nat [1; 1; 1; 1].

Definition gradient_2x2 : Binary64.ndarray :=
  Binary64.arr [1; 2; 2]%nat [0; 1 / inject_Z (2 ^ 53); 1; 0].

Definition layer_top : Binary64.ndarray * Binary64.ndarray * Binary64.ndarray :=
  (Binary64.arr [1; 1; 2; 2]%nat [1; 1; 0; 0],
   Binary64.arr [1%nat] [1], Binary64.arr [1%nat] [0]).

Definition layer_tiny : Binary64.ndarray * Binary64.ndarray * Binary64.ndarray :=
  (Binary64.arr [1; 1; 2; 2]%nat [0; 1 / inject_Z (2 ^ 53); 0; 1],
   Binary64.arr [1%nat] [1], Binary64.arr [1%nat] [0]).

(** ** What the rendering of a batch item leaves in the output *)

(** The print and the plot of one batch item: its saliency map, its
    image, the predicted class and the probability. *)
Definition rendered_item (e : ndarray * ndarray * nat * Z) : list event :=
  let '(saliency_map, image, predicted_class, propability) := e in
  [Printed (PredictedClass predicted_class);
   Plotted saliency_map image predicted_class propability].

(** An exception between the print and the plot of an item leaves the
    print behind. *)
Definition print_without_plot (tail : list event) : Prop :=
  tail = [] \/ exists c, tail = [Printed (PredictedClass c)].

(** ** The cell that waits for the training job

    [if description['TrainingJobStatus'] != 'Completed':
       while description['SecondaryStatus'] not in {'Training', 'Completed'}:
         description = client.describe_training_job(TrainingJobName=job_name)
         ...
         print(...); time.sleep(15)] *)

Module JobStatus.

(** The response of [describe_training_job], as far as the cell reads it:
    a dict whose values at the two status keys are strings. *)
Abbreviation response := (gmap string string).

Inductive error : Type :=
  | KeyError (key : string)
  | ClientError (msg : string).

Inductive event : Type :=
  | Printed (line : string)
  | Slept (seconds : nat).

(** The SageMaker client: an object with a state of its own that answers
    [client.describe_training_job(TrainingJobName=job_name)]. *)
Record Client (CS : Type) : Type := {
  describe_training_job : string -> CS -> result error response * CS
}.
Arguments describe_training_job {CS} _ _ _.

Record world (CS : Type) : Type := { client_state : CS; output : list event }.
Arguments client_state {CS} _.
Arguments output {CS} _.

Definition M (CS A : Type) : Type := world CS -> result error A * world CS.

Definition M_bind {CS A B} (f : A -> M CS B) (m : M CS A) : M CS B :=
  fun w => match m w with
           | (Ok a, w') => f a w'
           | (Raised e, w') => (Raised e, w')
           end.
#[global] Instance M_mbind CS : MBind (M CS) := @M_bind CS.
#[global] Instance M_mret CS : MRet (M CS) := fun A a w => (Ok a, w).

(** [d[key]]: [KeyError] when the key is missing. *)
Definition getitem (d : response) (key : string) : result error string :=
  match d !! key with
  | Some v => Ok v
  | None => Raised (KeyError key)
  end.

(** ['Current job status: [PrimaryStatus: {}, SecondaryStatus: {}]'
    .format(primary_status, secondary_status)]. *)
Definition status_line (primary_status secondary_status : string) : string :=
  "Current job status: [PrimaryStatus: " +:+ primary_status +:+
  ", SecondaryStatus: " +:+ secondary_status +:+ "]".

(** [s in {'Training', 'Completed'}]. *)
Definition training_or_completed (s : string) : bool :=
  String.eqb s "Training" || String.eqb s "Completed".

Section Cell.

Context {CS : Type}.
Variable client : Client CS.
Variable job_name : string.

Definition emit (e : event) : M CS unit :=
  fun w => (Ok tt, {| client_state := client_state w; output := output w ++ [e] |}).

Definition print (line : string) : M CS unit := emit (Printed line).
Definition sleep (seconds : nat) : M CS unit := emit (Slept seconds).

Definition pure {A} (r : result error A) : M CS A := fun w => (r, w).

Definition describe : M CS response :=
  fun w => let '(r, s) := describe_training_job client job_name (client_state w) in
           (r, {| client_state := s; output := output w |}).

(** The body of the [while] loop; it returns the new [description]. *)
Definition poll : M CS response :=
  description ← describe;
  primary_status ← pure (getitem description "TrainingJobStatus");
  secondary_status ← pure (getitem description "SecondaryStatus");
  print (status_line primary_status secondary_status);;
  sleep 15;;
  mret description.

(** The [while] loop. [None]: the loop is still running when the fuel is
    used up. *)
Fixpoint status_loop (fuel : nat) (description : response) (w : world CS)
  : option (result error response * world CS) :=
  match getitem description "SecondaryStatus" with
  | Raised e => Some (Raised e, w)
  | Ok secondary_status =>
      if training_or_completed secondary_status then Some (Ok description, w)
      else
        match fuel with
        | O => None
        | S fuel =>
            match poll w with
            | (Ok description, w') => status_loop fuel description w'
            | (Raised e, w') => Some (Raised e, w')
            end
        end
  end.

(** The cell, from the [description] the cell before it has fetched. *)
Definition status_cell (fuel : nat) (description : response) (w : world CS)
  : option (result error response * world CS) :=
  match getitem description "TrainingJobStatus" with
  | Raised e => Some (Raised e, w)
  | Ok primary_status =>
      if String.eqb primary_status "Completed" then Some (Ok description, w)
      else status_loop fuel description w
  end.

End Cell.

(** What a description that keeps the loop going looks like: both keys
    are there, the job is not completed and its secondary status is
    neither ['Training'] nor ['Completed']. *)
Definition pending (d : response) : Prop :=
  exists primary_status secondary_status,
    d !! "TrainingJobStatus" = Some primary_status /\
    primary_status <> "Completed" /\
    d !! "SecondaryStatus" = Some secondary_status /\
    training_or_completed secondary_status = false.

(** A description the loop stops at. *)
Definition ready (d : response) : Prop :=
  exists secondary_status,
    d !! "SecondaryStatus" = Some secondary_status /\
    (secondary_status = "Training" \/ secondary_status = "Completed").

(** The line and the sleep of one turn of the loop. *)
Definition reported (d : response) : list event :=
  match d !! "TrainingJobStatus", d !! "SecondaryStatus" with
  | Some primary_status, Some secondary_status =>
      [Printed (status_line primary_status secondary_status); Slept 15]
  | _, _ => []
  end.

(** A client that answers from a list of responses, one per call, and
    fails when the list is used up. *)
Definition scripted : Client (list response) :=
  {| describe_training_job := fun _ responses =>
       match responses with
       | d :: rest => (Ok d, rest)
       | [] => (Raised (ClientError "no response"), [])
       end |}.

(** A description with the two status keys. *)
Definition job (primary_status secondary_status : string) : response :=
  {[ "TrainingJobStatus" := primary_status;
     "SecondaryStatus" := secondary_status ]}.

End JobStatus.

(** ** [upload_to_s3] *)

Module Upload.

Import Stdlib.Strings.Ascii.

(** *** Python strings, paths and slices *)

(** [s.replace(old, new)] for two characters. *)
Fixpoint replace (old new : Ascii.ascii) (s : string) : string :=
  match s with
  | EmptyString => EmptyString
  | String c r => String (if Ascii.eqb c old then new else c) (replace old new r)
  end.

(** [s.split(sep)] for a separator of one character: never empty. *)
Fixpoint split (sep : Ascii.ascii) (s : string) : list string :=
  match s with
  | EmptyString => [EmptyString]
  | String c r =>
      if Ascii.eqb c sep then EmptyString :: split sep r
      else match split sep r with
           | x :: xs => String c x :: xs
           | [] => [String c EmptyString]
           end
  end.

(** [l[-1]] on a list of strings that is not empty. *)
Definition last_item (l : list string) : string := default EmptyString (last l).

Definition startswith (c : Ascii.ascii) (s : string) : bool :=
  match s with
  | String c' _ => Ascii.eqb c' c
  | EmptyString => false
  end.

Fixpoint endswith (c : Ascii.ascii) (s : string) : bool :=
  match s with
  | EmptyString => false
  | String c' EmptyString => Ascii.eqb c' c
  | String _ r => endswith c r
  end.

(** [os.path.join(a, b)] of [posixpath]. *)
Definition join (a b : string) : string :=
  if startswith "/"%char b then b
  else if String.eqb a "" || endswith "/"%char a then a +:+ b
  else a +:+ "/" +:+ b.

(** [l[0:stop]]: a negative [stop] counts from the end. *)
Definition slice_to {A} (l : list A) (stop : Z) : list A :=
  let n := Z.of_nat (length l) in
  let stop := if (stop <? 0)%Z then Z.max 0 (n + stop) else Z.min stop n in
  take (Z.to_nat stop) l.

(** *** The file system and the S3 client *)

(** A directory: its name, the directories in it, which [os.walk] goes
    into in this order, and the names of its other entries. *)
#[local] Unset Elimination Schemes.
Inductive dir : Type :=
  | Dir (name : string) (subdirs : list dir) (files : list string).
#[local] Set Elimination Schemes.

Definition dir_name (d : dir) : string :=
  match d with Dir name _ _ => name end.

(** [os.walk(top)] on the directory [d] found at [top]: the directory
    itself, then the walks of its subdirectories. *)
Fixpoint walk (top : string) (d : dir)
  : list (string * list string * list string) :=
  match d with
  | Dir _ subdirs files =>
      (top, dir_name <$> subdirs, files) ::
      (fix walk_all (l : list dir) :=
         match l with
         | [] => []
         | sub :: r => walk (join top (dir_name sub)) sub ++ walk_all r
         end) subdirs
  end.

(** [os.walk(top)]: nothing at all where [top] is no directory. *)
Definition os_walk (fs : string -> option dir) (top : string)
  : list (string * list string * list string) :=
  match fs top with
  | Some d => walk top d
  | None => []
  end.

Inductive error : Type :=
  | S3UploadFailedError (msg : string).

(** The S3 client: [client.upload_file(Filename, Bucket, Key)]. *)
Record Client (CS : Type) : Type := {
  upload_file : string -> string -> string -> CS -> result error unit * CS
}.
Arguments upload_file {CS} _ _ _ _ _.

(** What the function does to the outside: the lines it prints and the
    calls of [upload_file]. *)
Inductive event : Type :=
  | Printed (line : string)
  | Uploaded (filename bucket key : string).

Record world (CS : Type) : Type := { client_state : CS; output : list event }.
Arguments client_state {CS} _.
Arguments output {CS} _.

Definition M (CS A : Type) : Type := world CS -> result error A * world CS.

Definition M_bind {CS A B} (f : A -> M CS B) (m : M CS A) : M CS B :=
  fun w => match m w with
           | (Ok a, w') => f a w'
           | (Raised e, w') => (Raised e, w')
           end.
#[global] Instance M_mbind CS : MBind (M CS) := @M_bind CS.
#[global] Instance M_mret CS : MRet (M CS) := fun A a w => (Ok a, w).

Section Function.

Context {CS : Type}.

(** [boto3.client('s3')] and the local file system. *)
Variable client : Client CS.
Variable fs : string -> option dir.

Definition print (line : string) : M CS unit :=
  fun w => (Ok tt, {| client_state := client_state w;
                      output := output w ++ [Printed line] |}).

Definition call_upload_file (filename bucket key : string) : M CS unit :=
  fun w => let '(r, s) := upload_file client filename bucket key (client_state w) in
           (r, {| client_state := s;
                  output := output w ++ [Uploaded filename bucket key] |}).

(** [directory_name+'/'+path.split("/")[-1]+'/'+file]. *)
Definition key_of (directory_name path file : string) : string :=
  directory_name +:+ "/" +:+ last_item (split "/"%char path) +:+ "/" +:+ file.

(** [def upload_to_s3(path, directory_name, bucket, counter=-1)]. *)
Definition upload_to_s3 (path directory_name bucket : string) (counter : Z)
  : M CS unit :=
  print ("Upload files from" +:+ path +:+ " to " +:+ bucket);;
  for_fold (fun _ '(path, subdirs, files) =>
              let path := replace "\"%char "/"%char path in
              print path;;
              for_fold (fun _ file =>
                          call_upload_file (join path file) bucket
                            (key_of directory_name path file))
                       tt (slice_to files counter))
           tt (os_walk fs path).

End Function.

(** *** What the statements speak of *)

(** The client does not refuse an upload. *)
Definition accepts {CS} (client : Client CS) : Prop :=
  forall filename bucket key s,
    exists s', upload_file client filename bucket key s = (Ok tt, s').

(** The events of one directory of the walk when the files [chosen] of
    it are uploaded. *)
Definition directory_events (directory_name bucket path : string)
    (chosen : list string) : list event :=
  let path := replace "\"%char "/"%char path in
  Printed path ::
  ((fun file => Uploaded (join path file) bucket (key_of directory_name path file))
     <$> chosen).

(** A client that accepts every upload and keeps no state. *)
Definition accepting : Client unit :=
  {| upload_file := fun _ _ _ s => (Ok tt, s) |}.

(** A name the file system can give to an entry: no ["/"] in it. *)
Definition entry_name (name : string) : Prop :=
  split "/"%char name = [name].

End Upload.

(** ** The cell that shows the names of the tensors, layer by layer

    [for bias, gradient, weight, running_var, running_mean in
       zip(biases, gradients, bn_weights, running_vars, running_means):
         print(bias, gradient, weight, running_var, running_mean)] *)

(** [zip] of five lists. *)
Definition zip5 {A} (a b c d e : list A) : list (A * A * A * A * A) :=
  zip (zip (zip (zip a b) c) d) e.

(** [print(a, b, c, d, e)] on strings: one line, the arguments separated
    by blanks. *)
Definition print_names (names : string * string * string * string * string)
  : string :=
  let '(bias, gradient, weight, running_var, running_mean) := names in
  bias +:+ " " +:+ gradient +:+ " " +:+ weight +:+ " " +:+ running_var
  +:+ " " +:+ running_mean.

(** The lines the cell prints. *)
Definition names_cell (biases gradients bn_weights running_vars
    running_means : list string) : list string :=
  print_names <$> zip5 biases gradients bn_weights running_vars running_means.

(** ** [relu_inplace]

    [def relu_inplace(model):
       for child_name, child in model.named_children():
         if isinstance(child, torch.nn.ReLU):
           setattr(model, child_name, torch.nn.ReLU(inplace=False))
         else:
           relu_inplace(child)]

    The function changes module objects in place, and a module object can
    be registered in several places: the modules live in a heap, a child is
    the address of a module. *)

Module Relu.

Abbreviation addr := nat.

(** The class of a module, as far as [isinstance(child, torch.nn.ReLU)]
    and the [inplace] flag of a ReLU go. *)
Inductive class : Type :=
  | ReLU (inplace : bool)
  | Layer (class_name : string).

(** A module object: its class and its [_modules], an ordered dict from
    names to modules or [None]. *)
Record module : Type := {
  class_of : class;
  modules : list (string * option addr)
}.

(** The module objects: the address of an object is its position, a new
    object is put at the end. *)
Abbreviation heap := (list module).

Definition is_relu (m : module) : bool :=
  match class_of m with
  | ReLU _ => true
  | Layer _ => false
  end.

(** [torch.nn.ReLU(inplace=False)]. *)
Definition new_relu : module := {| class_of := ReLU false; modules := [] |}.

(** [_modules[name] = value] for a name that [_modules] has. *)
Definition set_item (name : string) (value : addr)
    (ms : list (string * option addr)) : list (string * option addr) :=
  (fun e => if String.eqb e.1 name then (e.1, Some value) else e) <$> ms.

(** [setattr(model, name, value)] for a module [value] and the name of a
    child of [model]. *)
Definition setattr (model : addr) (name : string) (value : addr) (h : heap)
  : heap :=
  alter (fun obj => {| class_of := class_of obj;
                       modules := set_item name value (modules obj) |})
        model h.

Section Children.

(** [relu_inplace] on a child. *)
Variable relu_inplace_child : addr -> heap -> option heap.
Variable model : addr.

(** The [for] loop over [model.named_children()]: the generator goes
    through the positions of [_modules], reads the entry when it comes to
    it, leaves out [None] and every module it has yielded before
    ([memo]). *)
Fixpoint children_loop (positions : list nat) (memo : list addr) (h : heap)
  : option heap :=
  match positions with
  | [] => Some h
  | i :: positions =>
      obj ← h !! model;
      match modules obj !! i with
      | Some (child_name, Some child) =>
          if decide (child ∈ memo) then children_loop positions memo h
          else
            c ← h !! child;
            if is_relu c then
              let value := length h in
              let h := setattr model child_name value (h ++ [new_relu]) in
              children_loop positions (child :: memo) h
            else
              h ← relu_inplace_child child h;
              children_loop positions (child :: memo) h
      | _ => children_loop positions memo h
      end
  end.

End Children.

(** [relu_inplace(model)] on the heap [h]. [None]: the recursion has not
    come to an end when the fuel is used up (or an address leads nowhere,
    which does not happen in a heap that is [well_formed]).  Python's limit
    on the depth of the recursion is not modelled. *)
Fixpoint relu_inplace (fuel : nat) (model : addr) (h : heap) : option heap :=
  match fuel with
  | O => None
  | S fuel =>
      obj ← h !! model;
      children_loop (relu_inplace fuel) model
        (seq 0 (length (modules obj))) [] h
  end.

(** *** What the statements speak of *)

(** The addresses of the children of a module. *)
Definition child_addresses (m : module) : list addr :=
  omap snd (modules m).

(** A heap of module objects: the names of the children of a module are
    the keys of a dict, a child is a module of the heap, and no module is
    registered twice in one parent. *)
Definition well_formed (h : heap) : Prop :=
  forall a obj, h !! a = Some obj ->
    NoDup (modules obj).*1 /\
    NoDup (child_addresses obj) /\
    forall c, c ∈ child_addresses obj -> (c < length h)%nat.

(** [relu_inplace(x)] calls [relu_inplace(y)]: [y] is a child of [x] and
    no ReLU. *)
Definition calls (h : heap) (x y : addr) : Prop :=
  exists obj c,
    h !! x = Some obj /\ y ∈ child_addresses obj /\
    h !! y = Some c /\ is_relu c = false.

(** The modules [relu_inplace(model)] comes to. *)
Definition visits (h : heap) (model : addr) : addr -> Prop :=
  rtc (calls h) model.

(** The module at [b] has a child that is a ReLU with [inplace=True]. *)
Definition has_inplace_relu (h : heap) (b : addr) : Prop :=
  exists obj r c,
    h !! b = Some obj /\ r ∈ child_addresses obj /\
    h !! r = Some c /\ class_of c = ReLU true.

(** What [relu_inplace] may do to an entry of a [_modules]: nothing, or
    put a new ReLU without [inplace] in the place of a ReLU. *)
Definition entry_kept_or_replaced (h h' : heap)
    (e e' : string * option addr) : Prop :=
  e'.1 = e.1 /\
  (e'.2 = e.2 \/
   exists r n c,
     e.2 = Some r /\ e'.2 = Some n /\ h !! r = Some c /\ is_relu c = true /\
     (length h <= n)%nat /\ h' !! n = Some new_relu).

(** The heap [h'] is the heap [h] after calls of [relu_inplace]: every
    module is where it was, with its class, and with its children under
    their names in their order; new modules are ReLUs without
    [inplace]. *)
Definition architecture_kept (h h' : heap) : Prop :=
  (length h <= length h')%nat /\
  (forall a obj, h !! a = Some obj ->
     exists obj', h' !! a = Some obj' /\ class_of obj' = class_of obj /\
                  Forall2 (entry_kept_or_replaced h h') (modules obj) (modules obj')) /\
  (forall a, (length h <= a < length h')%nat -> h' !! a = Some new_relu).

(** No module that [relu_inplace(x)] comes to has a ReLU with
    [inplace=True] among its children. *)
Definition clean (h : heap) (x : addr) : Prop :=
  forall b, visits h x b -> ~ has_inplace_relu h b.

(** The loop is done with an entry of [_modules]: the child is no ReLU
    with [inplace=True], and if it is no ReLU at all, [relu_inplace] has
    been through it. *)
Definition entry_done (h : heap) (e : string * option addr) : Prop :=
  forall r c, e.2 = Some r -> h !! r = Some c ->
    class_of c <> ReLU true /\ (is_relu c = false -> clean h r).

(** A module that [named_children] has yielded: a ReLU that is no child
    of [model] any more, or a module that [relu_inplace] has been
    through. *)
Definition yielded (h : heap) (model x : addr) : Prop :=
  (x < length h)%nat /\
  forall c, h !! x = Some c ->
    if is_relu c
    then forall obj, h !! model = Some obj -> x ∉ child_addresses obj
    else clean h x.

(** A measure that goes down along the calls: there is no module that
    contains itself. *)
Definition ranked (h : heap) (rank : addr -> nat) : Prop :=
  forall x y, calls h x y -> (rank y < rank x)%nat.

End Relu.

(** ** Inputs to run the other cells on *)

(** A trial that lists step 1, never says that all steps are loaded and
    fails at every request for a tensor. *)
Definition broken_trial : Trial unit :=
  {| trial_steps := fun _ s => ([1%nat], s);
     trial_loaded_all_steps := fun s => (false, s);
     trial_value := fun _ _ s => (Raised (TrialError "connection lost"), s) |}.

(** A client whose job has failed. *)
Definition failed_client : JobStatus.Client unit :=
  {| JobStatus.describe_training_job := fun _ s =>
       (Ok (JobStatus.job "Failed" "Failed"), s) |}.

(** A test directory with one subdirectory. *)
Definition final_test : Upload.dir :=
  Upload.Dir "Final_Test"
    [Upload.Dir "Images" [] ["00000.ppm"; "00001.ppm"; "GT-final_test.csv"]]
    ["Readme.txt"].

Definition test_files (path : string) : option Upload.dir :=
  if String.eqb path "GTSRB/Final_Test" then Some final_test else None.

(** A model with a convolution, a ReLU and a block that has a ReLU of
    its own, all with [inplace=True]. *)
Definition small_model : Relu.heap :=
  [ {| Relu.class_of := Relu.Layer "ResNet";
       Relu.modules := [("conv1", Some 1%nat); ("relu", Some 2%nat);
                        ("layer1", Some 3%nat); ("fc", None)] |};
    {| Relu.class_of := Relu.Layer "Conv2d"; Relu.modules := [] |};
    {| Relu.class_of := Relu.ReLU true; Relu.modules := [] |};
    {| Relu.class_of := Relu.Layer "BasicBlock";
       Relu.modules := [("relu", Some 4%nat)] |};
    {| Relu.class_of := Relu.ReLU true; Relu.modules := [] |} ].

(** The depth below which the modules of [small_model] lie. *)
Definition small_model_rank (a : nat) : nat :=
  match a with
  | 0%nat => 2%nat
  | 3%nat => 1%nat
  | _ => 0%nat
  end.

(** A model that has one ReLU under two names. *)
Definition shared_relu_model : Relu.heap :=
  [ {| Relu.class_of := Relu.Layer "Net";
       Relu.modules := [("relu1", Some 1%nat); ("relu2", Some 1%nat)] |};
    {| Relu.class_of := Relu.ReLU true; Relu.modules := [] |} ].

(* ================================================================== *)
(** * Part II: properties                                              *)
(* ================================================================== *)

(** ** Arrays without nan: the entries as a list of rationals *)

Lemma finite_data a : finite a -> exists qs, data a = Some <$> qs.
Proof.
  unfold finite. induction (data a) as [|v l IH]; intros H.
  - by exists [].
  - inversion H as [|? ? [q ->] Hl]; subst. destruct (IH Hl) as [qs ->].
    by exists (q :: qs).
Qed.

Lemma qmin_spec x y : qmin x y <= x /\ qmin x y <= y /\ (qmin x y = x \/ qmin x y = y).
Proof.
  unfold qmin. destruct (Qle_bool x y) eqn:E.
  - apply Qle_bool_iff in E. repeat split; [lra | lra | by left].
  - assert (~ x <= y) by (rewrite <- Qle_bool_iff; congruence).
    repeat split; [lra | lra | by right].
Qed.

Lemma qmax_spec x y : x <= qmax x y /\ y <= qmax x y /\ (qmax x y = x \/ qmax x y = y).
Proof.
  unfold qmax. destruct (Qle_bool x y) eqn:E.
  - apply Qle_bool_iff in E. repeat split; [lra | lra | by right].
  - assert (~ x <= y) by (rewrite <- Qle_bool_iff; congruence).
    repeat split; [lra | lra | by left].
Qed.

Lemma foldl_vmin_finite x r :
  foldl vmin (Some x) (Some <$> r) = Some (foldl qmin x r).
Proof. revert x. induction r as [|y r IH]; intros x; [done | apply IH]. Qed.

Lemma foldl_vmax_finite x r :
  foldl vmax (Some x) (Some <$> r) = Some (foldl qmax x r).
Proof. revert x. induction r as [|y r IH]; intros x; [done | apply IH]. Qed.

Lemma foldl_qmin_spec r : forall x,
  foldl qmin x r ∈ x :: r /\ forall y, y ∈ x :: r -> foldl qmin x r <= y.
Proof.
  induction r as [|z r IH]; intros x; simpl.
  - split; [apply list_elem_of_here |].
    intros y Hy. apply list_elem_of_singleton in Hy as ->. lra.
  - destruct (IH (qmin x z)) as [Hin Hle].
    destruct (qmin_spec x z) as (Hx & Hz & Hor).
    assert (foldl qmin (qmin x z) r <= qmin x z) as Hm
      by apply Hle, list_elem_of_here.
    split.
    + apply elem_of_cons in Hin as [-> | Hin].
      * destruct Hor as [-> | ->]; [apply list_elem_of_here |].
        apply list_elem_of_further, list_elem_of_here.
      * by do 2 apply list_elem_of_further.
    + intros y Hy. apply elem_of_cons in Hy as [-> | Hy]; [lra |].
      apply elem_of_cons in Hy as [-> | Hy]; [lra |].
      by apply Hle, list_elem_of_further.
Qed.

Lemma foldl_qmax_spec r : forall x,
  foldl qmax x r ∈ x :: r /\ forall y, y ∈ x :: r -> y <= foldl qmax x r.
Proof.
  induction r as [|z r IH]; intros x; simpl.
  - split; [apply list_elem_of_here |].
    intros y Hy. apply list_elem_of_singleton in Hy as ->. lra.
  - destruct (IH (qmax x z)) as [Hin Hle].
    destruct (qmax_spec x z) as (Hx & Hz & Hor).
    assert (qmax x z <= foldl qmax (qmax x z) r) as Hm
      by apply Hle, list_elem_of_here.
    split.
    + apply elem_of_cons in Hin as [-> | Hin].
      * destruct Hor as [-> | ->]; [apply list_elem_of_here |].
        apply list_elem_of_further, list_elem_of_here.
      * by do 2 apply list_elem_of_further.
    + intros y Hy. apply elem_of_cons in Hy as [-> | Hy]; [lra |].
      apply elem_of_cons in Hy as [-> | Hy]; [lra |].
      by apply Hle, list_elem_of_further.
Qed.

(** [np.min] and [np.max] of an array without nan. *)
Lemma np_min_finite s x r :
  np_min {| shape := s; data := Some <$> (x :: r) |} = Ok (Some (foldl qmin x r)).
Proof. unfold np_min. simpl. by rewrite foldl_vmin_finite. Qed.

Lemma np_max_finite s x r :
  np_max {| shape := s; data := Some <$> (x :: r) |} = Ok (Some (foldl qmax x r)).
Proof. unfold np_max. simpl. by rewrite foldl_vmax_finite. Qed.

(** What [normalize] computes on an array without nan whose largest entry
    is above its smallest one. *)
Lemma normalize_finite s x r :
  let lo := foldl qmin x r in
  let hi := foldl qmax (x - lo) ((fun q => q - lo) <$> r) in
  ~ hi == 0 ->
  normalize {| shape := s; data := Some <$> (x :: r) |}
  = Ok {| shape := s; data := Some <$> ((fun q => (q - lo) / hi) <$> (x :: r)) |}.
Proof.
  intros lo hi Hhi. unfold normalize. rewrite np_min_finite. simpl.
  fold lo. unfold np_max, sub_scalar, map_data. simpl.
  rewrite <- !list_fmap_compose.
  replace ((λ x0 : val, vsub x0 (Some lo)) ∘ Some <$> r)
    with (Some <$> ((fun q => q - lo) <$> r))
    by (rewrite <- list_fmap_compose; by apply list_fmap_ext).
  rewrite foldl_vmax_finite. fold hi. simpl. unfold div_scalar, map_data. simpl.
  assert (Qeq_bool hi 0 = false) as E.
  { destruct (Qeq_bool hi 0) eqn:E; [|done]. by apply Qeq_bool_eq in E. }
  rewrite E. do 3 f_equal. rewrite <- !list_fmap_compose.
  apply list_fmap_ext. intros i q _. simpl. by rewrite E.
Qed.

Lemma non_constant_finite_data a qs :
  data a = Some <$> qs -> non_constant a ->
  exists x y, x ∈ qs /\ y ∈ qs /\ ~ x == y.
Proof.
  intros E (x & y & Hx & Hy & Hne). rewrite E in Hx, Hy.
  apply list_elem_of_fmap in Hx as (x' & [= ->] & Hx).
  apply list_elem_of_fmap in Hy as (y' & [= ->] & Hy). eauto.
Qed.

(** The bounds of a list of rationals and of the list shifted by its
    minimum, as [normalize] computes them. *)
Lemma shifted_bounds x r :
  let lo := foldl qmin x r in
  let hi := foldl qmax (x - lo) ((fun q => q - lo) <$> r) in
  lo ∈ x :: r /\ (exists q, q ∈ x :: r /\ hi = q - lo) /\
  (forall q, q ∈ x :: r -> 0 <= q - lo <= hi).
Proof.
  intros lo hi.
  destruct (foldl_qmin_spec r x) as [Hlo Hle]. fold lo in Hlo, Hle.
  destruct (foldl_qmax_spec ((fun q => q - lo) <$> r) (x - lo)) as [Hhi Hge].
  fold hi in Hhi, Hge.
  change ((x - lo) :: ((fun q => q - lo) <$> r))
    with ((fun q => q - lo) <$> (x :: r)) in Hhi, Hge.
  split; [done |]. split.
  - apply list_elem_of_fmap in Hhi as (q & -> & Hq). eauto.
  - intros q Hq. split.
    + specialize (Hle q Hq). lra.
    + apply Hge. apply list_elem_of_fmap. eauto.
Qed.

Lemma shifted_max_pos x r :
  let lo := foldl qmin x r in
  let hi := foldl qmax (x - lo) ((fun q => q - lo) <$> r) in
  (exists a b, a ∈ x :: r /\ b ∈ x :: r /\ ~ a == b) -> 0 < hi.
Proof.
  intros lo hi (a & b & Ha & Hb & Hne).
  destruct (shifted_bounds x r) as (_ & _ & Hb').
  fold lo hi in Hb'. pose proof (Hb' a Ha). pose proof (Hb' b Hb).
  destruct (Qlt_le_dec 0 hi) as [|Hz]; [done |].
  exfalso. apply Hne. lra.
Qed.

Lemma unit_fraction a b : 0 <= a <= b -> 0 < b -> 0 <= a / b <= 1.
Proof.
  intros [Ha Hab] Hb. split.
  - apply Qle_shift_div_l; [done | lra].
  - apply Qle_shift_div_r; [done | lra].
Qed.

(** [normalize] on a tensor without nan whose entries are not all equal. *)
Lemma normalize_bounds (T : ndarray) :
  finite T -> non_constant T ->
  exists R lo hi,
    normalize T = Ok R /\ shape R = shape T /\
    Forall in_unit_interval (data R) /\
    np_min R = Ok (Some lo) /\ lo == 0 /\
    np_max R = Ok (Some hi) /\ hi == 1.
Proof.
  intros Hfin Hnc. destruct T as [s d]. destruct (finite_data _ Hfin) as [qs E].
  simpl in E. subst d.
  destruct (non_constant_finite_data {| shape := s; data := Some <$> qs |} qs eq_refl Hnc)
    as (a & b & Ha & Hb & Hab).
  destruct qs as [|x r]; [by apply elem_of_nil in Ha |].
  pose proof (shifted_max_pos x r (ex_intro _ a (ex_intro _ b (conj Ha (conj Hb Hab))))) as Hpos.
  destruct (shifted_bounds x r) as (Hlo & (qhi & Hqhi & Ehi) & Hbd).
  set (lo := foldl qmin x r) in *.
  set (hi := foldl qmax (x - lo) ((fun q => q - lo) <$> r)) in *.
  set (g := fun q => (q - lo) / hi).
  assert (forall q, q ∈ x :: r -> 0 <= g q <= 1) as Hg.
  { intros q Hq. apply unit_fraction; [by apply Hbd | done]. }
  eexists _, (foldl qmin (g x) (g <$> r)), (foldl qmax (g x) (g <$> r)).
  split; [apply normalize_finite; fold lo hi; lra |]. fold lo hi g.
  split; [done |]. split.
  { cbn [data]. apply Forall_forall. intros v Hv.
    apply list_elem_of_fmap in Hv as (q' & -> & Hv).
    apply list_elem_of_fmap in Hv as (q & -> & Hq). exists (g q). eauto. }
  destruct (foldl_qmin_spec (g <$> r) (g x)) as [Hmin Hminle].
  destruct (foldl_qmax_spec (g <$> r) (g x)) as [Hmax Hmaxge].
  change (g x :: (g <$> r)) with (g <$> (x :: r)) in Hmin, Hminle, Hmax, Hmaxge.
  split; [exact (np_min_finite s (g x) (g <$> r)) |]. split.
  { apply list_elem_of_fmap in Hmin as (q & Eq & Hq). rewrite Eq.
    assert (foldl qmin (g x) (g <$> r) <= g lo) as Hle0
      by (apply Hminle, list_elem_of_fmap; eauto).
    assert (g lo == 0) as Hz by (unfold g; field; lra).
    rewrite Eq in Hle0. pose proof (Hg q Hq). lra. }
  split; [exact (np_max_finite s (g x) (g <$> r)) |].
  apply list_elem_of_fmap in Hmax as (q & Eq & Hq). rewrite Eq.
  assert (g qhi <= foldl qmax (g x) (g <$> r)) as Hge1
    by (apply Hmaxge, list_elem_of_fmap; eauto).
  assert (g qhi == 1) as Hone by (unfold g; rewrite <- Ehi; field; lra).
  rewrite Eq in Hge1. pose proof (Hg q Hq). lra.
Qed.

(** ** Broadcasting between arrays of one shape *)

Lemma chunks_length {A} k n (l : list A) : length (chunks k n l) = n.
Proof. revert l. induction n as [|n IH]; intros l; simpl; [done | by rewrite IH]. Qed.

Lemma chunks_concat {A} k n (l : list A) :
  length l = (n * k)%nat -> concat (chunks k n l) = l.
Proof.
  revert l. induction n as [|n IH]; intros l Hl; simpl.
  - by destruct l.
  - rewrite IH; [apply take_drop |]. rewrite length_drop. lia.
Qed.

Lemma chunks_Forall_length {A} k n (l : list A) :
  length l = (n * k)%nat -> Forall (fun c => length c = k) (chunks k n l).
Proof.
  revert l. induction n as [|n IH]; intros l Hl; simpl; constructor.
  - rewrite length_take. lia.
  - apply IH. rewrite length_drop. lia.
Qed.

Lemma bcast_data_same s : forall d,
  length d = size_of s -> bcast_data s s d = Some d.
Proof.
  induction s as [|n s IH]; intros d Hd; simpl; [done |].
  rewrite decide_True by done. simpl in Hd.
  rewrite (proj2 (mapM_Some _ _ (chunks (size_of s) n d))).
  - simpl. by rewrite chunks_concat.
  - apply Forall_Forall2_diag.
    eapply Forall_impl; [by apply chunks_Forall_length |].
    intros c Hc. simpl in Hc. by apply IH.
Qed.

Lemma pad_shape_same s : pad_shape (length s) s = s.
Proof. unfold pad_shape. by rewrite Nat.sub_diag. Qed.

Lemma join_shapes_same s : join_shapes s s = Some s.
Proof.
  induction s as [|n s IH]; simpl; [done |].
  rewrite IH. simpl. by rewrite decide_True.
Qed.

Lemma broadcast_shapes_same s : broadcast_shapes s s = Some s.
Proof.
  unfold broadcast_shapes. rewrite Nat.max_id, pad_shape_same.
  apply join_shapes_same.
Qed.

Lemma np_broadcast_to_same a :
  well_formed a -> np_broadcast_to a (shape a) = Ok a.
Proof.
  intros Hwf. unfold np_broadcast_to, ndim. rewrite decide_True by done.
  rewrite pad_shape_same, bcast_data_same by done. by destruct a.
Qed.

(** Between two arrays of the same shape a binary operator works entry by
    entry. *)
Lemma np_binop_same f a b :
  well_formed a -> well_formed b -> shape a = shape b ->
  np_binop f a b
  = Ok {| shape := shape a; data := zip_with f (data a) (data b) |}.
Proof.
  intros Ha Hb E. unfold np_binop. rewrite <- E, broadcast_shapes_same.
  rewrite (np_broadcast_to_same a Ha). simpl.
  rewrite E, (np_broadcast_to_same b Hb). done.
Qed.

Lemma np_iadd_same a b :
  well_formed b -> shape b = shape a ->
  np_iadd a b = Ok {| shape := shape a; data := zip_with vadd (data a) (data b) |}.
Proof.
  intros Hb E. unfold np_iadd. by rewrite <- E, (np_broadcast_to_same b Hb).
Qed.

(** ** [normalize] on a constant tensor *)

Lemma constant_finite_data a :
  constant a -> exists c qs, data a = Some <$> qs /\ Forall (fun q => q == c) qs.
Proof.
  intros [c H]. exists c. induction (data a) as [|v l IH].
  - by exists [].
  - inversion H as [|? ? (q & -> & Hq) Hl]; subst.
    destruct (IH Hl) as (qs & -> & Hqs). exists (q :: qs). by split; [|constructor].
Qed.

Lemma fmap_const_replicate {A B} (b : B) (l : list A) :
  (fun _ => b) <$> l = replicate (length l) b.
Proof. induction l as [|x l IH]; simpl; [done | by f_equal]. Qed.

Lemma normalize_constant_data s x r c :
  Forall (fun q => q == c) (x :: r) ->
  exists lo hi,
    np_min {| shape := s; data := Some <$> (x :: r) |} = Ok (Some lo) /\
    np_max (sub_scalar {| shape := s; data := Some <$> (x :: r) |} (Some lo))
      = Ok (Some hi) /\
    hi == 0 /\
    normalize {| shape := s; data := Some <$> (x :: r) |}
    = Ok {| shape := s; data := replicate (length (x :: r)) None |}.
Proof.
  intros Hc. rewrite Forall_forall in Hc.
  destruct (shifted_bounds x r) as (Hlo & (qhi & Hqhi & Ehi) & _).
  set (lo := foldl qmin x r) in *.
  set (hi := foldl qmax (x - lo) ((fun q => q - lo) <$> r)) in *.
  assert (hi == 0) as Hz.
  { rewrite Ehi. pose proof (Hc _ Hlo). pose proof (Hc _ Hqhi). lra. }
  assert (np_max (sub_scalar {| shape := s; data := Some <$> (x :: r) |} (Some lo))
          = Ok (Some hi)) as Hmax.
  { unfold sub_scalar, map_data. cbn [shape data].
    rewrite <- list_fmap_compose.
    replace ((λ x0 : val, vsub x0 (Some lo)) ∘ Some <$> x :: r)
      with (Some <$> ((x - lo) :: ((fun q => q - lo) <$> r))).
    - apply np_max_finite.
    - simpl. f_equal. rewrite <- list_fmap_compose. by apply list_fmap_ext. }
  exists lo, hi. split; [apply np_min_finite |]. split; [done |]. split; [done |].
  unfold normalize. rewrite np_min_finite. cbn [mbind result_mbind result_bind].
  fold lo. rewrite Hmax. cbn [mbind result_mbind result_bind].
  unfold div_scalar, sub_scalar, map_data. cbn [shape data]. do 2 f_equal.
  rewrite <- !list_fmap_compose.
  rewrite <- (fmap_const_replicate (None : val) (x :: r)).
  apply list_fmap_ext. intros i q _. simpl.
  by rewrite (proj2 (Qeq_bool_iff hi 0) Hz).
Qed.

Lemma chunks_replicate {A} k n (v : A) :
  chunks k n (replicate (n * k) v) = replicate n (replicate k v).
Proof.
  induction n as [|n IH]; simpl; [done |].
  rewrite replicate_add, take_app_length', drop_app_length' by (by rewrite length_replicate).
  by rewrite IH.
Qed.

Lemma add_rows_nan acc k :
  length acc = k -> add_rows acc (replicate k None) = replicate k None.
Proof.
  revert acc. induction k as [|k IH]; intros [|v acc] Hl; simpl in *; try done.
  f_equal; [by destruct v | apply IH; lia].
Qed.

Lemma sum_nan_rows n k acc :
  (0 < n)%nat -> length acc = k ->
  foldl add_rows acc (replicate n (replicate k None)) = replicate k None.
Proof.
  intros Hn. revert acc. induction n as [|n IH]; intros acc Hl; [lia |].
  simpl. rewrite add_rows_nan by done.
  destruct n as [|n]; [done |]. apply IH; [lia | apply length_replicate].
Qed.

Lemma abs_zero_product (l : list val) (qs : list Q) :
  length qs = length l -> (forall v, v ∈ l -> v = Some 0) ->
  vabs <$> zip_with vmul l (Some <$> qs) = Some <$> ((fun q => Qabs (0 * q)) <$> qs).
Proof.
  revert qs. induction l as [|v l IH]; intros [|q qs] Hlen Hzero; try done.
  rewrite (Hzero v) by apply list_elem_of_here.
  cbn. f_equal. apply IH; [simpl in Hlen; lia |].
  intros w Hw. by apply Hzero, list_elem_of_further.
Qed.

(** C8 -- on a tensor whose entries are all equal, [normalize] divides by
    [np.max(tensor - np.min(tensor))], which is zero: nothing in
    [normalize] tests for it, no exception is raised, and every entry of the
    result is nan.  In particular the base term of a saliency map is nan
    everywhere when the image gradient is zero everywhere. *)
Theorem normalize_constant_undefined (T : ndarray) :
  data T <> [] -> constant T ->
  (exists lo hi,
     np_min T = Ok (Some lo) /\
     np_max (sub_scalar T (Some lo)) = Ok (Some hi) /\ hi == 0 /\
     normalize T = Ok {| shape := shape T; data := replicate (length (data T)) None |})
  /\
  (forall n rest image,
     shape T = n :: rest -> well_formed T -> (forall v, v ∈ data T -> v = Some 0) ->
     shape image = shape T -> well_formed image -> finite image ->
     base_term T image = Ok {| shape := rest; data := replicate (size_of rest) None |}).
Proof.
  intros Hne Hc. split.
  - destruct T as [s d]. destruct (constant_finite_data _ Hc) as (c & qs & E & Hqs).
    simpl in E. subst d. destruct qs as [|x r]; [done |].
    destruct (normalize_constant_data s x r c Hqs) as (lo & hi & H1 & H2 & H3 & H4).
    exists lo, hi. cbn [shape data]. rewrite H4, length_fmap. done.
  - intros n rest image Es Hwf Hzero Eimg Hwfi Hfin.
    unfold base_term, np_mul. rewrite np_binop_same by done.
    cbn [mbind result_mbind result_bind].
    destruct (finite_data _ Hfin) as [qs Eq].
    assert (length qs = length (data T)) as Hlen.
    { unfold well_formed in *. rewrite Eq, length_fmap, Eimg in Hwfi. congruence. }
    assert (exists zs, data (np_abs {| shape := shape T;
               data := zip_with vmul (data T) (data image) |}) = Some <$> zs /\
               Forall (fun q => q == 0) zs /\ length zs = length (data T))
      as (zs & Ez & Hzs & Hlz).
    { exists ((fun q => Qabs (0 * q)) <$> qs).
      unfold np_abs, map_data. cbn [shape data]. rewrite Eq.
      split; [by apply abs_zero_product |]. split; [| by rewrite length_fmap].
      apply Forall_fmap, Forall_forall. intros q _.
      change (Qabs (0 * q) == 0). apply Qabs_case; intros _; ring. }
    destruct zs as [|z zs]; [destruct (data T); [done | simpl in Hlz; lia] |].
    destruct (normalize_constant_data (shape T) z zs 0 Hzs) as (_ & _ & _ & _ & _ & Hn).
    assert (np_abs {| shape := shape T; data := zip_with vmul (data T) (data image) |}
            = {| shape := shape T; data := Some <$> z :: zs |}) as ->.
    { unfold np_abs, map_data in *. cbn [shape data] in *. by rewrite Ez. }
    rewrite Hn.
    cbn [mbind result_mbind result_bind]. unfold np_sum_axis0. cbn [shape data].
    rewrite Es. do 2 f_equal. rewrite Hlz, Hwf, Es. cbn [size_of foldr].
    fold (size_of rest). rewrite chunks_replicate.
    apply sum_nan_rows; [| apply length_replicate].
    destruct n; [| lia]. unfold well_formed in Hwf. rewrite Es in Hwf. simpl in Hwf.
    by destruct (data T).
Qed.

(** ** The base term *)

Lemma zip_with_lift (f : Q -> Q -> Q) (a b : list Q) :
  zip_with (vlift2 f) (Some <$> a) (Some <$> b) = Some <$> zip_with f a b.
Proof.
  revert b. induction a as [|x a IH]; intros [|y b]; try done.
  cbn. f_equal. apply IH.
Qed.

Lemma fmap_vabs_lift (l : list Q) : vabs <$> (Some <$> l) = Some <$> (Qabs <$> l).
Proof. rewrite <- !list_fmap_compose. by apply list_fmap_ext. Qed.

Lemma chunks_fmap {A B} (f : A -> B) k n (l : list A) :
  chunks k n (f <$> l) = fmap (M:=list) f <$> chunks k n l.
Proof.
  revert l. induction n as [|n IH]; intros l; [done |].
  cbn. rewrite <- fmap_take, <- fmap_drop. f_equal. apply IH.
Qed.

Lemma foldl_add_rows_lift acc rows :
  foldl add_rows (Some <$> acc) (fmap (M:=list) Some <$> rows)
  = Some <$> foldl qadd_rows acc rows.
Proof.
  revert acc. induction rows as [|row rows IH]; intros acc; [done |].
  cbn. unfold add_rows at 2. change vadd with (vlift2 Qplus).
  rewrite zip_with_lift. apply IH.
Qed.

Lemma channel_sum_S c k d p :
  channel_sum (S c) k d p = nth p d 0 + channel_sum c k (drop k d) p.
Proof.
  unfold channel_sum. rewrite <- cons_seq, <- fmap_S_seq. cbn. f_equal.
  rewrite <- list_fmap_compose. f_equal. apply list_fmap_ext.
  intros i ch _. cbn. rewrite nth_skipn. f_equal. lia.
Qed.

Lemma rows_sum_spec k c : forall d,
  length d = (c * k)%nat ->
  foldr qadd_rows (replicate k 0) (chunks k c d) = sum_over_channels c k d.
Proof.
  induction c as [|c IH]; intros d Hd.
  - cbn. unfold sum_over_channels. apply list_eq. intros i.
    rewrite list_lookup_fmap. destruct (decide (i < k)%nat).
    + by rewrite lookup_replicate_2, lookup_seq_lt.
    + rewrite (proj1 (lookup_replicate_None k 0 i)) by lia.
      by rewrite lookup_seq_ge by lia.
  - cbn. rewrite IH by (rewrite length_drop; lia).
    unfold sum_over_channels, qadd_rows. apply list_eq. intros i.
    rewrite lookup_zip_with, !list_lookup_fmap. destruct (decide (i < k)%nat).
    + rewrite lookup_seq_lt by done. cbn. rewrite channel_sum_S.
      rewrite lookup_take_lt by done.
      destruct (lookup_lt_is_Some_2 d i) as [x Hx]; [lia |].
      rewrite Hx. cbn. by rewrite (nth_lookup_Some _ _ _ _ Hx).
    + rewrite lookup_seq_ge by lia. cbn.
      by destruct (take k d !! i).
Qed.

Lemma Forall2_Qeq_refl (l : list Q) : Forall2 Qeq l l.
Proof. apply Forall_Forall2_diag, Forall_forall. intros. reflexivity. Qed.

Lemma Forall2_Qeq_trans (a b c : list Q) :
  Forall2 Qeq a b -> Forall2 Qeq b c -> Forall2 Qeq a c.
Proof.
  intros H. revert c. induction H as [|x y a b Hxy _ IH]; intros c Hc;
    inversion Hc; subst; constructor; [by etrans | by apply IH].
Qed.

Lemma qadd_rows_Qeq a a' b b' :
  Forall2 Qeq a a' -> Forall2 Qeq b b' ->
  Forall2 Qeq (qadd_rows a b) (qadd_rows a' b').
Proof.
  intros H. revert b b'. induction H as [|x x' a a' Hx _ IH]; intros b b' Hb.
  - constructor.
  - inversion Hb; subst; cbn; constructor; [by rewrite Hx, H | by apply IH].
Qed.

Lemma qadd_rows_assoc a b c :
  Forall2 Qeq (qadd_rows (qadd_rows a b) c) (qadd_rows a (qadd_rows b c)).
Proof.
  revert b c. induction a as [|x a IH]; intros [|y b] [|z c]; cbn; try constructor.
  - ring.
  - apply IH.
Qed.

Lemma qadd_rows_zero a k :
  length a = k -> Forall2 Qeq (qadd_rows a (replicate k 0)) a.
Proof.
  revert a. induction k as [|k IH]; intros [|x a] Hl; try done; cbn.
  constructor; [ring | apply IH; simpl in Hl; lia].
Qed.

Lemma qadd_rows_zero_l a k :
  length a = k -> Forall2 Qeq (qadd_rows (replicate k 0) a) a.
Proof.
  revert a. induction k as [|k IH]; intros [|x a] Hl; try done; cbn.
  constructor; [ring | apply IH; simpl in Hl; lia].
Qed.

(** Adding the rows into an accumulator, as [np.sum] does, gives the
    accumulator plus the sum of the rows. *)
Lemma foldl_rows_sum k rows : forall acc,
  length acc = k -> Forall (fun r => length r = k) rows ->
  Forall2 Qeq (foldl qadd_rows acc rows)
              (qadd_rows acc (foldr qadd_rows (replicate k 0) rows)).
Proof.
  induction rows as [|row rows IH]; intros acc Hacc Hrows; cbn.
  - apply Forall2_flip. eapply Forall2_impl; [by apply qadd_rows_zero |].
    intros ? ? E. by symmetry.
  - inversion Hrows as [|? ? Hrow Hrows']; subst.
    eapply Forall2_Qeq_trans.
    + apply IH; [| done]. unfold qadd_rows. rewrite length_zip_with. lia.
    + apply qadd_rows_assoc.
Qed.

Lemma nth_Qeq d d' : Forall2 Qeq d d' -> forall i, nth i d 0 == nth i d' 0.
Proof.
  induction 1 as [|x y d d' Hxy _ IH]; intros [|i]; cbn;
    [reflexivity | reflexivity | done | apply IH].
Qed.

Lemma channel_sum_Qeq c k d d' p :
  Forall2 Qeq d d' -> channel_sum c k d p == channel_sum c k d' p.
Proof.
  intros H. unfold channel_sum. induction (seq 0 c) as [|ch l IH]; cbn.
  - reflexivity.
  - rewrite IH. by rewrite (nth_Qeq _ _ H).
Qed.

Lemma sum_over_channels_Qeq c k d d' :
  Forall2 Qeq d d' ->
  Forall2 Qeq (sum_over_channels c k d) (sum_over_channels c k d').
Proof.
  intros H. unfold sum_over_channels. apply Forall2_fmap, Forall_Forall2_diag.
  apply Forall_forall. intros p _. by apply channel_sum_Qeq.
Qed.

(** The largest entry of the shifted list is the largest entry minus the
    smallest one. *)
Lemma shifted_max x r :
  let lo := foldl qmin x r in
  foldl qmax (x - lo) ((fun q => q - lo) <$> r) == foldl qmax x r - lo.
Proof.
  intros lo. destruct (shifted_bounds x r) as (_ & (qhi & Hqhi & Ehi) & Hbd).
  fold lo in Ehi, Hbd. destruct (foldl_qmax_spec r x) as [Hin Hge].
  pose proof (Hge qhi Hqhi). pose proof (Hbd _ Hin). rewrite Ehi in *. lra.
Qed.

(** The two steps of [normalize] amount to min-max normalisation. *)
Lemma normalize_is_minmax x r :
  let lo := foldl qmin x r in
  let hi := foldl qmax (x - lo) ((fun q => q - lo) <$> r) in
  ~ hi == 0 ->
  Forall2 Qeq ((fun q => (q - lo) / hi) <$> (x :: r)) (minmax_normalize (x :: r)).
Proof.
  intros lo hi Hhi. unfold minmax_normalize. fold lo.
  apply Forall2_fmap, Forall_Forall2_diag, Forall_forall. intros q _.
  assert (hi == foldl qmax x r - lo) as E by apply shifted_max.
  change ((q - lo) / hi == (q - lo) / (foldl qmax x r - lo)).
  by rewrite E.
Qed.

Lemma same_values_trans a b c :
  same_values a b -> same_values b c -> same_values a c.
Proof.
  intros H. revert c. induction H as [|x y a b Hxy _ IH]; intros c Hc;
    inversion Hc as [|? z ? ? Hyz]; subst; constructor; [| by apply IH].
  destruct Hxy; inversion Hyz; subst; constructor. by etrans.
Qed.

Lemma same_values_Some (a b : list Q) :
  Forall2 Qeq a b -> same_values (Some <$> a) (Some <$> b).
Proof.
  intros H. apply Forall2_fmap.
  eapply Forall2_impl; [exact H | intros ? ? E; by constructor].
Qed.

Lemma np_sum_axis0_finite c rest (d : list Q) :
  np_sum_axis0 {| shape := c :: rest; data := Some <$> d |}
  = Ok {| shape := rest;
          data := Some <$> foldl qadd_rows (replicate (size_of rest) 0)
                             (chunks (size_of rest) c d) |}.
Proof.
  unfold np_sum_axis0. cbn [shape data]. do 2 f_equal.
  rewrite chunks_fmap, <- foldl_add_rows_lift. by rewrite fmap_replicate.
Qed.

Lemma np_sum_axis0_spec c rest (d : list Q) :
  length d = (c * size_of rest)%nat ->
  exists m, np_sum_axis0 {| shape := c :: rest; data := Some <$> d |} = Ok m /\
    shape m = rest /\
    same_values (data m) (Some <$> sum_over_channels c (size_of rest) d).
Proof.
  intros Hd. eexists. split; [apply np_sum_axis0_finite |]. split; [done |].
  cbn [data]. apply same_values_Some.
  eapply Forall2_Qeq_trans.
  - apply foldl_rows_sum; [apply length_replicate |].
    by apply chunks_Forall_length.
  - rewrite rows_sum_spec by done. apply qadd_rows_zero_l.
    unfold sum_over_channels. by rewrite length_fmap, length_seq.
Qed.

Lemma abs_product_data (gs xs : list Q) s :
  np_abs {| shape := s; data := zip_with vmul (Some <$> gs) (Some <$> xs) |}
  = {| shape := s; data := Some <$> abs_product gs xs |}.
Proof.
  unfold np_abs, map_data, abs_product. cbn [shape data]. f_equal.
  change vmul with (vlift2 Qmult). by rewrite zip_with_lift, fmap_vabs_lift.
Qed.

Lemma size_of_2 h w : size_of [h; w] = (h * w)%nat.
Proof. cbn. lia. Qed.


Example base_term_1x2 :
  base_term gradient_1x2 image_1x2
  = Ok {| shape := [1; 2]%nat; data := [Some (4 # 4); Some (6 # 4)] |}.
Proof. reflexivity. Qed.

Example normalize_last_1x2 :
  base_term_normalize_last 2 2 [0; 1; 2; 2] [1; 1; 1; 1] = [0; 1].
Proof. reflexivity. Qed.



Example normalize_zeros :
  normalize zeros_1x2
  = Ok {| shape := [2; 1; 2]%nat; data := [None; None; None; None] |}.
Proof. reflexivity. Qed.

Lemma normalize_constant_undefined_witness :
  (exists lo hi,
     np_min zeros_1x2 = Ok (Some lo) /\
     np_max (sub_scalar zeros_1x2 (Some lo)) = Ok (Some hi) /\ hi == 0 /\
     normalize zeros_1x2
     = Ok {| shape := shape zeros_1x2;
             data := replicate (length (data zeros_1x2)) None |})
  /\
  base_term zeros_1x2 image_1x2
  = Ok {| shape := [1; 2]%nat; data := replicate (size_of [1; 2]%nat) None |}.
Proof.
  assert (data zeros_1x2 <> []) as Hne by done.
  assert (constant zeros_1x2) as Hc.
  { exists 0. repeat constructor; eexists; split; reflexivity. }
  destruct (normalize_constant_undefined zeros_1x2 Hne Hc) as [H1 H2].
  split; [exact H1 |].
  apply (H2 2%nat [1; 2]%nat image_1x2); try reflexivity.
  - intros v Hv. repeat (apply elem_of_cons in Hv as [-> | Hv]; [done |]).
    by apply elem_of_nil in Hv.
  - repeat constructor; eauto.
Defined.

(** ** Running the notebook's monad *)

Section Effects.

Context {TS : Type}.
Implicit Types (w : world (TS:=TS)) (e : exn).

Lemma M_bind_ok {A B} (m : M A) (f : A -> M B) w a w' :
  m w = (Ok a, w') -> (m ≫= f) w = f a w'.
Proof. intros E. unfold mbind, M_mbind, M_bind. by rewrite E. Qed.

Lemma M_bind_raised {A B} (m : M A) (f : A -> M B) w e w' :
  m w = (Raised e, w') -> (m ≫= f) w = (Raised e, w').
Proof. intros E. unfold mbind, M_mbind, M_bind. by rewrite E. Qed.

Lemma np_ok_bind {A B} (a : A) (f : A -> M B) w :
  (np (Ok a) ≫= f) w = f a w.
Proof. done. Qed.

Lemma np_raised_bind {A B} (err : np_error) (f : A -> M B) w :
  (np (Raised err) ≫= f) w = (Raised (NumpyError err), w).
Proof. done. Qed.

Lemma value_bind (trial : Trial TS) {B} name step (f : ndarray -> M B) w r s' :
  trial_value trial name step (trial_state w) = (r, s') ->
  (value trial name step ≫= f) w
  = match r with
    | Ok a => f a {| trial_state := s'; output := output w |}
    | Raised e => (Raised e, {| trial_state := s'; output := output w |})
    end.
Proof.
  intros E. unfold mbind, M_mbind, M_bind, value. rewrite E. by destruct r.
Qed.

End Effects.

(** ** The implicit biases *)

Section ImplicitBiases.

Variable sqrtQ : Q -> Q.
Hypothesis sqrtQ_pos : forall x, 0 < x -> 0 < sqrtQ x.

Lemma well_formed_arr s l : length l = size_of s -> well_formed (arr s l).
Proof. intros E. unfold well_formed, arr. cbn. by rewrite length_fmap. Qed.

Lemma neg_over_sqrt (ms vs : list Q) :
  Forall (Qlt 0) vs ->
  zip_with vdiv (vneg <$> (Some <$> ms)) (vsqrt sqrtQ <$> (Some <$> vs))
  = Some <$> zip_with Qdiv (Qopp <$> ms) (sqrtQ <$> vs).
Proof.
  intros H. revert ms. induction H as [|v vs Hv _ IH]; intros [|m ms]; try done.
  cbn. assert (Qle_bool 0 v = true) as -> by (apply Qle_bool_iff; lra).
  cbn. assert (Qeq_bool (sqrtQ v) 0 = false) as ->.
  { destruct (Qeq_bool (sqrtQ v) 0) eqn:E; [| done].
    apply Qeq_bool_eq in E. pose proof (sqrtQ_pos v Hv). lra. }
  f_equal. apply IH.
Qed.

(** The expression of [compute_implicit_biases] on three tensors of one
    shape with a positive running variance. *)
Lemma implicit_bias_arr s ws vs ms :
  length ws = size_of s -> length vs = size_of s -> length ms = size_of s ->
  Forall (Qlt 0) vs ->
  implicit_bias sqrtQ (arr s ws) (arr s vs) (arr s ms)
  = Ok (arr s (implicit_bias_formula sqrtQ ws vs ms)).
Proof.
  intros Hw Hv Hm Hpos. unfold implicit_bias, np_div, np_mul.
  rewrite np_binop_same; cycle 1.
  { unfold well_formed, np_neg, map_data, arr. cbn [shape data].
    by rewrite !length_fmap. }
  { unfold well_formed, np_sqrt, map_data, arr. cbn [shape data].
    by rewrite !length_fmap. }
  { done. }
  cbn [mbind result_mbind result_bind np_neg np_sqrt map_data arr shape data].
  rewrite neg_over_sqrt by done.
  rewrite np_binop_same; cycle 1.
  { unfold well_formed. cbn [shape data].
    rewrite length_fmap, length_zip_with, !length_fmap. lia. }
  { by apply well_formed_arr. }
  { done. }
  cbn [shape data arr]. change vmul with (vlift2 Qmult).
  by rewrite zip_with_lift.
Qed.

Context {TS : Type} (trial : Trial TS).
Variable inv : TS -> Prop.
Variable step : nat.
Variable table : string -> option ndarray.
Hypothesis trial_serves : serves trial inv step table.

Lemma value_served {B} name a (f : ndarray -> M B) (w : world) :
  inv (trial_state w) -> table name = Some a ->
  exists s', inv s' /\
    (value trial name step ≫= f) w = f a {| trial_state := s'; output := output w |}.
Proof.
  intros Hi Ht. destruct (trial_serves _ _ _ Hi Ht) as (s' & E & Hi').
  exists s'. split; [done |]. by rewrite (value_bind _ _ _ _ _ _ _ E).
Qed.

Lemma implicit_biases_loop names : forall layers acc (w : world),
  Forall2 (bn_recorded table) names layers ->
  inv (trial_state w) ->
  exists w',
    for_fold (fun implicit_biases '(weight_name, running_var_name, running_mean_name) =>
                weight ← value trial weight_name step;
                running_var ← value trial running_var_name step;
                running_mean ← value trial running_mean_name step;
                b ← np (implicit_bias sqrtQ weight running_var running_mean);
                mret (implicit_biases ++ [b]))
             acc names w
    = (Ok (acc ++ (implicit_bias_of sqrtQ <$> layers)), w') /\
    output w' = output w /\ inv (trial_state w').
Proof.
  induction names as [|[[wn vn] mn] names IH]; intros layers acc w Hrec Hinv;
    inversion Hrec as [|? l ? layers' Hl Hrest]; subst.
  - exists w. cbn. by rewrite app_nil_r.
  - destruct Hl as (Tw & Tv & Tm & Lw & Lv & Lm & Hpos).
    cbn [for_fold].
    destruct (value_served wn _
      (fun weight => running_var ← value trial vn step;
                     running_mean ← value trial mn step;
                     b ← np (implicit_bias sqrtQ weight running_var running_mean);
                     mret (acc ++ [b])) w Hinv Tw) as (s1 & I1 & E1).
    set (w1 := {| trial_state := s1; output := output w |}) in *.
    destruct (value_served vn _
      (fun running_var => running_mean ← value trial mn step;
                     b ← np (implicit_bias sqrtQ (arr (bn_shape l) (bn_weight l))
                               running_var running_mean);
                     mret (acc ++ [b])) w1 I1 Tv) as (s2 & I2 & E2).
    set (w2 := {| trial_state := s2; output := output w1 |}) in *.
    destruct (value_served mn _
      (fun running_mean =>
                     b ← np (implicit_bias sqrtQ (arr (bn_shape l) (bn_weight l))
                               (arr (bn_shape l) (bn_running_var l)) running_mean);
                     mret (acc ++ [b])) w2 I2 Tm) as (s3 & I3 & E3).
    set (w3 := {| trial_state := s3; output := output w2 |}) in *.
    destruct (IH layers' (acc ++ [implicit_bias_of sqrtQ l]) w3 Hrest I3)
      as (w' & E & Ho & Hi).
    exists w'. split; [| done].
    erewrite M_bind_ok; [rewrite E; by rewrite <- app_assoc |].
    rewrite E1, E2, E3, implicit_bias_arr by done. done.
Qed.

(** C3 -- for name lists of one length whose tensors the trial has at
    [step], with a positive running variance, [compute_implicit_biases]
    returns one tensor per layer, in the order of the lists, and the
    tensor of a layer is [-running_mean / sqrt(running_var) * weight]
    entry by entry.  It prints nothing. *)
Theorem compute_implicit_biases_formula
    (bn_weights running_vars running_means : list string)
    (layers : list bn_layer) (w : world) :
  length running_vars = length bn_weights ->
  length running_means = length bn_weights ->
  Forall2 (bn_recorded table)
          (zip3 bn_weights running_vars running_means) layers ->
  inv (trial_state w) ->
  exists w',
    compute_implicit_biases sqrtQ trial bn_weights running_vars
      running_means step w
    = (Ok (implicit_bias_of sqrtQ <$> layers), w') /\
    length (implicit_bias_of sqrtQ <$> layers) = length bn_weights /\
    output w' = output w /\ inv (trial_state w').
Proof.
  intros Lv Lm Hrec Hinv. unfold compute_implicit_biases.
  destruct (implicit_biases_loop _ layers [] w Hrec Hinv) as (w' & E & Ho & Hi).
  exists w'. split; [done |]. split; [| done].
  rewrite length_fmap, <- (Forall2_length _ _ _ Hrec).
  unfold zip3. rewrite !length_zip_with. lia.
Qed.

End ImplicitBiases.

(** ** One layer of the accumulator *)

Lemma normalize_ok a r :
  normalize a = Ok r ->
  data a <> [] /\ shape r = shape a /\ length (data r) = length (data a).
Proof.
  unfold normalize, np_min, np_max, sub_scalar, div_scalar, map_data.
  destruct (data a) as [|x l] eqn:E; [done |]. cbn.
  intros [= <-]. cbn. by rewrite !length_fmap.
Qed.

Lemma concat_replicate_replicate {A} h w (x : A) :
  concat (replicate h (replicate w x)) = replicate (h * w) x.
Proof.
  induction h as [|h IH]; [done |]. cbn. by rewrite IH, <- replicate_add.
Qed.

Lemma concat_singletons {A} w (x : A) : concat (replicate w [x]) = replicate w x.
Proof. induction w as [|w IH]; [done |]. cbn. by f_equal. Qed.

Lemma bcast_scalar_row w (x : val) :
  bcast_data [1%nat] [w] [x] = Some (replicate w x).
Proof.
  cbn. destruct (decide (1 = w)%nat) as [<- | _]; [done |]. cbn.
  rewrite decide_True by done. by rewrite concat_singletons.
Qed.

Lemma bcast_scalar_plane h w (x : val) :
  bcast_data [1; 1]%nat [h; w] [x] = Some (replicate (h * w) x).
Proof.
  change (bcast_data [1; 1]%nat [h; w] [x]) with
    (if decide (1 = h)%nat then
       @concat val <$> mapM (bcast_data [1%nat] [w]) (chunks 1 1 [x])
     else r ← bcast_data [1%nat] [w] [x]; Some (concat (replicate h r))).
  destruct (decide (1 = h)%nat) as [<- | _].
  - change (chunks 1 1 [x]) with [[x]]. cbn [mapM]. rewrite bcast_scalar_row.
    cbn. by rewrite app_nil_r, Nat.add_0_r.
  - rewrite bcast_scalar_row. cbn. by rewrite concat_replicate_replicate.
Qed.

Lemma chunks_singletons {A} (d : list A) :
  chunks 1 (length d) d = (fun x => [x]) <$> d.
Proof. induction d as [|x d IH]; [done |]. cbn. by rewrite drop_0, IH. Qed.

Lemma mapM_bcast_planes h w (d : list val) :
  mapM (bcast_data [1; 1]%nat [h; w]) ((fun x => [x]) <$> d)
  = Some (replicate (h * w) <$> d).
Proof.
  apply mapM_Some, Forall2_fmap, Forall_Forall2_diag, Forall_forall.
  intros x _. apply bcast_scalar_plane.
Qed.

(** The bias of shape [(1, c, 1, 1)] broadcast to [(1, c, h, w)]: the
    bias of a channel at each of its [h * w] pixels. *)
Lemma bcast_bias c h w (d : list val) :
  length d = c ->
  bcast_data [1; c; 1; 1]%nat [1; c; h; w]%nat d
  = Some (concat (replicate (h * w) <$> d)).
Proof.
  intros <-.
  change (bcast_data [1; length d; 1; 1]%nat [1; length d; h; w]%nat d) with
    (@concat val <$> mapM (bcast_data [length d; 1; 1]%nat [length d; h; w])
       (chunks (size_of [length d; 1; 1]%nat) 1 d)).
  assert (chunks (size_of [length d; 1; 1]%nat) 1 d = [d]) as ->.
  { cbn. rewrite take_ge; [done | lia]. }
  cbn [mapM].
  assert (bcast_data [length d; 1; 1]%nat [length d; h; w] d
          = Some (concat (replicate (h * w) <$> d))) as ->.
  { change (bcast_data [length d; 1; 1]%nat [length d; h; w] d) with
      (if decide (length d = length d) then
         @concat val <$> mapM (bcast_data [1; 1]%nat [h; w])
           (chunks 1 (length d) d)
       else if decide (length d = 1%nat) then
         r ← bcast_data [1; 1]%nat [h; w] d;
         Some (concat (replicate (length d) r))
       else None).
    rewrite decide_True by done.
    by rewrite chunks_singletons, mapM_bcast_planes. }
  cbn. by rewrite app_nil_r.
Qed.

Lemma broadcast_channels_lift k (bs : list Q) :
  concat (replicate k <$> (Some <$> bs)) = Some <$> broadcast_channels k bs.
Proof.
  unfold broadcast_channels. induction bs as [|b bs IH]; [done |].
  cbn. rewrite fmap_app, fmap_replicate. by f_equal.
Qed.

Lemma broadcast_channels_length k bs :
  length (broadcast_channels k bs) = (length bs * k)%nat.
Proof.
  unfold broadcast_channels. induction bs as [|b bs IH]; [done |].
  cbn. rewrite length_app, length_replicate, IH. done.
Qed.

Lemma chunks_seq {A} k c : forall (d : list A),
  chunks k c d = (fun ch => take k (drop (ch * k) d)) <$> seq 0 c.
Proof.
  induction c as [|c IH]; intros d; [done |].
  cbn [chunks]. rewrite IH, <- cons_seq, <- fmap_S_seq. cbn. f_equal.
  rewrite <- list_fmap_compose. apply list_fmap_ext. intros _ ch _. cbn.
  rewrite drop_drop. by do 2 f_equal.
Qed.

Lemma for_fold_fmap {E A B C} (f : C -> B -> result E C) (g : A -> B) l :
  forall acc,
  for_fold f acc (g <$> l) = for_fold (fun a x => f a (g x)) acc l.
Proof.
  induction l as [|x l IH]; intros acc; [done |].
  cbn. destruct (f acc (g x)); [apply IH | done].
Qed.

Lemma for_fold_ext {E A C} (f g : C -> A -> result E C) l :
  (forall acc x, x ∈ l -> f acc x = g acc x) ->
  forall acc, for_fold f acc l = for_fold g acc l.
Proof.
  induction l as [|x l IH]; intros H acc; [done |].
  cbn. rewrite H by apply list_elem_of_here.
  destruct (g acc x); [| done]. apply IH. intros ? ? ?.
  by apply H, list_elem_of_further.
Qed.

Lemma size_of_4 c h w : size_of [1; c; h; w]%nat = (c * (h * w))%nat.
Proof. cbn. lia. Qed.

(** [bias_gradient[0, channel, :, :]] is the [channel]-th piece of the
    data. *)
Lemma channel_slice_chunk (term : ndarray) c h w ch :
  shape term = [1; c; h; w]%nat -> length (data term) = (c * (h * w))%nat ->
  (ch < c)%nat ->
  channel_slice term ch
  = Ok {| shape := [h; w]; data := take (h * w) (drop (ch * (h * w)) (data term)) |}.
Proof.
  intros Es El Hch. unfold channel_slice, ndim, index0. rewrite Es.
  cbn [length]. rewrite decide_True by lia.
  destruct (decide (0 < 1)%nat); [| lia].
  cbn [mbind result_mbind result_bind shape data].
  rewrite decide_True by done. rewrite size_of_2.
  replace (size_of [c; h; w]) with (c * (h * w))%nat by (cbn; lia).
  rewrite Nat.mul_0_l, drop_0. by rewrite (take_ge (data term)) by lia.
Qed.

(** ** Python's [round] *)

Lemma round_half_even_floor q :
  (round_half_even q = Qfloor q \/ round_half_even q = Qfloor q + 1)%Z.
Proof.
  unfold round_half_even.
  destruct (Qlt_le_dec _ _); [by left |].
  destruct (Qlt_le_dec _ _); [by right |].
  destruct (Z.even _); auto.
Qed.

Lemma round_half_even_mono q1 q2 :
  q1 <= q2 -> (round_half_even q1 <= round_half_even q2)%Z.
Proof.
  intros Hq. pose proof (Qfloor_resp_le _ _ Hq) as Hf.
  destruct (Z.eq_dec (Qfloor q1) (Qfloor q2)) as [E | Hne].
  - unfold round_half_even. rewrite E.
    set (f := Qfloor q2) in *.
    destruct (Qlt_le_dec (q1 - _) _) as [A1 | A1].
    + destruct (Qlt_le_dec (q2 - _) _); [lia |].
      destruct (Qlt_le_dec _ (q2 - _)); [lia |]. destruct (Z.even f); lia.
    + destruct (Qlt_le_dec (q2 - _) _) as [A2 | A2]; [exfalso; lra |].
      destruct (Qlt_le_dec _ (q1 - _)) as [B1 | B1].
      * destruct (Qlt_le_dec _ (q2 - _)); [lia | exfalso; lra].
      * destruct (Qlt_le_dec _ (q2 - _)); [destruct (Z.even f); lia | lia].
  - destruct (round_half_even_floor q1), (round_half_even_floor q2); lia.
Qed.

Lemma round_half_even_Z n : round_half_even (inject_Z n) = n.
Proof.
  unfold round_half_even. rewrite Qfloor_Z.
  destruct (Qlt_le_dec _ _); [done | lra].
Qed.

Lemma round_half_even_proper q1 q2 :
  q1 == q2 -> round_half_even q1 = round_half_even q2.
Proof.
  intros E. apply Z.le_antisymm; apply round_half_even_mono; rewrite E;
    apply Qle_refl.
Qed.

(** *** The contribution of a layer *)

(** [normalize] on rationals is the min-max formula. *)
Lemma qmax_shift lo x y : qmax (x - lo) (y - lo) = qmax x y - lo.
Proof.
  unfold qmax. destruct (Qle_bool x y) eqn:E.
  - apply Qle_bool_iff in E.
    rewrite (proj2 (Qle_bool_iff (x - lo) (y - lo))) by lra. done.
  - destruct (Qle_bool (x - lo) (y - lo)) eqn:E'; [| done].
    apply Qle_bool_iff in E'.
    rewrite (proj2 (Qle_bool_iff x y)) in E by lra. done.
Qed.

Lemma foldl_qmax_shift lo r : forall x,
  foldl qmax (x - lo) ((fun q => q - lo) <$> r) = foldl qmax x r - lo.
Proof.
  induction r as [|y r IH]; intros x; [done |].
  cbn [foldl fmap list_fmap]. rewrite qmax_shift. apply IH.
Qed.

Lemma Qeq_bool_shift hi lo : Qeq_bool (hi - lo) 0 = Qeq_bool hi lo.
Proof.
  destruct (Qeq_bool hi lo) eqn:E.
  - apply Qeq_bool_iff in E. apply Qeq_bool_iff. lra.
  - destruct (Qeq_bool (hi - lo) 0) eqn:E'; [| done].
    apply Qeq_bool_iff in E'.
    rewrite (proj2 (Qeq_bool_iff hi lo)) in E by lra. done.
Qed.

Lemma normalize_unit_scale s d :
  normalize {| shape := s; data := Some <$> d |}
  = (t ← unit_scale d; Ok {| shape := s; data := t |}).
Proof.
  destruct d as [|x r]; [done |].
  unfold normalize. rewrite np_min_finite.
  cbn [mbind result_mbind result_bind]. unfold sub_scalar, map_data.
  cbn [shape data].
  set (lo := foldl qmin x r).
  replace ((fun v => vsub v (Some lo)) <$> (Some <$> x :: r))
    with (Some <$> ((x - lo) :: ((fun q => q - lo) <$> r)))
    by (cbn; f_equal; rewrite <- !list_fmap_compose; by apply list_fmap_ext).
  rewrite np_max_finite, foldl_qmax_shift.
  cbn [mbind result_mbind result_bind unit_scale]. fold lo.
  set (hi := foldl qmax x r). unfold div_scalar, map_data. cbn [shape data].
  do 2 f_equal.
  change (Some <$> x - lo :: ((fun q => q - lo) <$> r))
    with (Some <$> ((fun q => q - lo) <$> (x :: r))).
  rewrite <- !list_fmap_compose. apply list_fmap_ext. intros i q _.
  cbn. by rewrite Qeq_bool_shift.
Qed.

Lemma unit_scale_length d t : unit_scale d = Ok t -> length t = length d /\ d <> [].
Proof.
  destruct d as [|x r]; [done |]. unfold unit_scale. intros [= <-].
  split; [| done]. cbn [length]. f_equal. apply length_fmap.
Qed.

(** A loop whose two bodies agree as long as an invariant holds. *)
Lemma for_fold_ext_inv {E A C} (I : C -> Prop)
    (f g : C -> A -> result E C) l :
  (forall acc x, x ∈ l -> I acc ->
     f acc x = g acc x /\ forall acc', f acc x = Ok acc' -> I acc') ->
  forall acc, I acc -> for_fold f acc l = for_fold g acc l.
Proof.
  induction l as [|x l IH]; intros H acc Hacc; [done |].
  cbn. destruct (H acc x (list_elem_of_here _ _) Hacc) as [E1 Hnext].
  rewrite <- E1. destruct (f acc x) as [acc' |]; [| done].
  apply IH; [| by apply Hnext]. intros ? ? ?. by apply H, list_elem_of_further.
Qed.

Section Layer.

Variable zoom : ndarray -> Q -> np_result ndarray.
Variable resize : ndarray -> nat -> nat -> np_result ndarray.
Variable image_size : nat.

Hypothesis zoom_is_resize : zoom_resizes zoom resize.
Hypothesis resize_gives_shape : resize_shape resize.

(** The factor [image_size / n] takes [n] rows to [image_size] rows. *)
Lemma zoom_factor_rows n :
  n <> 0%nat ->
  Z.to_nat (round_half_even
    (inject_Z (Z.of_nat n)
     * (inject_Z (Z.of_nat image_size) / inject_Z (Z.of_nat n))))
  = image_size.
Proof.
  intros Hn.
  rewrite (round_half_even_proper _ (inject_Z (Z.of_nat image_size))).
  - rewrite round_half_even_Z. apply Nat2Z.id.
  - field. change 0 with (inject_Z 0). rewrite inject_Z_injective. lia.
Qed.


End Layer.

(** The stand-in is an interpolation onto the shape that the factor
    fixes. *)
Lemma zoom_linear_resizes : zoom_resizes zoom_linear resize_linear.
Proof. intros a h w factor Es. unfold zoom_linear. by rewrite Es. Qed.

Lemma length_bind_rows {A} (f : nat -> list A) k l :
  (forall o, length (f o) = k) -> length (l ≫= f) = (length l * k)%nat.
Proof.
  intros H. induction l as [|o l IH]; [done |].
  cbn. rewrite length_app, IH, H. lia.
Qed.

Lemma resize_linear_shape : resize_shape resize_linear.
Proof.
  intros a rows columns r. unfold resize_linear.
  destruct (shape a) as [|h [|w [|? ?]]]; try done.
  destruct (decide _); [done |]. intros [= <-]. split; [done |].
  unfold well_formed. cbn [shape data].
  rewrite (length_bind_rows _ columns).
  - rewrite length_seq. cbn. lia.
  - intros o. by rewrite length_fmap, length_seq.
Qed.


Example layer_update_wide_feature_map :
  layer_update zoom_linear 2 (arr [2; 2]%nat [0; 0; 0; 0])
    (arr [1; 1; 1; 2]%nat [3; -1]) (arr [1%nat] [1]) (arr [1%nat] [2])
  = Raised ValueError.
Proof. by vm_compute. Qed.


(** ** Rounding to the nearest double *)

Section Rounding.

Import Binary64.

Lemma pow2_spec k : pow2 k = (2 ^ k)%Z.
Proof. apply Z.shiftl_1_l. Qed.

Lemma pow2_pos k : (0 <= k)%Z -> (0 < pow2 k)%Z.
Proof. intros. rewrite pow2_spec. by apply Z.pow_pos_nonneg. Qed.

Lemma pow2_le a b : (0 <= a <= b)%Z -> (pow2 a <= pow2 b)%Z.
Proof. intros. rewrite !pow2_spec. apply Z.pow_le_mono_r; lia. Qed.

Lemma pow2_add a b :
  (0 <= a)%Z -> (0 <= b)%Z -> pow2 (a + b) = (pow2 a * pow2 b)%Z.
Proof. intros. rewrite !pow2_spec. by apply Z.pow_add_r. Qed.

Lemma ulp_exponent_nonneg x : (0 <= ulp_exponent x)%Z.
Proof. unfold ulp_exponent. lia. Qed.

Lemma ulp_exponent_mono x y : x <= y -> (ulp_exponent x <= ulp_exponent y)%Z.
Proof.
  intros H. unfold ulp_exponent.
  pose proof (Z.log2_le_mono _ _ (Qfloor_resp_le _ _ H)). lia.
Qed.

Lemma inject_Z_le a b : (a <= b)%Z -> inject_Z a <= inject_Z b.
Proof. by rewrite <- Zle_Qle. Qed.

(** A number of exponent [k] lies below [2 ** (k + 53)], and at or above
    [2 ** (k + 52)] unless [k] is 0. *)
Lemma ulp_exponent_upper x :
  0 <= x -> x < inject_Z (pow2 (ulp_exponent x + 53)).
Proof.
  intros Hx. pose proof (Qlt_floor x) as Hlt.
  eapply Qlt_le_trans; [exact Hlt |]. apply inject_Z_le.
  assert (0 <= Qfloor x)%Z as Hf.
  { change 0%Z with (Qfloor 0). by apply Qfloor_resp_le. }
  pose proof (ulp_exponent_nonneg x) as Hk.
  rewrite pow2_spec. unfold ulp_exponent in *.
  destruct (Z.eq_dec (Qfloor x) 0%Z) as [E0 | Hne].
  - rewrite E0. change (0 + 1)%Z with (2 ^ 0)%Z. apply Z.pow_le_mono_r; lia.
  - destruct (Z.log2_spec (Qfloor x)) as [_ Hup]; [lia |].
    transitivity (2 ^ Z.succ (Z.log2 (Qfloor x)))%Z; [lia |].
    apply Z.pow_le_mono_r; lia.
Qed.

Lemma ulp_exponent_lower x :
  (0 < ulp_exponent x)%Z -> inject_Z (pow2 (ulp_exponent x + 52)) <= x.
Proof.
  intros Hk. eapply Qle_trans; [| apply Qfloor_le]. apply inject_Z_le.
  rewrite pow2_spec. unfold ulp_exponent in *.
  assert (0 < Qfloor x)%Z as Hf.
  { destruct (Z.lt_trichotomy (Qfloor x) 0%Z) as [H | [H | H]]; [| | done].
    - rewrite Z.log2_nonpos in Hk by lia. lia.
    - rewrite H in Hk. cbn in Hk. lia. }
  destruct (Z.log2_spec (Qfloor x) Hf) as [Hlo _].
  replace (Z.max 0 (Z.log2 (Qfloor x) - 52) + 52)%Z with (Z.log2 (Qfloor x)) by lia.
  done.
Qed.

Lemma scaled_le x y k :
  (0 <= k)%Z -> x <= y -> x / inject_Z (pow2 k) <= y / inject_Z (pow2 k).
Proof.
  intros Hk H. pose proof (pow2_pos k Hk) as Hp.
  assert (0 < inject_Z (pow2 k)) as Hq by (by rewrite <- (Zlt_Qlt 0)).
  apply Qmult_le_compat_r; [done |]. apply Qlt_le_weak, Qinv_lt_0_compat. done.
Qed.

Lemma round_units_pos_upper x :
  0 <= x -> (round_units_pos x <= pow2 (ulp_exponent x + 53))%Z.
Proof.
  intros Hx. unfold round_units_pos. cbv zeta.
  pose proof (ulp_exponent_nonneg x) as Hk.
  pose proof (pow2_pos _ Hk) as Hp.
  rewrite Z.add_comm, pow2_add by lia.
  apply Z.mul_le_mono_nonneg_r; [lia |].
  rewrite <- (round_half_even_Z (pow2 53)). apply round_half_even_mono.
  assert (0 < inject_Z (pow2 (ulp_exponent x))) as Hq by (by rewrite <- (Zlt_Qlt 0)).
  apply Qle_shift_div_r; [done |]. rewrite <- inject_Z_mult, <- pow2_add by lia.
  rewrite Z.add_comm. apply Qlt_le_weak, ulp_exponent_upper. done.
Qed.

Lemma round_units_pos_lower x :
  (0 < ulp_exponent x)%Z ->
  (pow2 (ulp_exponent x + 52) <= round_units_pos x)%Z.
Proof.
  intros Hk. unfold round_units_pos. cbv zeta.
  pose proof (pow2_pos (ulp_exponent x)) as Hp.
  rewrite Z.add_comm, pow2_add by lia.
  apply Z.mul_le_mono_nonneg_r; [lia |].
  rewrite <- (round_half_even_Z (pow2 52)) at 1. apply round_half_even_mono.
  assert (0 < inject_Z (pow2 (ulp_exponent x))) as Hq
    by (rewrite <- (Zlt_Qlt 0); apply Hp; lia).
  apply Qle_shift_div_l; [done |]. rewrite <- inject_Z_mult, <- pow2_add by lia.
  rewrite Z.add_comm. by apply ulp_exponent_lower.
Qed.

Lemma round_units_pos_nonneg x : 0 <= x -> (0 <= round_units_pos x)%Z.
Proof.
  intros Hx. unfold round_units_pos. cbv zeta.
  pose proof (ulp_exponent_nonneg x) as Hk.
  pose proof (pow2_pos _ Hk) as Hp.
  apply Z.mul_nonneg_nonneg; [| lia].
  rewrite <- (round_half_even_Z 0). apply round_half_even_mono.
  assert (0 < inject_Z (pow2 (ulp_exponent x))) as Hq by (by rewrite <- (Zlt_Qlt 0)).
  change (inject_Z 0) with 0. apply Qle_shift_div_l; [done |]. lra.
Qed.

Lemma round_units_pos_mono x y :
  0 <= x -> x <= y -> (round_units_pos x <= round_units_pos y)%Z.
Proof.
  intros Hx Hxy. pose proof (ulp_exponent_mono _ _ Hxy) as Hk.
  pose proof (ulp_exponent_nonneg x) as Hkx.
  destruct (Z.eq_dec (ulp_exponent x) (ulp_exponent y)) as [E | Hne].
  - unfold round_units_pos. cbv zeta. rewrite <- E.
    apply Z.mul_le_mono_nonneg_r; [pose proof (pow2_pos _ Hkx); lia |].
    apply round_half_even_mono. by apply scaled_le.
  - etrans; [by apply round_units_pos_upper |].
    etrans; [| apply round_units_pos_lower; lia].
    apply pow2_le. lia.
Qed.

Lemma round_units_mono x y : x <= y -> (round_units x <= round_units y)%Z.
Proof.
  intros Hxy. unfold round_units.
  destruct (Qle_bool 0 x) eqn:Ex, (Qle_bool 0 y) eqn:Ey.
  - apply Qle_bool_iff in Ex. by apply round_units_pos_mono.
  - apply Qle_bool_iff in Ex.
    assert (~ 0 <= y) by (rewrite <- Qle_bool_iff; congruence). exfalso. lra.
  - apply Qle_bool_iff in Ey.
    assert (~ 0 <= x) as Hx by (rewrite <- Qle_bool_iff; congruence).
    assert (0 <= - x) as Hx' by lra.
    pose proof (round_units_pos_nonneg (- x) Hx').
    pose proof (round_units_pos_nonneg y Ey). lia.
  - assert (~ 0 <= x) by (rewrite <- Qle_bool_iff; congruence).
    assert (~ 0 <= y) by (rewrite <- Qle_bool_iff; congruence).
    assert (0 <= - y) as Hy' by lra. assert (- y <= - x) as Hyx by lra.
    pose proof (round_units_pos_mono (- y) (- x) Hy' Hyx). lia.
Qed.

End Rounding.

(** ** Doubles *)

Section Doubles.

Import Binary64.

Local Abbreviation G := (inject_Z (pow2 1074)).

Lemma grid_pos : 0 < G.
Proof. rewrite <- (Zlt_Qlt 0). by apply pow2_pos. Qed.

Lemma to_units_le q1 q2 : q1 <= q2 -> q1 * G <= q2 * G.
Proof. intros. apply Qmult_le_compat_r; [done |]. apply Qlt_le_weak, grid_pos. Qed.

Lemma round_units_proper x y : x == y -> round_units x = round_units y.
Proof.
  intros E. apply Z.le_antisymm; apply round_units_mono; rewrite E; apply Qle_refl.
Qed.

Lemma double_proper q1 q2 : q1 == q2 -> double q1 = double q2.
Proof.
  intros E. unfold double.
  by rewrite (round_units_proper (q1 * G) (q2 * G)) by (by rewrite E).
Qed.

Lemma double_0 : double 0 = Num 0.
Proof. by vm_compute. Qed.

Lemma double_1 : double 1 = Num 1.
Proof. by vm_compute. Qed.

(** Rounding keeps the order. *)
Lemma double_mono q1 q2 : q1 <= q2 -> fle (double q1) (double q2) = true.
Proof.
  intros Hq. unfold double.
  pose proof (round_units_mono _ _ (to_units_le _ _ Hq)) as Hn.
  set (n1 := round_units (q1 * G)) in *. set (n2 := round_units (q2 * G)) in *.
  assert (0 < pow2 2098)%Z as Hp by (by apply pow2_pos).
  destruct (pow2 2098 <=? Z.abs n1)%Z eqn:O1, (pow2 2098 <=? Z.abs n2)%Z eqn:O2.
  - apply Z.leb_le in O1, O2. destruct (n1 <? 0)%Z eqn:S1; [done |].
    apply Z.ltb_ge in S1. rewrite (proj2 (Z.ltb_ge n2 0)) by lia. done.
  - apply Z.leb_le in O1. apply Z.leb_gt in O2.
    destruct (n1 <? 0)%Z eqn:S1; [done |]. apply Z.ltb_ge in S1. lia.
  - apply Z.leb_gt in O1. apply Z.leb_le in O2.
    destruct (n2 <? 0)%Z eqn:S2; [| done]. apply Z.ltb_lt in S2. lia.
  - cbn. apply Qle_bool_iff. rewrite !Qred_correct.
    apply Qmult_le_compat_r; [by apply inject_Z_le |].
    apply Qlt_le_weak, Qinv_lt_0_compat, grid_pos.
Qed.

(** What lies between two doubles is rounded to a double between them. *)
Lemma double_between a b q a' b' :
  a <= q <= b -> double a = Num a' -> double b = Num b' ->
  exists v, double q = Num v /\ a' <= v <= b'.
Proof.
  intros [Ha Hb] Ea Eb.
  pose proof (double_mono _ _ Ha) as H1. pose proof (double_mono _ _ Hb) as H2.
  rewrite Ea in H1. rewrite Eb in H2.
  destruct (double q) as [| [] | v]; try done.
  exists v. split; [done |]. cbn in H1, H2.
  apply Qle_bool_iff in H1, H2. done.
Qed.

(** A double is a whole number of units. *)
Lemma is_double_units q :
  is_double (Num q) = true -> exists n, q * G == inject_Z n.
Proof.
  unfold is_double, double.
  set (n := round_units (q * G)).
  destruct (pow2 2098 <=? Z.abs n)%Z; [done |].
  intros E. apply Qeq_bool_eq in E. rewrite Qred_correct in E.
  exists n. rewrite <- E. field. pose proof grid_pos. lra.
Qed.

Lemma round_units_1 : round_units 1 = 1%Z.
Proof. by vm_compute. Qed.

(** The difference of two doubles is not rounded to zero. *)
Lemma double_difference_pos x y d :
  is_double (Num x) = true -> is_double (Num y) = true -> y < x ->
  double (x + - y) = Num d -> 0 < d.
Proof.
  intros Hx Hy Hlt. apply is_double_units in Hx as [nx Ex].
  apply is_double_units in Hy as [ny Ey].
  assert (ny < nx)%Z as Hn.
  { rewrite Zlt_Qlt, <- Ex, <- Ey.
    apply Qmult_lt_compat_r; [apply grid_pos | done]. }
  assert (1 <= (x + - y) * G) as H1.
  { assert ((x + - y) * G == inject_Z (nx - ny)) as E.
    { unfold Zminus. rewrite inject_Z_plus, inject_Z_opp, <- Ex, <- Ey. ring. }
    rewrite E. change 1 with (inject_Z 1). apply inject_Z_le. lia. }
  pose proof (round_units_mono _ _ H1) as Hr. rewrite round_units_1 in Hr.
  unfold double. set (n := round_units ((x + - y) * G)) in *.
  destruct (pow2 2098 <=? Z.abs n)%Z; [done |]. intros [= <-].
  rewrite Qred_correct. apply Qlt_shift_div_l; [apply grid_pos |].
  rewrite Qmult_0_l. change 0 with (inject_Z 0). rewrite <- Zlt_Qlt. lia.
Qed.

Lemma fmin_Num a b : fmin (Num a) (Num b) = Num (qmin a b).
Proof. unfold fmin, fle, qmin. by destruct (Qle_bool a b). Qed.

Lemma fmax_Num a b : fmax (Num a) (Num b) = Num (qmax a b).
Proof. unfold fmax, fle, qmax. by destruct (Qle_bool a b). Qed.

Lemma foldl_fmin_Num x r :
  foldl fmin (Num x) (Num <$> r) = Num (foldl qmin x r).
Proof.
  revert x. induction r as [|y r IH]; intros x; [done |].
  cbn [foldl fmap list_fmap]. rewrite fmin_Num. apply IH.
Qed.

Lemma foldl_fmax_Num x r :
  foldl fmax (Num x) (Num <$> r) = Num (foldl qmax x r).
Proof.
  revert x. induction r as [|y r IH]; intros x; [done |].
  cbn [foldl fmap list_fmap]. rewrite fmax_Num. apply IH.
Qed.

End Doubles.

(** ** [normalize] on doubles *)

Section NormalizeDoubles.

Import Binary64.

Lemma finite_doubles a :
  finite a ->
  exists qs, data a = Num <$> qs /\
             Forall (fun q => is_double (Num q) = true) qs.
Proof.
  unfold finite. induction (data a) as [|v l IH]; intros H.
  - by exists [].
  - inversion H as [|? ? [Hf Hd] Hl]; subst. destruct (IH Hl) as (qs & -> & Hqs).
    destruct v as [| |q]; try done. exists (q :: qs). split; [done |].
    by constructor.
Qed.

Lemma np_min_doubles s x r :
  np_min {| shape := s; data := Num <$> (x :: r) |} = Ok (Num (foldl qmin x r)).
Proof. unfold np_min. cbn [data fmap list_fmap]. by rewrite foldl_fmin_Num. Qed.

Lemma np_max_doubles s x r :
  np_max {| shape := s; data := Num <$> (x :: r) |} = Ok (Num (foldl qmax x r)).
Proof. unfold np_max. cbn [data fmap list_fmap]. by rewrite foldl_fmax_Num. Qed.

Lemma fmap_Num_ext (f : float -> float) (g : Q -> Q) (l : list Q) :
  (forall q, q ∈ l -> f (Num q) = Num (g q)) ->
  f <$> (Num <$> l) = Num <$> (g <$> l).
Proof.
  intros H. rewrite <- !list_fmap_compose. apply list_fmap_ext.
  intros i q Hq. cbn. apply H. by eapply list_elem_of_lookup_2.
Qed.

(** [normalize] on a tensor of doubles whose entries are not all equal and
    for which [tensor - np.min(tensor)] stays finite. *)
Lemma normalize_doubles (T : ndarray) :
  finite T -> non_constant T -> range_finite T ->
  exists R lo hi,
    normalize T = Ok R /\ shape R = shape T /\
    Forall in_unit_interval (data R) /\
    np_min R = Ok (Num lo) /\ lo == 0 /\
    np_max R = Ok (Num hi) /\ hi == 1.
Proof.
  intros Hfin (a & b & Ha & Hb & Hab) (lo' & Elo & Hrange).
  destruct T as [s d]. destruct (finite_doubles _ Hfin) as (qs & E & Hdbl).
  cbn [data] in *. subst d.
  apply list_elem_of_fmap in Ha as (a' & [= <-] & Ha).
  apply list_elem_of_fmap in Hb as (b' & [= <-] & Hb).
  destruct qs as [|x r]; [by apply elem_of_nil in Ha |].
  rewrite np_min_doubles in Elo. injection Elo as <-.
  destruct (foldl_qmin_spec r x) as [Hlo Hle].
  set (lo := foldl qmin x r) in *.
  rewrite Forall_forall in Hdbl.
  (* the shifted entries *)
  set (sh := fun q => value_of (fsub (Num q) (Num lo))).
  assert (forall q, q ∈ x :: r -> fsub (Num q) (Num lo) = Num (sh q)) as Esh.
  { intros q Hq. rewrite Forall_forall in Hrange.
    specialize (Hrange (Num q)). unfold sh.
    destruct (fsub (Num q) (Num lo)); try done;
      exfalso; by (discriminate Hrange; apply list_elem_of_fmap; eauto). }
  assert (forall q, q ∈ x :: r -> double (q + - lo) = Num (sh q)) as Esh'
    by exact Esh.
  assert (forall q, q ∈ x :: r -> 0 <= sh q) as Hsh0.
  { intros q Hq. specialize (Hle q Hq).
    assert (0 <= q + - lo) as H0 by lra.
    pose proof (double_mono _ _ H0) as Hm.
    rewrite double_0, (Esh' q Hq) in Hm. by apply Qle_bool_iff in Hm. }
  assert (sh lo = 0) as Hshlo.
  { pose proof (Esh' lo Hlo) as H0.
    rewrite (double_proper (lo + - lo) 0), double_0 in H0 by ring.
    by injection H0. }
  assert (forall q, q ∈ x :: r -> lo < q -> 0 < sh q) as Hshpos.
  { intros q Hq Hlt.
    apply (double_difference_pos q lo); auto. }
  assert (forall q1 q2, q1 ∈ x :: r -> q2 ∈ x :: r -> q1 <= q2 -> sh q1 <= sh q2)
    as Hshmono.
  { intros q1 q2 H1 H2 H12.
    assert (q1 + - lo <= q2 + - lo) as H0 by lra.
    pose proof (double_mono _ _ H0) as Hm.
    rewrite (Esh' q1 H1), (Esh' q2 H2) in Hm. by apply Qle_bool_iff in Hm. }
  (* the largest of them *)
  destruct (foldl_qmax_spec (sh <$> r) (sh x)) as [Hhi Hge].
  set (hi := foldl qmax (sh x) (sh <$> r)) in *.
  change (sh x :: (sh <$> r)) with (sh <$> (x :: r)) in Hhi, Hge.
  apply list_elem_of_fmap in Hhi as (qhi & Ehi & Hqhi).
  assert (0 < hi) as Hpos.
  { assert (exists q, q ∈ x :: r /\ lo < q) as (q & Hq & Hlt).
    { pose proof (Hle a Ha). pose proof (Hle b Hb).
      destruct (Qlt_le_dec lo a) as [|Hla]; [by eauto |].
      destruct (Qlt_le_dec lo b) as [|Hlb]; [by eauto |].
      exfalso. apply Hab. lra. }
    pose proof (Hshpos q Hq Hlt).
    assert (sh q <= hi) by (apply Hge, list_elem_of_fmap; eauto). lra. }
  assert (Qeq_bool hi 0 = false) as Ez.
  { destruct (Qeq_bool hi 0) eqn:Ez; [| done]. apply Qeq_bool_eq in Ez. lra. }
  (* the quotients *)
  set (g := fun q => value_of (fdiv (Num (sh q)) (Num hi))).
  assert (forall q, q ∈ x :: r ->
            fdiv (Num (sh q)) (Num hi) = Num (g q) /\ 0 <= g q <= 1) as Hg.
  { intros q Hq. unfold g. cbn [fdiv]. rewrite Ez.
    assert (0 <= sh q / hi <= 1) as Hb01.
    { apply unit_fraction; [| done]. split; [by apply Hsh0 |].
      apply Hge, list_elem_of_fmap. eauto. }
    destruct (double_between 0 1 _ 0 1 Hb01 double_0 double_1) as (v & -> & Hv).
    done. }
  assert (g lo = 0) as Hglo.
  { unfold g. rewrite Hshlo. cbn [fdiv]. rewrite Ez.
    by rewrite (double_proper (0 / hi) 0), double_0 by (field; lra). }
  assert (g qhi = 1) as Hghi.
  { unfold g. rewrite <- Ehi. cbn [fdiv]. rewrite Ez.
    by rewrite (double_proper (hi / hi) 1), double_1 by (field; lra). }
  exists {| shape := s; data := Num <$> (g <$> (x :: r)) |},
    (foldl qmin (g x) (g <$> r)), (foldl qmax (g x) (g <$> r)).
  split.
  { unfold normalize. rewrite np_min_doubles. fold lo.
    cbn [mbind result_mbind result_bind]. unfold sub_scalar, map_data.
    cbn [shape data].
    rewrite (fmap_Num_ext (fun e => fsub e (Num lo)) sh (x :: r)) by exact Esh.
    change (sh <$> x :: r) with (sh x :: (sh <$> r)).
    rewrite np_max_doubles. fold hi. cbn [mbind result_mbind result_bind].
    unfold div_scalar, map_data. cbn [shape data]. do 2 f_equal.
    change (sh x :: (sh <$> r)) with (sh <$> x :: r).
    rewrite <- (list_fmap_compose sh Num), <- (list_fmap_compose g Num),
      <- list_fmap_compose.
    apply list_fmap_ext. intros i q Hq. cbn.
    apply Hg. by eapply list_elem_of_lookup_2. }
  split; [done |]. split.
  { cbn [data]. apply Forall_forall. intros v Hv.
    apply list_elem_of_fmap in Hv as (q' & -> & Hv).
    apply list_elem_of_fmap in Hv as (q & -> & Hq). exists (g q).
    split; [done |]. by apply Hg. }
  destruct (foldl_qmin_spec (g <$> r) (g x)) as [Hmin Hminle].
  destruct (foldl_qmax_spec (g <$> r) (g x)) as [Hmax Hmaxge].
  change (g x :: (g <$> r)) with (g <$> (x :: r)) in Hmin, Hminle, Hmax, Hmaxge.
  split; [exact (np_min_doubles s (g x) (g <$> r)) |]. split.
  { apply list_elem_of_fmap in Hmin as (q & Eq & Hq). rewrite Eq.
    assert (foldl qmin (g x) (g <$> r) <= g lo) as Hle0
      by (apply Hminle, list_elem_of_fmap; eauto).
    rewrite Eq, Hglo in Hle0. destruct (Hg q Hq) as [_ ?]. lra. }
  split; [exact (np_max_doubles s (g x) (g <$> r)) |].
  apply list_elem_of_fmap in Hmax as (q & Eq & Hq). rewrite Eq.
  assert (g qhi <= foldl qmax (g x) (g <$> r)) as Hge1
    by (apply Hmaxge, list_elem_of_fmap; eauto).
  rewrite Eq, Hghi in Hge1. destruct (Hg q Hq) as [_ ?]. lra.
Qed.

End NormalizeDoubles.

(** C5 (as amended) -- on doubles, [normalize] of a tensor of finite
    numbers that are not all equal, and for which [tensor - np.min(tensor)]
    does not overflow, succeeds, keeps the shape, and yields entries that
    all lie in [0,1], with minimum 0 and maximum 1. *)
Theorem normalize_unit_range_without_overflow (T : Binary64.ndarray) :
  Binary64.finite T -> Binary64.non_constant T -> Binary64.range_finite T ->
  exists R lo hi,
    Binary64.normalize T = Ok R /\ Binary64.shape R = Binary64.shape T /\
    Forall Binary64.in_unit_interval (Binary64.data R) /\
    Binary64.np_min R = Ok (Binary64.Num lo) /\ lo == 0 /\
    Binary64.np_max R = Ok (Binary64.Num hi) /\ hi == 1.
Proof. apply normalize_doubles. Qed.

Section DoubleExamples.

Import Binary64.

Example normalize_huge_range :
  normalize huge_range = Ok {| shape := [3%nat]; data := [Num 0; Num 0; NaN] |}.
Proof. by vm_compute. Qed.

Example normalize_tenths :
  normalize tenths
  = Ok {| shape := [3%nat];
          data := [Num 0; Num (4503599627370497 # 9007199254740992); Num 1] |}.
Proof. by vm_compute. Qed.

Lemma finite_by_computation (a : ndarray) :
  forallb (fun x => is_finite x && is_double x) (data a) = true -> finite a.
Proof.
  unfold finite. intros H. apply Forall_forall. intros x Hx.
  rewrite forallb_forall in H. specialize (H x).
  apply andb_true_iff. apply H. by apply list_elem_of_In.
Qed.

Lemma range_finite_by_computation (a : ndarray) lo :
  np_min a = Ok lo ->
  forallb (fun x => is_finite (fsub x lo)) (data a) = true -> range_finite a.
Proof.
  intros E H. exists lo. split; [done |]. apply Forall_forall. intros x Hx.
  rewrite forallb_forall in H. apply H. by apply list_elem_of_In.
Qed.

Lemma finite_huge_range : finite huge_range.
Proof. apply finite_by_computation. by vm_compute. Qed.

Lemma non_constant_huge_range : non_constant huge_range.
Proof.
  exists 0, (inject_Z (2 ^ 1023)). split; [| split].
  - apply (list_elem_of_lookup_2 _ 1). by vm_compute.
  - apply (list_elem_of_lookup_2 _ 2). by vm_compute.
  - by vm_compute.
Qed.

End DoubleExamples.

(** C5 (the wording of the specification) -- on the three doubles
    [- 2 ** 1023, 0, 2 ** 1023], which are finite and not all equal, the
    subtraction of the minimum overflows and [normalize] returns
    [0, 0, nan]: not every non-constant tensor is normalised into
    [0,1]. *)
Lemma normalize_overflows :
  ~ (forall T : Binary64.ndarray,
       Binary64.finite T -> Binary64.non_constant T ->
       exists R, Binary64.normalize T = Ok R /\
                 Forall Binary64.in_unit_interval (Binary64.data R)).
Proof.
  intros H.
  destruct (H huge_range finite_huge_range non_constant_huge_range)
    as (R & E & HR).
  rewrite normalize_huge_range in E. injection E as <-.
  cbn [Binary64.data] in HR. rewrite !Forall_cons in HR.
  destruct HR as (_ & _ & (q & Hq & _) & _). discriminate Hq.
Qed.

Lemma normalize_unit_range_without_overflow_witness :
  Binary64.finite tenths /\ Binary64.non_constant tenths /\
  Binary64.range_finite tenths /\
  exists R lo hi,
    Binary64.normalize tenths = Ok R /\
    Binary64.shape R = Binary64.shape tenths /\
    Forall Binary64.in_unit_interval (Binary64.data R) /\
    Binary64.np_min R = Ok (Binary64.Num lo) /\ lo == 0 /\
    Binary64.np_max R = Ok (Binary64.Num hi) /\ hi == 1.
Proof.
  assert (Binary64.finite tenths) as Hf
    by (apply finite_by_computation; by vm_compute).
  assert (Binary64.non_constant tenths) as Hn.
  { exists (3602879701896397 # 36028797018963968),
      (3602879701896397 # 18014398509481984). split; [| split].
    - apply (list_elem_of_lookup_2 _ 0). by vm_compute.
    - apply (list_elem_of_lookup_2 _ 1). by vm_compute.
    - by vm_compute. }
  assert (Binary64.range_finite tenths) as Hr.
  { apply (range_finite_by_computation _
             (Binary64.Num (3602879701896397 # 36028797018963968)));
      by vm_compute. }
  split; [exact Hf |]. split; [exact Hn |]. split; [exact Hr |].
  exact (normalize_unit_range_without_overflow tenths Hf Hn Hr).
Defined.

Section AccumulatorDoubles.

Variable zoom : Binary64.ndarray -> Binary64.float -> np_result Binary64.ndarray.
Variable image_size : nat.

(** C2 (as amended) -- on doubles, whenever the map accumulated for the
    layers in their order is finite, not constant and has a range that
    does not overflow, the final output of the accumulator lies in [0,1]
    entry by entry, with minimum 0 and maximum 1. *)
Theorem full_gradient_unit_range_in_its_order image image_gradient layers m :
  Binary64.accumulated_map zoom image_size image image_gradient layers = Ok m ->
  Binary64.finite m -> Binary64.non_constant m -> Binary64.range_finite m ->
  exists r lo hi,
    Binary64.full_gradient zoom image_size image image_gradient layers = Ok r /\
    Binary64.shape r = Binary64.shape m /\
    Forall Binary64.in_unit_interval (Binary64.data r) /\
    Binary64.np_min r = Ok (Binary64.Num lo) /\ lo == 0 /\
    Binary64.np_max r = Ok (Binary64.Num hi) /\ hi == 1.
Proof.
  intros Em Hf Hn Hr. unfold Binary64.full_gradient. rewrite Em.
  cbn [mbind result_mbind result_bind]. by apply normalize_doubles.
Qed.

End AccumulatorDoubles.

Section AccumulatorExamples.

Import Binary64.

Example accumulated_tiny_first :
  accumulated_map zoom_by_one 2 ones_2x2 gradient_2x2 [layer_tiny; layer_top]
  = Ok {| shape := [2; 2]%nat;
          data := [Num 1; Num (4503599627370497 # 4503599627370496); Num 1; Num 1] |}.
Proof. by vm_compute. Qed.

Example accumulated_top_first :
  accumulated_map zoom_by_one 2 ones_2x2 gradient_2x2 [layer_top; layer_tiny]
  = Ok {| shape := [2; 2]%nat; data := [Num 1; Num 1; Num 1; Num 1] |}.
Proof. by vm_compute. Qed.

Example full_gradient_tiny_first :
  full_gradient zoom_by_one 2 ones_2x2 gradient_2x2 [layer_tiny; layer_top]
  = Ok {| shape := [2; 2]%nat; data := [Num 0; Num 1; Num 0; Num 0] |}.
Proof. by vm_compute. Qed.

Example full_gradient_top_first :
  full_gradient zoom_by_one 2 ones_2x2 gradient_2x2 [layer_top; layer_tiny]
  = Ok {| shape := [2; 2]%nat; data := [NaN; NaN; NaN; NaN] |}.
Proof. by vm_compute. Qed.

Lemma accumulated_tiny_first_fit :
  let m := {| shape := [2; 2]%nat;
              data := [Num 1; Num (4503599627370497 # 4503599627370496);
                       Num 1; Num 1] |} in
  finite m /\ non_constant m /\ range_finite m.
Proof.
  intros m. split; [| split].
  - apply finite_by_computation. by vm_compute.
  - exists 1, (4503599627370497 # 4503599627370496). split; [| split].
    + apply list_elem_of_here.
    + apply list_elem_of_further, list_elem_of_here.
    + by vm_compute.
  - apply (range_finite_by_computation _ (Num 1)); by vm_compute.
Qed.

End AccumulatorExamples.

(** C2 (the wording of the specification) -- the bound does not carry over
    to another order of the layers.  With the two layers [layer_tiny] and
    [layer_top] the map accumulated in one order is [1, 1 + 2 ** -52, 1, 1]
    and the output [0, 1, 0, 0]; in the other order [(2 ** -53 + 1) +
    2 ** -53] is rounded to 1, the map is constant and the output is nan
    everywhere. *)
Lemma full_gradient_depends_on_layer_order :
  ~ (forall zoom image_size image image_gradient layers layers' m,
       Binary64.accumulated_map zoom image_size image image_gradient layers
       = Ok m ->
       Binary64.finite m -> Binary64.non_constant m ->
       Binary64.range_finite m ->
       layers ≡ₚ layers' ->
       exists r',
         Binary64.full_gradient zoom image_size image image_gradient layers'
         = Ok r' /\
         Forall Binary64.in_unit_interval (Binary64.data r')).
Proof.
  intros H. destruct accumulated_tiny_first_fit as (Hf & Hn & Hr).
  destruct (H _ _ _ _ _ [layer_top; layer_tiny] _ accumulated_tiny_first
              Hf Hn Hr) as (r' & E & Hr').
  { apply Permutation_swap. }
  rewrite full_gradient_top_first in E. injection E as <-.
  cbn [Binary64.data] in Hr'. apply Forall_cons in Hr' as [(q & Hq & _) _].
  discriminate Hq.
Qed.

Lemma full_gradient_unit_range_in_its_order_witness :
  exists m,
    Binary64.accumulated_map Binary64.zoom_by_one 2 ones_2x2 gradient_2x2
      [layer_tiny; layer_top] = Ok m /\
    Binary64.finite m /\ Binary64.non_constant m /\ Binary64.range_finite m /\
    exists r lo hi,
      Binary64.full_gradient Binary64.zoom_by_one 2 ones_2x2 gradient_2x2
        [layer_tiny; layer_top] = Ok r /\
      Binary64.shape r = Binary64.shape m /\
      Forall Binary64.in_unit_interval (Binary64.data r) /\
      Binary64.np_min r = Ok (Binary64.Num lo) /\ lo == 0 /\
      Binary64.np_max r = Ok (Binary64.Num hi) /\ hi == 1.
Proof.
  eexists. split; [exact accumulated_tiny_first |].
  destruct accumulated_tiny_first_fit as (Hf & Hn & Hr).
  split; [exact Hf |]. split; [exact Hn |]. split; [exact Hr |].
  exact (full_gradient_unit_range_in_its_order _ _ _ _ _ _
           accumulated_tiny_first Hf Hn Hr).
Defined.

(** ** Triples *)

Section Triples.

Context {TS : Type}.
Implicit Types (w : world (TS:=TS)) (e : exn).
Implicit Types (P : world (TS:=TS) -> Prop) (X : exn -> world (TS:=TS) -> Prop).

Lemma hoare_bind {A B} P (m : M A) (f : A -> M B) R Q X :
  hoare P m R X -> (forall a, hoare (R a) (f a) Q X) -> hoare P (m ≫= f) Q X.
Proof.
  intros Hm Hf w Hw. specialize (Hm w Hw).
  unfold mbind, M_mbind, M_bind. destruct (m w) as [[a | e] w1]; [| done].
  by apply Hf.
Qed.

Lemma hoare_ret {A} P (a : A) (Q : A -> world -> Prop) X :
  (forall w, P w -> Q a w) -> hoare P (mret a) Q X.
Proof. intros H w Hw. by apply H. Qed.

Lemma hoare_conseq {A} P P' (m : M A) (Q Q' : A -> world -> Prop) X X' :
  hoare P m Q X -> (forall w, P' w -> P w) ->
  (forall a w, Q a w -> Q' a w) -> (forall e w, X e w -> X' e w) ->
  hoare P' m Q' X'.
Proof.
  intros H HP HQ HX w Hw. specialize (H w (HP w Hw)).
  destruct (m w) as [[a | e] w1]; auto.
Qed.

Lemma hoare_np {A} P (r : np_result A) (Q : A -> world -> Prop) X :
  (forall w a, P w -> r = Ok a -> Q a w) ->
  (forall w err, P w -> r = Raised err -> X (NumpyError err) w) ->
  hoare P (np r) Q X.
Proof. intros HQ HX w Hw. unfold np. destruct r; auto. Qed.

Lemma hoare_emit P (ev : event) (Q : unit -> world -> Prop) X :
  (forall w, P w ->
     Q tt {| trial_state := trial_state w; output := output w ++ [ev] |}) ->
  hoare P (emit ev) Q X.
Proof. intros H w Hw. by apply H. Qed.

Lemma hoare_plot P saliency_map image c p (Q : unit -> world -> Prop) X :
  (forall w, P w ->
     Q tt {| trial_state := trial_state w;
             output := output w ++ [Plotted saliency_map image c p] |}) ->
  (forall err w, P w -> X (NumpyError err) w) ->
  hoare P (plot saliency_map image c p) Q X.
Proof.
  intros HQ HX w Hw. unfold plot, mbind, M_mbind, M_bind, np.
  destruct (plot_arrays saliency_map image); [by apply HQ | by apply HX].
Qed.

Lemma hoare_value (trial : Trial TS) P name step
    (Q : ndarray -> world -> Prop) X :
  (forall w, P w ->
     match trial_value trial name step (trial_state w) with
     | (Ok a, s) => Q a {| trial_state := s; output := output w |}
     | (Raised e, s) => X e {| trial_state := s; output := output w |}
     end) ->
  hoare P (value trial name step) Q X.
Proof.
  intros H w Hw. specialize (H w Hw). unfold value.
  by destruct (trial_value trial name step (trial_state w)) as [[a | e] s].
Qed.

(** A loop whose invariant depends on the part of the list that has
    been gone through. *)
Lemma hoare_for_fold {A B} (I : list A -> world -> Prop)
    (body : B -> A -> M B) X (l : list A) :
  (forall acc pre x post, l = pre ++ x :: post ->
     hoare (I pre) (body acc x) (fun _ => I (pre ++ [x])) X) ->
  forall acc, hoare (I []) (for_fold body acc l) (fun _ => I l) X.
Proof.
  intros Hbody.
  assert (forall post pre acc, l = pre ++ post ->
            hoare (I pre) (for_fold body acc post) (fun _ => I l) X) as H.
  { induction post as [|x post IH]; intros pre acc E.
    - rewrite app_nil_r in E. subst. by apply hoare_ret.
    - cbn [for_fold]. eapply hoare_bind; [by apply (Hbody acc pre x post) |].
      intros acc'. apply IH. by rewrite <- app_assoc. }
  intros acc. by apply (H l []).
Qed.

(** The same with one invariant. *)
Lemma hoare_for_fold_inv {A B} (I : world -> Prop)
    (body : B -> A -> M B) X (l : list A) :
  (forall acc x, x ∈ l -> hoare I (body acc x) (fun _ => I) X) ->
  forall acc, hoare I (for_fold body acc l) (fun _ => I) X.
Proof.
  intros Hbody. apply (hoare_for_fold (fun _ => I)).
  intros acc pre x post ->. apply Hbody.
  apply elem_of_app. right. apply list_elem_of_here.
Qed.

End Triples.

(** ** Rendering one step *)

Section Rendering.

Variables sqrtQ expQ : Q -> Q.
Variable zoom : ndarray -> Q -> np_result ndarray.
Variable image_size : nat.
Context {TS : Type} (trial : Trial TS).
Variables bn_weights running_vars running_means gradients biases : list string.
Variable step : nat.

Implicit Types (w : world (TS:=TS)) (e : exn).

Local Abbreviation item :=
  (render_item expQ zoom image_size trial gradients biases step).
Local Abbreviation layer := (render_layer zoom image_size trial step).
Local Abbreviation body :=
  (render_step_body sqrtQ expQ zoom image_size trial bn_weights running_vars
     running_means gradients biases step).
Local Abbreviation TU := TensorUnavailableForStep.

Lemma hoare_np_inv {A} (P : world -> Prop) (r : np_result A) X :
  (forall err w, P w -> X (NumpyError err) w) ->
  hoare P (np r) (fun _ => P) X.
Proof. intros H. apply hoare_np; eauto. Qed.

(** *** Nothing is printed or plotted before the last tensor has been
    fetched *)

Ltac side :=
  unfold output_is, unchanged_if_unavailable, not_unavailable in *;
  intros; subst; auto; try done; try congruence.

Lemma value_quiet o name (X : exn -> world -> Prop) :
  (forall e w, output_is o w -> X e w) ->
  hoare (output_is o) (value trial name step) (fun _ => output_is o) X.
Proof.
  intros HX. apply hoare_value. intros w Hw.
  destruct (trial_value trial name step (trial_state w)) as [[a | e] s];
    [done | by apply HX].
Qed.

Lemma compute_implicit_biases_quiet o :
  hoare (output_is o)
    (compute_implicit_biases sqrtQ trial bn_weights running_vars
       running_means step)
    (fun _ => output_is o) (fun _ => output_is o).
Proof.
  unfold compute_implicit_biases. apply hoare_for_fold_inv.
  intros acc [[wn vn] mn] _.
  eapply hoare_bind; [apply value_quiet; side | intros weight].
  eapply hoare_bind; [apply value_quiet; side | intros running_var].
  eapply hoare_bind; [apply value_quiet; side | intros running_mean].
  eapply hoare_bind; [apply hoare_np_inv; side | intros b].
  apply hoare_ret; side.
Qed.

Lemma render_layer_quiet o it saliency_map l :
  hoare (output_is o) (layer it saliency_map l)
    (fun _ => output_is o) (unchanged_if_unavailable o).
Proof.
  destruct l as [[gradient_name bias_name] implicit_bias]. unfold render_layer.
  eapply hoare_bind; [apply value_quiet; side | intros t].
  eapply hoare_bind; [apply hoare_np_inv; side | intros gradient].
  eapply hoare_bind; [apply value_quiet; side | intros bias].
  apply hoare_np; side.
Qed.

(** Rendering an item that raises [TensorUnavailableForStep] has
    printed and plotted nothing. *)
Lemma render_item_quiet o image_batch implicit_biases it :
  hoare (output_is o) (item image_batch implicit_biases it)
    (fun _ _ => True) (unchanged_if_unavailable o).
Proof.
  unfold render_item.
  eapply hoare_bind; [apply hoare_np_inv; side | intros image].
  eapply hoare_bind; [apply value_quiet; side | intros t].
  eapply hoare_bind; [apply hoare_np_inv; side | intros image_gradient].
  eapply hoare_bind; [apply hoare_np_inv; side | intros saliency_map].
  eapply hoare_bind.
  { apply hoare_for_fold_inv. intros acc l _. apply render_layer_quiet. }
  intros saliency_map'.
  eapply hoare_bind; [apply hoare_np_inv; side | intros saliency_map''].
  eapply hoare_bind; [apply value_quiet; side | intros t'].
  eapply hoare_bind; [apply hoare_np_inv; side | intros predicted_class].
  eapply hoare_bind; [apply hoare_np_inv; side | intros c].
  eapply hoare_bind with (R := fun _ _ => True); [apply hoare_emit; side |].
  intros _. eapply hoare_bind with (R := fun _ _ => True).
  { apply hoare_np; side. }
  intros p. apply hoare_plot; side.
Qed.

(** *** Tensors that are there *)

Hypothesis stable : tensors_stay_available trial step.

Local Abbreviation all_available := (all_available trial step).

(** A tensor that is available is fetched, or another exception is
    raised; what was available stays so. *)
Lemma value_available names name :
  names name ->
  hoare (all_available names) (value trial name step)
    (fun _ => all_available names) not_unavailable.
Proof.
  intros Hn. apply hoare_value. intros w Hw.
  pose proof (Hw name Hn) as Ha. unfold available in Ha.
  assert (all_available names
            {| trial_state := (trial_value trial name step (trial_state w)).2;
               output := output w |}) as Hs.
  { intros n' Hn'. cbn. by apply stable, Hw. }
  destruct (trial_value trial name step (trial_state w)) as [[a | e] s];
    cbn in *; [done |]. intros ->. by apply Ha.
Qed.

(** After a tensor has been fetched it is available. *)
Lemma value_fetched names name (X : exn -> world -> Prop) :
  (forall e w, X e w) ->
  hoare (all_available names) (value trial name step)
    (fun _ => all_available (fun n => names n \/ n = name)) X.
Proof.
  intros HX. apply hoare_value. intros w Hw.
  destruct (trial_value trial name step (trial_state w)) as [[a | e] s] eqn:E;
    [| done].
  intros n [Hn | ->]; cbn.
  - replace s with (trial_value trial name step (trial_state w)).2
      by (by rewrite E).
    by apply stable, Hw.
  - replace s with (trial_value trial name step (trial_state w)).2
      by (by rewrite E).
    apply stable. unfold available. by rewrite E.
Qed.

Lemma emit_available names (ev : event) (X : exn -> world -> Prop) :
  hoare (all_available names) (emit ev) (fun _ => all_available names) X.
Proof. apply hoare_emit. intros w Hw n Hn. by apply Hw. Qed.

Lemma plot_available names saliency_map image c p (X : exn -> world -> Prop) :
  (forall err w, X (NumpyError err) w) ->
  hoare (all_available names) (plot saliency_map image c p)
    (fun _ => all_available names) X.
Proof. intros HX. apply hoare_plot; [| done]. intros w Hw n Hn. by apply Hw. Qed.

Lemma all_available_weaken (names names' : string -> Prop) w :
  (forall n, names' n -> names n) ->
  all_available names w -> all_available names' w.
Proof. intros H Hw n Hn. by apply Hw, H. Qed.

Local Abbreviation fetched := (fetched_by_item gradients biases).

(** With all its tensors available an item does not raise
    [TensorUnavailableForStep]. *)
Lemma render_item_available image_batch implicit_biases it :
  hoare (all_available (fetched implicit_biases))
    (item image_batch implicit_biases it)
    (fun _ => all_available (fetched implicit_biases)) not_unavailable.
Proof.
  set (P := all_available (fetched implicit_biases)).
  assert (forall A (r : np_result A), hoare P (np r) (fun _ => P) not_unavailable)
    as Hnp by (intros; apply hoare_np_inv; side).
  unfold render_item.
  eapply hoare_bind; [apply Hnp | intros image].
  eapply hoare_bind; [apply value_available; by left | intros t].
  eapply hoare_bind; [apply Hnp | intros image_gradient].
  eapply hoare_bind; [apply Hnp | intros saliency_map].
  eapply hoare_bind.
  { apply hoare_for_fold_inv. intros acc [[g b] ib] Hl. unfold render_layer.
    eapply hoare_bind;
      [apply value_available; right; right; exists g, b, ib; eauto | intros t0].
    eapply hoare_bind; [apply Hnp | intros gradient].
    eapply hoare_bind;
      [apply value_available; right; right; exists g, b, ib; eauto | intros bias].
    apply Hnp. }
  intros saliency_map'.
  eapply hoare_bind; [apply Hnp | intros saliency_map''].
  eapply hoare_bind; [apply value_available; by right; left | intros t'].
  eapply hoare_bind; [apply Hnp | intros predicted_class].
  eapply hoare_bind; [apply Hnp | intros c].
  eapply hoare_bind; [apply emit_available | intros ?].
  eapply hoare_bind; [apply Hnp | intros p].
  apply plot_available. by intros.
Qed.

(** An item that has been rendered has fetched all its tensors. *)
Lemma render_item_fetched image_batch implicit_biases it :
  hoare (fun _ => True) (item image_batch implicit_biases it)
    (fun _ => all_available (fetched implicit_biases)) (fun _ _ => True).
Proof.
  set (layers := zip3 gradients biases implicit_biases).
  set (seen := fun (pre : list (string * string * ndarray)) (n : string) =>
                 n = "gradient/image" \/
                 exists g b ib, (g, b, ib) ∈ pre /\ (n = g \/ n = b)).
  assert (forall names A (r : np_result A),
            hoare (all_available names) (np r) (fun _ => all_available names)
                  (fun _ _ => True)) as Hnp by (intros; apply hoare_np_inv; side).
  unfold render_item.
  eapply hoare_bind with (R := fun _ => all_available (fun _ => False)).
  { apply hoare_np; [by intros ? ? _ _ ? ? | done]. }
  intros image.
  eapply hoare_bind; [by apply value_fetched | intros t].
  eapply hoare_bind; [apply Hnp | intros image_gradient].
  eapply hoare_bind with (R := fun _ => all_available (seen [])).
  { eapply hoare_conseq; [apply Hnp | | | done]; [done |].
    intros ? w Hw n [-> | (g & b & ib & Hin & _)]; [apply Hw; by right |].
    by apply elem_of_nil in Hin. }
  intros saliency_map.
  eapply hoare_bind.
  { apply (hoare_for_fold (fun pre => all_available (seen pre))).
    intros acc pre [[g b] ib] post _. unfold render_layer.
    eapply hoare_bind; [by apply value_fetched | intros t0].
    eapply hoare_bind; [apply Hnp | intros gradient].
    eapply hoare_bind; [by apply value_fetched | intros bias].
    eapply hoare_conseq; [apply Hnp | | | done]; [done |].
    intros ? w Hw n [-> | (g' & b' & ib' & Hin & Hn)].
    - apply Hw. left. left. by left.
    - apply elem_of_app in Hin as [Hin | Hin].
      + apply Hw. left. left. right. eauto 6.
      + apply list_elem_of_singleton in Hin as [= -> -> ->].
        destruct Hn as [-> | ->]; apply Hw; [left; by right | by right]. }
  intros saliency_map'.
  eapply hoare_bind; [apply Hnp | intros saliency_map''].
  eapply hoare_bind; [by apply value_fetched | intros t'].
  eapply hoare_bind with (R := fun _ => all_available (fetched implicit_biases)).
  { eapply hoare_conseq; [apply Hnp | | | done]; [done |].
    intros ? w Hw n [-> | [-> | (g & b & ib & Hin & Hn)]]; apply Hw.
    - left. by left.
    - by right.
    - left. right. eauto 6. }
  intros predicted_class.
  eapply hoare_bind; [apply Hnp | intros c].
  eapply hoare_bind; [apply emit_available | intros ?].
  eapply hoare_bind; [apply Hnp | intros p].
  apply plot_available. by intros.
Qed.

Local Abbreviation items image_batch implicit_biases :=
  (for_fold (fun _ it => item image_batch implicit_biases it) tt).
Local Abbreviation render := (render_step sqrtQ expQ zoom image_size trial
  bn_weights running_vars running_means gradients biases).

Lemma render_items_available image_batch implicit_biases l :
  hoare (all_available (fetched implicit_biases))
    (items image_batch implicit_biases l)
    (fun _ => all_available (fetched implicit_biases)) not_unavailable.
Proof.
  apply hoare_for_fold_inv. intros acc it _. apply render_item_available.
Qed.

Lemma for_fold_cons_ok {A B} (f : B -> A -> M B) acc x l w acc' w' :
  f acc x w = (Ok acc', w') ->
  for_fold f acc (x :: l) w = for_fold f acc' l w'.
Proof. intros E. cbn. unfold mbind, M_mbind, M_bind. by rewrite E. Qed.

Lemma for_fold_cons_raised {A B} (f : B -> A -> M B) acc x l w e w' :
  f acc x w = (Raised e, w') ->
  for_fold f acc (x :: l) w = (Raised e, w').
Proof. intros E. cbn. unfold mbind, M_mbind, M_bind. by rewrite E. Qed.

Lemma for_fold_app_ok {A B} (f : B -> A -> M B) l1 : forall acc l2 w acc' w',
  for_fold f acc l1 w = (Ok acc', w') ->
  for_fold f acc (l1 ++ l2) w = for_fold f acc' l2 w'.
Proof.
  induction l1 as [|x l1 IH]; intros acc l2 w acc' w' E.
  - by injection E as -> ->.
  - cbn in *. unfold mbind, M_mbind, M_bind in *.
    destruct (f acc x w) as [[a | e] w1]; [by apply IH | done].
Qed.

Lemma on_trial_bind {A B} (call : TS -> A * TS) (f : A -> M B) w :
  (on_trial call ≫= f) w
  = f (call (trial_state w)).1
      {| trial_state := (call (trial_state w)).2; output := output w |}.
Proof.
  unfold mbind, M_mbind, M_bind, on_trial.
  by destruct (call (trial_state w)).
Qed.

(** If the loop over the items of a batch raises
    [TensorUnavailableForStep], it does so in its first item, before
    anything has been printed or plotted. *)
Lemma render_items_quiet image_batch implicit_biases l w w' :
  items image_batch implicit_biases l w = (Raised TU, w') ->
  output w' = output w.
Proof.
  destruct l as [|it l]; [done |].
  pose proof (render_item_quiet (output w) image_batch implicit_biases it w eq_refl) as Hq.
  pose proof (render_item_fetched image_batch implicit_biases it w I) as Hf.
  destruct (item image_batch implicit_biases it w) as [[[] | e] w1] eqn:Ei.
  - rewrite (for_fold_cons_ok _ _ _ _ _ _ _ Ei). intros E.
    pose proof (render_items_available image_batch implicit_biases l w1 Hf) as Hn.
    rewrite E in Hn. by destruct Hn.
  - rewrite (for_fold_cons_raised _ _ _ _ _ _ _ Ei). intros [= -> ->]. by apply Hq.
Qed.

Lemma render_step_body_quiet o :
  hoare (output_is o) body (fun _ _ => True) (unchanged_if_unavailable o).
Proof.
  unfold render_step_body.
  eapply hoare_bind; [apply value_quiet; side | intros image_batch].
  eapply hoare_bind with (R := fun _ => output_is o).
  { eapply hoare_conseq; [apply (compute_implicit_biases_quiet o) | side ..]. }
  intros implicit_biases.
  eapply hoare_bind; [apply hoare_np_inv; side | intros n].
  intros w Hw.
  destruct (items image_batch implicit_biases (range n) w) as [[[] | e] w'] eqn:E;
    [done |].
  intros ->. rewrite (render_items_quiet _ _ _ _ _ E). exact Hw.
Qed.

End Rendering.

(** ** The waiting loop *)

Section Waiting.

Context {TS : Type} (trial : Trial TS).

(** Whatever the trial answers, the waiting loop makes one turn: after
    the first call [steps] is a list, and a list is not [== 0]. *)
Lemma waiting_loop_one_turn fuel (w : world) :
  waiting_loop trial (S fuel) (PyInt 0) w
  = Some (Ok (PyList (trial_steps trial GLOBAL (trial_state w)).1),
          {| trial_state := (trial_steps trial GLOBAL (trial_state w)).2;
             output := (output w ++ [Printed WaitingForTensors]) ++ [Slept 3] |}).
Proof.
  cbn [waiting_loop py_eq]. rewrite bool_decide_eq_true_2 by done.
  rewrite on_trial_bind. cbn. by destruct fuel.
Qed.

End Waiting.

(** C9 (the code against the specification) -- on a trial that has no step yet,
    the waiting loop asks once, gets the empty list and is left: the
    notebook goes on to the polling loop with no step available. *)
Theorem waiting_loop_exits_without_steps :
  waiting_cell (static_trial [] (fun _ _ => None)) 1
    {| trial_state := tt; output := [] |}
  = Some (Ok (PyList []),
          {| trial_state := tt;
             output := [Printed WaitingForTensors; Slept 3; Printed Done;
                        Printed GettingTensors] |}).
Proof. reflexivity. Qed.

(** ** The polling loop *)

Lemma steps_to_render_spec steps rendered_steps x :
  x ∈ steps_to_render steps rendered_steps <->
  (x ∈ steps /\ x ∉ rendered_steps) \/ (x ∈ rendered_steps /\ x ∉ steps).
Proof.
  unfold steps_to_render, symmetric_difference.
  rewrite elem_of_elements, elem_of_union, !elem_of_difference,
    !elem_of_list_to_set. done.
Qed.

Lemma sorted_elem l x : x ∈ sorted l <-> x ∈ l.
Proof. unfold sorted. by rewrite merge_sort_Permutation. Qed.

Section Polling.

Variables sqrtQ expQ : Q -> Q.
Variable zoom : ndarray -> Q -> np_result ndarray.
Variable image_size : nat.
Context {TS : Type} (trial : Trial TS).
Variables bn_weights running_vars running_means gradients biases : list string.

Implicit Types (w : world (TS:=TS)) (e : exn).

Local Abbreviation body :=
  (render_step_body sqrtQ expQ zoom image_size trial bn_weights running_vars
     running_means gradients biases).
Local Abbreviation iteration :=
  (poll_iteration sqrtQ expQ zoom image_size trial bn_weights running_vars
     running_means gradients biases).
Local Abbreviation reaches :=
  (iteration_reaches sqrtQ expQ zoom image_size trial bn_weights running_vars
     running_means gradients biases).
Local Abbreviation turn :=
  (turn sqrtQ expQ zoom image_size trial bn_weights running_vars
     running_means gradients biases).

(** A turn appends [steps_to_render] to [rendered_steps]. *)
Lemma poll_iteration_rendered rendered_steps w flag rendered_steps' w' :
  iteration rendered_steps w = (Ok (flag, rendered_steps'), w') ->
  rendered_steps'
  = rendered_steps ++ steps_to_render (listed_steps trial w) rendered_steps.
Proof.
  unfold poll_iteration, listed_steps. rewrite !on_trial_bind.
  cbn [trial_state output].
  set (steps := (trial_steps trial EVAL _).1).
  unfold mbind at 1, M_mbind, M_bind.
  match goal with
  | |- context [for_fold ?b ?a ?l ?w0] =>
      destruct (for_fold b a l w0) as [[[] | e] w1]; [| done]
  end.
  cbn. by intros [= _ <- _].
Qed.

Lemma reaches_listed rendered_steps w step w' :
  reaches rendered_steps w step w' ->
  step ∈ steps_to_render (listed_steps trial w) rendered_steps.
Proof.
  unfold iteration_reaches, listed_steps.
  destruct (trial_loaded_all_steps trial (trial_state w)) as [flag s1].
  cbn [snd]. destruct (trial_steps trial EVAL s1) as [steps s2]. cbn [fst].
  intros (before & after & Es & _). apply sorted_elem. rewrite Es.
  apply elem_of_app. right. apply list_elem_of_here.
Qed.

Lemma turns_keep_rendered (a b : list nat * world) step :
  rtc turn a b -> step ∈ a.1 -> step ∈ b.1.
Proof.
  induction 1 as [| a b c [flag Hab] _ IH]; [done |]. intros Ha. apply IH.
  destruct b as [rb wb]. cbn in *.
  rewrite (poll_iteration_rendered _ _ _ _ _ Hab).
  apply elem_of_app. by left.
Qed.

(** X27 -- A step that raised [TensorUnavailableForStep] in a turn of the
    polling loop is in [rendered_steps] after the turn and stays there; in
    a later turn at whose poll the trial lists the step, the [for] loop
    does not come to it, whether its tensors are available by then or
    not. *)
Theorem failed_step_not_retried_while_listed
    rendered0 w0 step w wu rendered1 w1 :
  reaches rendered0 w0 step w ->
  body step w = (Raised TensorUnavailableForStep, wu) ->
  turn (rendered0, w0) (rendered1, w1) ->
  step ∈ rendered1 /\
  forall rendered2 w2,
    rtc turn (rendered1, w1) (rendered2, w2) ->
    step ∈ rendered2 /\
    (step ∈ listed_steps trial w2 ->
     forall w', ~ reaches rendered2 w2 step w').
Proof.
  intros Hreach _ [flag Hturn]. cbn in Hturn.
  assert (step ∈ rendered1) as H1.
  { rewrite (poll_iteration_rendered _ _ _ _ _ Hturn).
    apply elem_of_app. right. by eapply reaches_listed. }
  split; [done |]. intros rendered2 w2 Hrtc.
  assert (step ∈ rendered2) as H2
    by apply (turns_keep_rendered _ _ step Hrtc H1).
  split; [done |]. intros Hlisted w' Hr.
  apply reaches_listed, steps_to_render_spec in Hr.
  by destruct Hr as [[_ Hn] | [_ Hn]].
Qed.

End Polling.

(** ** The output of one step *)

Section StepOutput.

Variables sqrtQ expQ : Q -> Q.
Variable zoom : ndarray -> Q -> np_result ndarray.
Variable image_size : nat.
Context {TS : Type} (trial : Trial TS).
Variables bn_weights running_vars running_means gradients biases : list string.
Variable step : nat.

Implicit Types (w : world (TS:=TS)) (e : exn).

Local Abbreviation item :=
  (render_item expQ zoom image_size trial gradients biases step).
Local Abbreviation body :=
  (render_step_body sqrtQ expQ zoom image_size trial bn_weights running_vars
     running_means gradients biases step).

Ltac obvious :=
  unfold output_is, print_without_plot in *;
  intros; subst; auto; try done; try congruence.

(** A NumPy computation whose result the rest of the program uses. *)
Lemma hoare_np_bind {A B} (P : world -> Prop) (r : np_result A)
    (f : A -> M B) (Q : B -> world -> Prop) (X : exn -> world -> Prop) :
  (forall a, r = Ok a -> hoare P (f a) Q X) ->
  (forall err w, r = Raised err -> P w -> X (NumpyError err) w) ->
  hoare P (np r ≫= f) Q X.
Proof.
  intros HQ HX w Hw. destruct r as [a | err].
  - rewrite np_ok_bind. by apply HQ.
  - rewrite np_raised_bind. by apply HX.
Qed.

Lemma render_layer_silent o it saliency_map l :
  hoare (output_is o) (render_layer zoom image_size trial step it saliency_map l)
    (fun _ => output_is o) (fun _ => output_is o).
Proof.
  destruct l as [[gradient_name bias_name] implicit_bias]. unfold render_layer.
  eapply hoare_bind; [apply value_quiet; obvious | intros t].
  eapply hoare_bind; [apply hoare_np_inv; obvious | intros gradient].
  eapply hoare_bind; [apply value_quiet; obvious | intros bias].
  apply hoare_np; obvious.
Qed.

(** One batch item: a print and a plot, of the image of the item. *)
Lemma render_item_events o image_batch implicit_biases it :
  hoare (output_is o) (item image_batch implicit_biases it)
    (fun _ w => exists saliency_map image c p,
       index0_colons 3 image_batch it = Ok image /\
       output w = o ++ rendered_item (saliency_map, image, c, p))
    (fun _ w => exists tail, output w = o ++ tail /\ print_without_plot tail).
Proof.
  assert (forall w, output_is o w ->
            exists tail, output w = o ++ tail /\ print_without_plot tail) as Hquiet.
  { intros w ->. exists []. split; [by rewrite app_nil_r | by left]. }
  unfold render_item.
  apply hoare_np_bind; [intros image Eimg | by intros; apply Hquiet].
  eapply hoare_bind; [apply value_quiet; by intros; apply Hquiet | intros t].
  eapply hoare_bind; [apply hoare_np_inv; by intros; apply Hquiet | intros image_gradient].
  eapply hoare_bind; [apply hoare_np_inv; by intros; apply Hquiet | intros saliency_map].
  eapply hoare_bind.
  { apply hoare_for_fold_inv. intros acc l _.
    eapply hoare_conseq; [apply (render_layer_silent o) | obvious ..]. }
  intros saliency_map'.
  eapply hoare_bind; [apply hoare_np_inv; by intros; apply Hquiet | intros saliency_map''].
  eapply hoare_bind; [apply value_quiet; by intros; apply Hquiet | intros t'].
  eapply hoare_bind; [apply hoare_np_inv; by intros; apply Hquiet | intros predicted_class].
  eapply hoare_bind; [apply hoare_np_inv; by intros; apply Hquiet | intros c].
  eapply hoare_bind with (R := fun _ => output_is (o ++ [Printed (PredictedClass c)])).
  { apply hoare_emit. obvious. }
  intros _.
  eapply hoare_bind with (R := fun _ => output_is (o ++ [Printed (PredictedClass c)])).
  { apply hoare_np; [obvious |]. intros w err -> _.
    exists [Printed (PredictedClass c)]. split; [done | right; eauto]. }
  intros p. apply hoare_plot.
  - intros w ->. exists saliency_map'', image, c, p. split; [done |].
    cbn. by rewrite <- app_assoc.
  - intros err w ->. exists [Printed (PredictedClass c)].
    split; [done | right; eauto].
Qed.

(** The loop over the items of a batch. *)
Lemma render_items_events o image_batch implicit_biases n :
  hoare (output_is o)
    (for_fold (fun _ it => item image_batch implicit_biases it) tt (range n))
    (fun _ w => exists entries,
       length entries = n /\
       (forall i saliency_map image c p,
          entries !! i = Some (saliency_map, image, c, p) ->
          index0_colons 3 image_batch i = Ok image) /\
       output w = o ++ (entries ≫= rendered_item))
    (fun _ w => exists entries tail,
       (length entries < n)%nat /\
       output w = o ++ (entries ≫= rendered_item) ++ tail /\
       print_without_plot tail).
Proof.
  set (I := fun (pre : list nat) w =>
    exists entries,
      length entries = length pre /\
      (forall i saliency_map image c p,
         entries !! i = Some (saliency_map, image, c, p) ->
         index0_colons 3 image_batch i = Ok image) /\
      output w = o ++ (entries ≫= rendered_item)).
  assert (forall acc, hoare (I []) (for_fold (fun _ it => item image_batch implicit_biases it) acc (range n))
            (fun _ => I (range n))
            (fun _ w => exists entries tail,
               (length entries < n)%nat /\
               output w = o ++ (entries ≫= rendered_item) ++ tail /\
               print_without_plot tail)) as H.
  { apply hoare_for_fold. intros acc pre it post Erange w (entries & Hlen & Himg & Hout).
    assert (it = length pre /\ (length pre < n)%nat) as [Eit Hlt].
    { unfold range in Erange.
      assert (seq 0 n !! length pre = Some it) as Hl
        by (rewrite Erange; apply list_lookup_middle; done).
      apply lookup_seq in Hl. lia. }
    pose proof (render_item_events (output w) image_batch implicit_biases it w eq_refl) as Hi.
    destruct (item image_batch implicit_biases it w) as [[[] | e] w1].
    - destruct Hi as (sm & img & c & p & Eimg & Hout1).
      exists (entries ++ [(sm, img, c, p)]). split; [rewrite !length_app; cbn; lia |].
      split.
      + intros i sm' img' c' p' Hi.
        apply lookup_app_Some in Hi as [Hi | [Hge Hi]]; [by eapply Himg |].
        apply list_lookup_singleton_Some in Hi as [Hi0 [= <- <- <- <-]].
        replace i with it by lia. done.
      + rewrite Hout1, Hout, bind_app, <- !app_assoc. cbn. done.
    - destruct Hi as (tail & Hout1 & Htail).
      exists entries, tail. split; [lia |]. split; [| done].
      by rewrite Hout1, Hout, <- app_assoc. }
  intros w Hw. specialize (H tt w). 
  assert (I [] w) as HI.
  { exists []. split; [done |]. split; [by intros i ? ? ? ? Hi |].
    cbn. by rewrite app_nil_r. }
  specialize (H HI). revert H.
  match goal with |- context [for_fold ?b tt (range n) w] =>
    destruct (for_fold b tt (range n) w) as [[[] | e] w1] end; [| done].
  intros (entries & Hlen & Himg & Hout). exists entries.
  split; [| done]. rewrite Hlen. unfold range. by rewrite length_seq.
Qed.

(** X9 -- The body of the [try], whatever its outcome: every batch item that
    has been rendered left its print and its plot, in the order of the
    batch, and an exception leaves at most the print of the item it came
    from. When the body ends without an exception, every item of the batch
    has been plotted once, with its own image. *)
Theorem render_step_body_plots_each_item (w : world) :
  match body w with
  | (Ok _, w') =>
      exists image_batch n entries,
        (value trial "ResNet_input_0" step w).1 = Ok image_batch /\
        shape_at image_batch 0 = Ok n /\
        length entries = n /\
        (forall i saliency_map image c p,
           entries !! i = Some (saliency_map, image, c, p) ->
           index0_colons 3 image_batch i = Ok image) /\
        output w' = output w ++ (entries ≫= rendered_item)
  | (Raised _, w') =>
      exists entries tail,
        output w' = output w ++ (entries ≫= rendered_item) ++ tail /\
        print_without_plot tail
  end.
Proof.
  assert (forall w', output w' = output w ->
            exists entries tail,
              output w' = output w ++ (entries ≫= rendered_item) ++ tail /\
              print_without_plot tail) as Hquiet.
  { intros w' ->. exists [], []. split; [by rewrite app_nil_r | by left]. }
  unfold render_step_body.
  pose proof (value_quiet trial step (output w) "ResNet_input_0"
                (fun _ => output_is (output w)) (fun _ _ H => H) w eq_refl) as H0.
  destruct (value trial "ResNet_input_0" step w) as [[image_batch | e] w1] eqn:E0.
  2: { rewrite (M_bind_raised _ _ _ _ _ E0). by apply Hquiet. }
  rewrite (M_bind_ok _ _ _ _ _ E0).
  pose proof (compute_implicit_biases_quiet sqrtQ trial bn_weights running_vars
                running_means step (output w) w1 H0) as H1.
  destruct (compute_implicit_biases sqrtQ trial bn_weights running_vars
              running_means step w1) as [[implicit_biases | e] w2] eqn:E1.
  2: { rewrite (M_bind_raised _ _ _ _ _ E1). by apply Hquiet. }
  rewrite (M_bind_ok _ _ _ _ _ E1).
  destruct (shape_at image_batch 0) as [n | err] eqn:En.
  2: { rewrite np_raised_bind. by apply Hquiet. }
  rewrite np_ok_bind.
  pose proof (render_items_events (output w) image_batch implicit_biases n w2 H1) as H2.
  revert H2.
  match goal with |- context [for_fold ?b tt (range n) w2] =>
    destruct (for_fold b tt (range n) w2) as [[[] | e] w3] end.
  - intros (entries & Hlen & Himg & Hout).
    by exists image_batch, n, entries.
  - intros (entries & tail & _ & Hout & Htail). eauto.
Qed.

End StepOutput.

(** ** A step whose tensors are not there *)

Section Skipping.

Variables sqrtQ expQ : Q -> Q.
Variable zoom : ndarray -> Q -> np_result ndarray.
Variable image_size : nat.
Context {TS : Type} (trial : Trial TS).
Variables bn_weights running_vars running_means gradients biases : list string.
Variable step : nat.

Implicit Types (w : world (TS:=TS)) (e : exn).

Local Abbreviation item :=
  (render_item expQ zoom image_size trial gradients biases step).
Local Abbreviation body :=
  (render_step_body sqrtQ expQ zoom image_size trial bn_weights running_vars
     running_means gradients biases step).
Local Abbreviation render := (render_step sqrtQ expQ zoom image_size trial
  bn_weights running_vars running_means gradients biases).
Local Abbreviation TU := TensorUnavailableForStep.

(** When the loop over the items of a batch raises
    [TensorUnavailableForStep], the items before the one that raised have
    been printed and plotted, and nothing else. *)
Lemma render_items_unavailable image_batch implicit_biases l : forall w w',
  for_fold (fun _ it => item image_batch implicit_biases it) tt l w
  = (Raised TU, w') ->
  exists entries,
    (length entries < length l)%nat /\
    output w' = output w ++ (entries ≫= rendered_item).
Proof.
  induction l as [|it l IH]; intros w w' E; [done |].
  pose proof (render_item_quiet expQ zoom image_size trial gradients biases
                step (output w) image_batch implicit_biases it w eq_refl) as Hq.
  pose proof (render_item_events expQ zoom image_size trial gradients biases
                step (output w) image_batch implicit_biases it w eq_refl) as He.
  destruct (item image_batch implicit_biases it w) as [[[] | e] w1] eqn:Ei.
  - rewrite (for_fold_cons_ok _ _ _ _ _ _ _ Ei) in E.
    destruct He as (sm & img & c & p & _ & Hout).
    destruct (IH _ _ E) as (entries & Hlen & Hout').
    exists ((sm, img, c, p) :: entries). split; [cbn; lia |].
    rewrite Hout', Hout. cbn. by rewrite <- app_assoc.
  - rewrite (for_fold_cons_raised _ _ _ _ _ _ _ Ei) in E.
    injection E as -> ->. exists []. split; [cbn; lia |].
    rewrite (Hq eq_refl). cbn. by rewrite app_nil_r.
Qed.

Lemma render_step_body_unavailable w w' :
  body w = (Raised TU, w') ->
  exists entries, output w' = output w ++ (entries ≫= rendered_item).
Proof.
  assert (forall w1, output w1 = output w ->
            exists entries, output w1 = output w ++ (entries ≫= rendered_item))
    as Hquiet.
  { intros w1 ->. exists []. cbn. by rewrite app_nil_r. }
  unfold render_step_body.
  pose proof (value_quiet trial step (output w) "ResNet_input_0"
                (fun _ => output_is (output w)) (fun _ _ H => H) w eq_refl) as H0.
  destruct (value trial "ResNet_input_0" step w) as [[image_batch | e] w1] eqn:E0.
  2: { rewrite (M_bind_raised _ _ _ _ _ E0). intros [= -> ->]. by apply Hquiet. }
  rewrite (M_bind_ok _ _ _ _ _ E0).
  pose proof (compute_implicit_biases_quiet sqrtQ trial bn_weights running_vars
                running_means step (output w) w1 H0) as H1.
  destruct (compute_implicit_biases sqrtQ trial bn_weights running_vars
              running_means step w1) as [[implicit_biases | e] w2] eqn:E1.
  2: { rewrite (M_bind_raised _ _ _ _ _ E1). intros [= -> ->]. by apply Hquiet. }
  rewrite (M_bind_ok _ _ _ _ _ E1).
  destruct (shape_at image_batch 0) as [n | err] eqn:En.
  2: { rewrite np_raised_bind. intros H. discriminate H. }
  rewrite np_ok_bind. intros E.
  destruct (render_items_unavailable _ _ _ _ _ E) as (entries & _ & Hout).
  exists entries. unfold output_is in H1. by rewrite Hout, H1.
Qed.

(** C6 (as amended) -- a step in whose rendering a tensor is not yet
    available is caught and logged, and the [for] loop goes on with the
    next step.  The batch items that were rendered before the tensor was
    missed stay printed and plotted; if the trial does not take back a
    tensor of the step, there are none and the step is skipped as a whole.
    Any other exception leaves the [for] loop and ends the polling
    loop. *)
Theorem unavailable_step_is_logged :
  (forall w w',
     body w = (Raised TU, w') ->
     (exists entries, output w' = output w ++ (entries ≫= rendered_item)) /\
     (tensors_stay_available trial step -> output w' = output w) /\
     render step w
     = (Ok tt, {| trial_state := trial_state w';
                  output := output w' ++ [Printed (TensorUnavailable step)] |}) /\
     forall rest,
       for_fold (fun _ s => render s) tt (step :: rest) w
       = for_fold (fun _ s => render s) tt rest
           {| trial_state := trial_state w';
              output := output w' ++ [Printed (TensorUnavailable step)] |})
  /\
  (forall w w' e,
     body w = (Raised e, w') -> e <> TU ->
     render step w = (Raised e, w') /\
     (forall rest,
        for_fold (fun _ s => render s) tt (step :: rest) w = (Raised e, w')) /\
     forall fuel rendered_steps w0,
       iteration_reaches sqrtQ expQ zoom image_size trial bn_weights
         running_vars running_means gradients biases rendered_steps w0 step w ->
       polling_loop sqrtQ expQ zoom image_size trial bn_weights running_vars
         running_means gradients biases (S fuel) false rendered_steps w0
       = Some (Raised e, w')).
Proof.
  split.
  - intros w w' E.
    assert (render step w
            = (Ok tt, {| trial_state := trial_state w';
                         output := output w' ++ [Printed (TensorUnavailable step)] |}))
      as Hr.
    { unfold render_step. by rewrite E. }
    split; [by apply render_step_body_unavailable |]. split.
    { intros stable.
      pose proof (render_step_body_quiet sqrtQ expQ zoom image_size trial
                    bn_weights running_vars running_means gradients biases
                    step stable (output w) w eq_refl) as Hq.
      rewrite E in Hq. by apply Hq. }
    split; [done |]. intros rest. by apply for_fold_cons_ok.
  - intros w w' e E Hne.
    assert (render step w = (Raised e, w')) as Hr.
    { unfold render_step. rewrite E. by destruct e. }
    split; [done |].
    split; [intros rest; by apply for_fold_cons_raised |].
    intros fuel rendered_steps w0 Hreach. unfold iteration_reaches in Hreach.
    cbn [polling_loop]. unfold poll_iteration.
    rewrite !on_trial_bind. cbn [trial_state output].
    destruct (trial_loaded_all_steps trial (trial_state w0)) as [flag s1].
    cbn [fst snd].
    destruct (trial_steps trial EVAL s1) as [steps s2].
    destruct Hreach as (before & after & Es & Eb). cbn [fst snd].
    erewrite M_bind_raised; [done |]. rewrite Es.
    rewrite (for_fold_app_ok _ _ _ _ _ _ _ Eb).
    by apply for_fold_cons_raised.
Qed.

End Skipping.

(** The first image of the batch [two_images] and the map the notebook
    computes for it: one entry, nan. *)
Example render_step_body_revoked :
  render_step_body sqrt_floor exp_taylor zoom_linear 224
    (revoking_trial 3 two_images) [] [] [] [] [] 1
    {| trial_state := 0%nat; output := [] |}
  = (Raised TensorUnavailableForStep,
     {| trial_state := 4%nat;
        output := [Printed (PredictedClass 0);
                   Plotted {| shape := [1; 1]%nat; data := [None] |}
                     (arr [3; 1; 1]%nat [1; 2; 3]) 0 50] |}).
Proof. by vm_compute. Qed.

(** C6 (the wording of the specification) -- the step is not skipped as a
    whole: on a trial that takes a tensor back after the first item of a
    batch of two, the first item has been printed and plotted when the
    second one raises the error. *)
Lemma unavailable_step_partially_rendered :
  ~ (forall (sqrtQ expQ : Q -> Q) (zoom : ndarray -> Q -> np_result ndarray)
        (image_size : nat) (TS : Type) (trial : Trial TS)
        (bn_weights running_vars running_means gradients biases : list string)
        (step : nat) (w w' : world),
       render_step_body sqrtQ expQ zoom image_size trial bn_weights
         running_vars running_means gradients biases step w
       = (Raised TensorUnavailableForStep, w') ->
       output w' = output w).
Proof.
  intros H. specialize (H _ _ _ _ _ _ _ _ _ _ _ _ _ _ render_step_body_revoked).
  discriminate H.
Qed.

Lemma unavailable_step_is_logged_witness :
  render_step sqrt_floor exp_taylor zoom_linear 224
    (revoking_trial 3 two_images) [] [] [] [] [] 1
    {| trial_state := 0%nat; output := [] |}
  = (Ok tt,
     {| trial_state := 4%nat;
        output := [Printed (PredictedClass 0);
                   Plotted {| shape := [1; 1]%nat; data := [None] |}
                     (arr [3; 1; 1]%nat [1; 2; 3]) 0 50;
                   Printed (TensorUnavailable 1)] |})
  /\
  render_step sqrt_floor exp_taylor zoom_linear 224 scalar_trial
    [] [] [] [] [] 1 fresh_world
  = (Raised (NumpyError IndexError), fresh_world).
Proof.
  split.
  - destruct (unavailable_step_is_logged sqrt_floor exp_taylor zoom_linear 224
                (revoking_trial 3 two_images) [] [] [] [] [] 1) as [H _].
    destruct (H _ _ render_step_body_revoked) as (_ & _ & Hr & _). exact Hr.
  - destruct (unavailable_step_is_logged sqrt_floor exp_taylor zoom_linear 224
                scalar_trial [] [] [] [] [] 1) as [_ H].
    destruct (H fresh_world fresh_world (NumpyError IndexError) eq_refl) as (Hr & _);
      [discriminate | exact Hr].
Defined.

(** ** The state of the trial during a step *)

Section TrialState.

Variables sqrtQ expQ : Q -> Q.
Variable zoom : ndarray -> Q -> np_result ndarray.
Variable image_size : nat.
Context {TS : Type} (trial : Trial TS).
Variables bn_weights running_vars running_means gradients biases : list string.
Variable step : nat.

Implicit Types (w : world (TS:=TS)) (e : exn).

(** [I] holds of the state of the trial before the step, [J] after any
    request for a tensor of the step. *)
Variables I J : TS -> Prop.
Hypothesis first_request : forall name s, I s -> J (trial_value trial name step s).2.
Hypothesis later_request : forall name s, J s -> J (trial_value trial name step s).2.

Local Abbreviation after := (fun w => J (trial_state w)).

Lemma value_state name :
  hoare after (value trial name step) (fun _ => after) (fun _ => after).
Proof.
  apply hoare_value. intros w Hw.
  pose proof (later_request name _ Hw) as H.
  by destruct (trial_value trial name step (trial_state w)) as [[a | e] s].
Qed.

Lemma np_state {A} (r : np_result A) :
  hoare after (np r) (fun _ => after) (fun _ => after).
Proof. by apply hoare_np. Qed.

Lemma emit_state (ev : event) :
  hoare after (emit ev) (fun _ => after) (fun _ => after).
Proof. by apply hoare_emit. Qed.

Lemma render_item_state image_batch implicit_biases it :
  hoare after
    (render_item expQ zoom image_size trial gradients biases step image_batch
       implicit_biases it)
    (fun _ => after) (fun _ => after).
Proof.
  unfold render_item.
  eapply hoare_bind; [apply np_state | intros image].
  eapply hoare_bind; [apply value_state | intros t].
  eapply hoare_bind; [apply np_state | intros image_gradient].
  eapply hoare_bind; [apply np_state | intros saliency_map].
  eapply hoare_bind.
  { apply hoare_for_fold_inv. intros acc [[g b] ib] _. unfold render_layer.
    eapply hoare_bind; [apply value_state | intros t0].
    eapply hoare_bind; [apply np_state | intros gradient].
    eapply hoare_bind; [apply value_state | intros bias].
    apply np_state. }
  intros saliency_map'.
  eapply hoare_bind; [apply np_state | intros saliency_map''].
  eapply hoare_bind; [apply value_state | intros t'].
  eapply hoare_bind; [apply np_state | intros predicted_class].
  eapply hoare_bind; [apply np_state | intros c].
  eapply hoare_bind; [apply emit_state | intros ?].
  eapply hoare_bind; [apply np_state | intros p].
  by apply hoare_plot.
Qed.

(** Whatever the outcome of the step, the trial is left in a state that
    satisfies [J]. *)
Lemma render_step_state :
  hoare (fun w => I (trial_state w))
    (render_step sqrtQ expQ zoom image_size trial bn_weights running_vars
       running_means gradients biases step)
    (fun _ => after) (fun _ => after).
Proof.
  assert (hoare (fun w => I (trial_state w))
            (render_step_body sqrtQ expQ zoom image_size trial bn_weights
               running_vars running_means gradients biases step)
            (fun _ => after) (fun _ => after)) as Hbody.
  { unfold render_step_body.
    eapply hoare_bind with (R := fun _ => after).
    { apply hoare_value. intros w Hw.
      pose proof (first_request "ResNet_input_0" _ Hw) as H.
      destruct (trial_value trial "ResNet_input_0" step (trial_state w))
        as [[a | e] s]; exact H. }
    intros image_batch.
    eapply hoare_bind.
    { unfold compute_implicit_biases. apply hoare_for_fold_inv.
      intros acc [[wn vn] mn] _.
      eapply hoare_bind; [apply value_state | intros weight].
      eapply hoare_bind; [apply value_state | intros running_var].
      eapply hoare_bind; [apply value_state | intros running_mean].
      eapply hoare_bind; [apply np_state | intros b].
      by apply hoare_ret. }
    intros implicit_biases.
    eapply hoare_bind; [apply np_state | intros n].
    apply hoare_for_fold_inv. intros acc it _. apply render_item_state. }
  intros w Hw. specialize (Hbody w Hw). unfold render_step.
  destruct (render_step_body _ _ _ _ _ _ _ _ _ _ _ w) as [[[] | e] w']; [done |].
  destruct e; done.
Qed.

End TrialState.

(** ** The polling loop, turn by turn *)

Section Turns.

Variables sqrtQ expQ : Q -> Q.
Variable zoom : ndarray -> Q -> np_result ndarray.
Variable image_size : nat.
Context {TS : Type} (trial : Trial TS).
Variables bn_weights running_vars running_means gradients biases : list string.

Implicit Types (w : world (TS:=TS)) (e : exn).

Local Abbreviation loop :=
  (polling_loop sqrtQ expQ zoom image_size trial bn_weights running_vars
     running_means gradients biases).
Local Abbreviation turn_of :=
  (turn_rendering sqrtQ expQ zoom image_size trial bn_weights running_vars
     running_means gradients biases).
Local Abbreviation turns :=
  (turns_rendering sqrtQ expQ zoom image_size trial bn_weights running_vars
     running_means gradients biases).

(** A turn of the loop renders the steps to render, in ascending order,
    and goes on with the flag it has read before. *)
Lemma polling_loop_turn fuel rendered_steps w :
  let steps_to_render := steps_to_render (listed_steps trial w) rendered_steps in
  loop (S fuel) false rendered_steps w
  = match turn_of (sorted steps_to_render) w with
    | (Ok _, w') =>
        loop fuel (trial_loaded_all_steps trial (trial_state w)).1
          (rendered_steps ++ steps_to_render) w'
    | (Raised e, w') => Some (Raised e, w')
    end.
Proof.
  cbn [polling_loop]. unfold poll_iteration, turn_rendering, listed_steps.
  rewrite !on_trial_bind. cbn [trial_state output].
  destruct (trial_loaded_all_steps trial (trial_state w)) as [flag s1].
  cbn [fst snd]. destruct (trial_steps trial EVAL s1) as [steps s2].
  cbn [fst snd]. unfold mbind, M_mbind, M_bind.
  match goal with
  | |- context [for_fold ?b ?a ?l ?w0] =>
      destruct (for_fold b a l w0) as [[[] | e] w1]
  end; done.
Qed.

Lemma turns_cons todo schedule w :
  turns (todo :: schedule) w
  = match turn_of todo w with
    | (Ok _, w') => turns schedule w'
    | (Raised e, w') => (Raised e, w')
    end.
Proof.
  unfold turns_rendering. cbn [for_fold]. unfold mbind at 1, M_mbind, M_bind.
  by destruct (turn_rendering _ _ _ _ _ _ _ _ _ _ todo w) as [[[] | e] w'].
Qed.

End Turns.

(** ** The polling loop on a trial that grows *)

Lemma todo_12_fresh : steps_to_render [1; 2]%nat [] = [2; 1]%nat.
Proof. by vm_compute. Qed.
Lemma todo_12_done : steps_to_render [1; 2]%nat [2; 1]%nat = [].
Proof. by vm_compute. Qed.
Lemma todo_123_new : steps_to_render [1; 2; 3]%nat [2; 1]%nat = [3%nat].
Proof. by vm_compute. Qed.
Lemma todo_123_done : steps_to_render [1; 2; 3]%nat [2; 1; 3]%nat = [].
Proof. by vm_compute. Qed.
Lemma sorted_nil : sorted [] = [].
Proof. by vm_compute. Qed.
Lemma sorted_21 : sorted [2; 1]%nat = [1; 2]%nat.
Proof. by vm_compute. Qed.
Lemma sorted_3 : sorted [3%nat] = [3%nat].
Proof. by vm_compute. Qed.

Section Growing.

Variables sqrtQ expQ : Q -> Q.
Variable zoom : ndarray -> Q -> np_result ndarray.
Variable image_size : nat.
Variable early : nat.
Variable table : string -> nat -> option ndarray.
Variables bn_weights running_vars running_means gradients biases : list string.

Local Abbreviation trial := (growing_trial (S early) table).
Local Abbreviation loop :=
  (polling_loop sqrtQ expQ zoom image_size trial bn_weights running_vars
     running_means gradients biases).
Local Abbreviation render :=
  (render_step sqrtQ expQ zoom image_size trial bn_weights running_vars
     running_means gradients biases).
Local Abbreviation turn_of :=
  (turn_rendering sqrtQ expQ zoom image_size trial bn_weights running_vars
     running_means gradients biases).
Local Abbreviation turns :=
  (turns_rendering sqrtQ expQ zoom image_size trial bn_weights running_vars
     running_means gradients biases).
Local Abbreviation state n f := {| polls := n; fetched_step3 := f |}.

Implicit Types (w : world (TS:=poll_state)).

(** A step leaves the number of polls as it is, and sets the flag if it
    is step 3. *)
Lemma render_step_growing_state step n f w r w' :
  trial_state w = state n f -> render step w = (r, w') ->
  trial_state w' = state n (if decide (step = 3%nat) then true else f).
Proof.
  intros Hw E.
  pose proof (render_step_state sqrtQ expQ zoom image_size trial bn_weights
                running_vars running_means gradients biases step
                (fun s => s = state n f)
                (fun s => s = state n (if decide (step = 3%nat) then true else f)))
    as H.
  specialize (H ltac:(by intros name s ->)
                ltac:(intros name s ->; cbn; by destruct (decide (step = 3%nat)))
                w Hw).
  rewrite E in H. by destruct r.
Qed.

Lemma render_steps_growing_state l : forall n f w w',
  trial_state w = state n f ->
  for_fold (fun _ step => render step) tt l w = (Ok tt, w') ->
  trial_state w' = state n (if decide (3%nat ∈ l) then true else f).
Proof.
  induction l as [|step l IH]; intros n f w w' Hw E.
  - injection E as <-. rewrite Hw. by rewrite decide_False by apply not_elem_of_nil.
  - cbn [for_fold] in E. unfold mbind, M_mbind, M_bind in E.
    destruct (render step w) as [[[] | e] w1] eqn:E1; [| done].
    pose proof (render_step_growing_state _ _ _ _ _ _ Hw E1) as H1.
    rewrite (IH _ _ _ _ H1 E). f_equal.
    destruct (decide (step = 3%nat)) as [-> | Hne].
    + rewrite (decide_True (P := 3%nat ∈ 3%nat :: l)) by apply list_elem_of_here.
      by destruct (decide (3%nat ∈ l)).
    + destruct (decide (3%nat ∈ l)) as [Hin | Hout].
      * by rewrite decide_True by by apply list_elem_of_further.
      * rewrite decide_False; [done |]. intros Hc.
        apply elem_of_cons in Hc as [? | ?]; congruence.
Qed.

(** A turn in which the steps [todo] are rendered. *)
Lemma turn_growing_state todo n f w w' :
  trial_state w = state n f -> turn_of todo w = (Ok tt, w') ->
  trial_state w' = state (S n) (if decide (3%nat ∈ todo) then true else f).
Proof.
  intros Hw. unfold turn_rendering. rewrite !on_trial_bind.
  cbn [trial_state output]. rewrite Hw. cbn [growing_trial trial_steps
    trial_loaded_all_steps fst snd polls fetched_step3].
  unfold mbind, M_mbind, M_bind.
  match goal with
  | |- context [for_fold ?b ?a ?l ?w0] =>
      destruct (for_fold b a l w0) as [[[] | e] w1] eqn:E; [| done]
  end.
  cbn. intros [= <-]. cbn.
  by apply (render_steps_growing_state todo (S n) f) in E.
Qed.

(** A turn of the loop on the mock: what the trial lists depends on the
    number of polls so far, the flag the loop goes on with is the one the
    trial had before the turn. *)
Lemma polling_loop_growing_turn fuel rendered_steps n f w :
  trial_state w = state n f ->
  let steps := if decide (n < S early)%nat then [1; 2]%nat else [1; 2; 3]%nat in
  loop (S fuel) false rendered_steps w
  = match turn_of (sorted (steps_to_render steps rendered_steps)) w with
    | (Ok _, w') =>
        loop fuel f (rendered_steps ++ steps_to_render steps rendered_steps) w'
    | (Raised e, w') => Some (Raised e, w')
    end.
Proof.
  intros Hw. rewrite polling_loop_turn. unfold listed_steps.
  by rewrite Hw.
Qed.

Lemma polling_loop_done fuel rendered_steps w :
  loop fuel true rendered_steps w
  = Some (Ok rendered_steps,
          {| trial_state := trial_state w; output := output w ++ [Printed Done] |}).
Proof. by destruct fuel. Qed.

(** The turns in which the trial lists steps 1 and 2, which have been
    rendered: nothing is rendered. *)
Lemma polling_loop_growing_idle k : forall n w,
  trial_state w = state n false -> (n + k <= S early)%nat ->
  exists w',
    trial_state w' = state (n + k) false /\
    (forall fuel, loop (k + fuel) false [2; 1]%nat w = loop fuel false [2; 1]%nat w') /\
    (forall schedule, turns (replicate k [] ++ schedule) w = turns schedule w').
Proof.
  induction k as [|k IH]; intros n w Hw Hn.
  - exists w. rewrite Nat.add_0_r. by split.
  - destruct (turn_of [] w) as [[[] | e] w1] eqn:E1.
    2: { exfalso. revert E1. unfold turn_rendering. rewrite !on_trial_bind. done. }
    pose proof (turn_growing_state _ _ _ _ _ Hw E1) as Hw1.
    rewrite decide_False in Hw1 by apply not_elem_of_nil.
    destruct (IH (S n) w1 Hw1 ltac:(lia)) as (w' & Hw' & Hloop & Hturns).
    exists w'. split; [by rewrite Hw'; f_equal; lia |]. split.
    + intros fuel. cbn [Nat.add].
      rewrite (polling_loop_growing_turn _ _ _ _ _ Hw). cbv zeta.
      rewrite decide_True by lia. rewrite todo_12_done, sorted_nil, E1.
      rewrite app_nil_r. apply Hloop.
    + intros schedule. cbn [replicate app]. rewrite turns_cons, E1. apply Hturns.
Qed.

(** The loop on the mock, from the first poll on: the turns it makes and
    what it renders in each of them. *)
Lemma polling_loop_on_growing_trial (extra : nat) (o : list event) :
  exists rendered_steps,
    rendered_steps ≡ₚ [1; 2; 3]%nat /\
    loop (early + 3 + extra) false []
      {| trial_state := state 0 false; output := o |}
    = Some ((turns ([[1; 2]%nat] ++ replicate early [] ++ [[3%nat]; []]);;
             print Done;; mret rendered_steps)
              {| trial_state := state 0 false; output := o |}).
Proof.
  exists [2; 1; 3]%nat. split.
  { by rewrite (Permutation_swap 2%nat 1%nat [3%nat]). }
  set (w0 := {| trial_state := state 0 false; output := o |}).
  unfold mbind at 1, M_mbind, M_bind. cbn [app]. rewrite turns_cons.
  replace (early + 3 + extra)%nat with (S (early + (S (S extra)))) by lia.
  rewrite (polling_loop_growing_turn _ _ 0 false w0 eq_refl). cbv zeta.
  rewrite decide_True by lia. rewrite todo_12_fresh, sorted_21. cbn [app].
  destruct (turn_of [1; 2]%nat w0) as [[[] | e] w1] eqn:E1; [| done].
  pose proof (turn_growing_state _ 0 false w0 w1 eq_refl E1) as Hw1.
  rewrite decide_False in Hw1
    by (intros H; repeat (apply elem_of_cons in H as [H | H]; [done |]);
        by apply elem_of_nil in H).
  destruct (polling_loop_growing_idle early 1 w1 Hw1 ltac:(lia))
    as (w2 & Hw2 & Hloop & Hturns).
  rewrite Hloop, Hturns. cbn [Nat.add] in Hw2.
  rewrite (polling_loop_growing_turn _ _ _ _ _ Hw2). cbv zeta.
  rewrite decide_False by lia. rewrite todo_123_new, sorted_3, turns_cons.
  destruct (turn_of [3%nat] w2) as [[[] | e] w3] eqn:E3; [| done].
  pose proof (turn_growing_state _ _ _ _ _ Hw2 E3) as Hw3.
  rewrite decide_True in Hw3 by apply list_elem_of_here.
  rewrite (polling_loop_growing_turn _ _ _ _ _ Hw3). cbv zeta.
  rewrite decide_False by lia. cbn [app].
  rewrite todo_123_done, sorted_nil, turns_cons.
  destruct (turn_of [] w3) as [[[] | e] w4] eqn:E4; [| done].
  rewrite polling_loop_done. done.
Qed.

End Growing.


(** The run for [early = 1] on the batches of [two_images], whose first
    entry is the number of the step: two images per step, steps 1 and 2 in
    the first turn, step 3 in the third.  No layer is rendered, so neither
    [zoom] nor the square root is called, and [exp] is called at 0 only,
    where [exp_taylor] is 1 as [exp] is. *)
Example growing_trial_run :
  rendering_cell sqrt_floor exp_taylor zoom_linear 224
    (growing_trial 2 two_images) [] [] [] [] [] 4 fresh_poll_world
  = Some
      (Ok [2; 1; 3]%nat,
       {| trial_state := {| polls := 4; fetched_step3 := true |};
          output :=
            [Printed (PredictedClass 0);
             Plotted {| shape := [1; 1]%nat; data := [None] |}
               (arr [3; 1; 1]%nat [1; 2; 3]) 0 50;
             Printed (PredictedClass 0);
             Plotted {| shape := [1; 1]%nat; data := [None] |}
               (arr [3; 1; 1]%nat [4; 5; 6]) 0 50;
             Printed (PredictedClass 0);
             Plotted {| shape := [1; 1]%nat; data := [None] |}
               (arr [3; 1; 1]%nat [2; 2; 3]) 0 50;
             Printed (PredictedClass 0);
             Plotted {| shape := [1; 1]%nat; data := [None] |}
               (arr [3; 1; 1]%nat [4; 5; 6]) 0 50;
             Slept 5; Slept 5;
             Printed (PredictedClass 0);
             Plotted {| shape := [1; 1]%nat; data := [None] |}
               (arr [3; 1; 1]%nat [3; 2; 3]) 0 50;
             Printed (PredictedClass 0);
             Plotted {| shape := [1; 1]%nat; data := [None] |}
               (arr [3; 1; 1]%nat [4; 5; 6]) 0 50;
             Slept 5; Slept 5; Printed Done] |}).
Proof. by vm_compute. Qed.

(** ** A rendered step that the trial lists no more *)

(** A step that is in [rendered_steps] and not among the steps the trial
    lists is in the symmetric difference, so the [for] loop comes to it
    again. *)
Lemma rendered_unlisted_step_to_render steps rendered_steps step :
  step ∈ rendered_steps -> step ∉ steps ->
  step ∈ sorted (steps_to_render steps rendered_steps).
Proof.
  intros Hin Hout. apply sorted_elem, steps_to_render_spec. by right.
Qed.

Lemma steps_to_render_of_copies (k step : nat) :
  steps_to_render [] (replicate (S k) step) = [step].
Proof.
  unfold steps_to_render.
  replace (symmetric_difference (list_to_set []) (list_to_set (replicate (S k) step)))
    with ({[ step ]} : gset nat); [apply elements_singleton |].
  apply set_eq. intros x. unfold symmetric_difference.
  rewrite elem_of_singleton, elem_of_union, !elem_of_difference,
    !elem_of_list_to_set, elem_of_replicate.
  split.
  - intros ->. right. split; [split; [done | lia] |]. apply not_elem_of_nil.
  - intros [[H _] | [[H _] _]]; [by apply elem_of_nil in H | done].
Qed.

Lemma sorted_singleton (step : nat) : sorted [step] = [step].
Proof. reflexivity. Qed.

Lemma render_step_forgetful (sqrtQ expQ : Q -> Q)
    (zoom : ndarray -> Q -> np_result ndarray) (image_size : nat)
    (bn_weights running_vars running_means gradients biases : list string)
    (step : nat) (w : world) :
  render_step sqrtQ expQ zoom image_size forgetful_trial bn_weights
    running_vars running_means gradients biases step w
  = print (TensorUnavailable step) w.
Proof. by destruct w. Qed.

(** C10 -- the polling loop on [forgetful_trial], which lists step 5 at
    the first poll and no step after it and never has a tensor.  In the
    first turn step 5 raises [TensorUnavailableForStep], the message is
    printed and 5 is appended to [rendered_steps].  In every later turn
    the symmetric difference of the empty listing and [rendered_steps]
    is [[5]] again: the step is attempted once more, the message is
    printed once more, and 5 is appended another time. *)
Theorem unlisted_step_is_attempted_again (sqrtQ expQ : Q -> Q)
    (zoom : ndarray -> Q -> np_result ndarray) (image_size : nat)
    (bn_weights running_vars running_means gradients biases : list string)
    (o : list event) :
  poll_iteration sqrtQ expQ zoom image_size forgetful_trial bn_weights
    running_vars running_means gradients biases []
    {| trial_state := 0%nat; output := o |}
  = (Ok (false, [5%nat]),
     {| trial_state := 1%nat;
        output := o ++ [Printed (TensorUnavailable 5); Slept 5] |})
  /\
  forall k n : nat,
    poll_iteration sqrtQ expQ zoom image_size forgetful_trial bn_weights
      running_vars running_means gradients biases (replicate (S k) 5%nat)
      {| trial_state := S n; output := o |}
    = (Ok (false, replicate (S k) 5%nat ++ [5%nat]),
       {| trial_state := S (S n);
          output := o ++ [Printed (TensorUnavailable 5); Slept 5] |}).
Proof.
  split.
  - unfold poll_iteration. rewrite !on_trial_bind.
    cbn [trial_state output forgetful_trial trial_steps trial_loaded_all_steps
         fst snd].
    rewrite decide_True by done.
    replace (steps_to_render [5%nat] []) with [5%nat] by (by vm_compute).
    rewrite sorted_singleton. cbn [for_fold].
    unfold mbind, M_mbind, M_bind. rewrite render_step_forgetful. cbn.
    by rewrite <- app_assoc.
  - intros k n. unfold poll_iteration. rewrite !on_trial_bind.
    cbn [trial_state output forgetful_trial trial_steps trial_loaded_all_steps
         fst snd].
    rewrite decide_False by done.
    rewrite steps_to_render_of_copies, sorted_singleton. cbn [for_fold].
    unfold mbind, M_mbind, M_bind. rewrite render_step_forgetful. cbn.
    by rewrite <- app_assoc.
Qed.

(** ** The statements at concrete inputs *)

Lemma sqrt_floor_pos x : 0 < x -> 0 < sqrt_floor x.
Proof.
  destruct x as [n d]. unfold Qlt, sqrt_floor. cbn. rewrite !Z.mul_1_r.
  intros H. by apply Z.sqrt_pos.
Qed.

Example compute_implicit_biases_bn1 :
  compute_implicit_biases sqrt_floor bn_trial ["bn1.weight"]
    ["bn1.running_var"] ["bn1.running_mean"] 1 fresh_world
  = (Ok [arr [2%nat] [-1 / 2 * 2; - -6 / 3 * 3]], fresh_world).
Proof. reflexivity. Qed.

Lemma compute_implicit_biases_formula_witness :
  exists w',
    compute_implicit_biases sqrt_floor bn_trial ["bn1.weight"]
      ["bn1.running_var"] ["bn1.running_mean"] 1 fresh_world
    = (Ok (implicit_bias_of sqrt_floor <$> [bn1]), w') /\
    length (implicit_bias_of sqrt_floor <$> [bn1]) = length ["bn1.weight"] /\
    output w' = output fresh_world /\ True.
Proof.
  apply (compute_implicit_biases_formula sqrt_floor sqrt_floor_pos bn_trial
           (fun _ => True) 1 (fun name => bn_table name 1)).
  - intros s name a _ Ht. exists s. split; [| done].
    cbn. unfold bn_table in *. by rewrite Ht.
  - reflexivity.
  - reflexivity.
  - repeat constructor; reflexivity.
  - exact I.
Defined.

Lemma static_trial_stable steps table step :
  tensors_stay_available (static_trial steps table) step.
Proof. by intros [] name name' H. Qed.

Lemma failed_step_not_retried_while_listed_witness :
  (5%nat ∈ [5%nat]) /\
  forall rendered2 (w2 : world),
    rtc (turn sqrt_floor exp_taylor zoom_linear 2 empty_trial [] [] [] [] [])
        ([5%nat], {| trial_state := tt;
                     output := [Printed (TensorUnavailable 5); Slept 5] |})
        (rendered2, w2) ->
    5%nat ∈ rendered2 /\
    (5%nat ∈ listed_steps empty_trial w2 ->
     forall w', ~ iteration_reaches sqrt_floor exp_taylor zoom_linear 2
                    empty_trial [] [] [] [] [] rendered2 w2 5 w').
Proof.
  apply (failed_step_not_retried_while_listed sqrt_floor exp_taylor zoom_linear
           2 empty_trial [] [] [] [] [] [] fresh_world 5 fresh_world fresh_world).
  - by exists [], [].
  - reflexivity.
  - by exists true.
Defined.

(** ** [normalize] on a tensor without entries *)

(** X1 -- [normalize] raises on a tensor without entries, where [np.min] has
    nothing to reduce, and on no other tensor; what it returns has the
    shape and the number of entries of its argument. *)
Theorem normalize_raises_on_empty_only (tensor : ndarray) :
  match data tensor with
  | [] => normalize tensor = Raised ValueError
  | _ :: _ =>
      exists r, normalize tensor = Ok r /\ shape r = shape tensor /\
                length (data r) = length (data tensor)
  end.
Proof.
  unfold normalize, np_min, np_max, sub_scalar, div_scalar, map_data.
  destruct (data tensor) as [|x l]; [done |]. cbn.
  eexists. split; [done |]. cbn. by rewrite !length_fmap.
Qed.

(** ** [compute_implicit_biases] *)

Section ImplicitBiasEdges.

Variable sqrtQ : Q -> Q.

(** [np.sqrt(0)] is 0. *)
Hypothesis sqrtQ_zero : forall x, x == 0 -> sqrtQ x == 0.

Lemma implicit_bias_entries s ws vs ms :
  length ws = size_of s -> length vs = size_of s -> length ms = size_of s ->
  implicit_bias sqrtQ (arr s ws) (arr s vs) (arr s ms)
  = Ok {| shape := s;
          data := zip_with vmul
                    (zip_with vdiv (vneg <$> (Some <$> ms))
                                   (vsqrt sqrtQ <$> (Some <$> vs)))
                    (Some <$> ws) |}.
Proof.
  intros Hw Hv Hm. unfold implicit_bias, np_div, np_mul.
  rewrite np_binop_same; cycle 1.
  { unfold well_formed, np_neg, map_data, arr. cbn [shape data].
    by rewrite !length_fmap. }
  { unfold well_formed, np_sqrt, map_data, arr. cbn [shape data].
    by rewrite !length_fmap. }
  { done. }
  cbn [mbind result_mbind result_bind np_neg np_sqrt map_data arr shape data].
  rewrite np_binop_same; cycle 1.
  { unfold well_formed. cbn [shape data].
    rewrite length_zip_with, !length_fmap. lia. }
  { by apply well_formed_arr. }
  { done. }
  done.
Qed.

Lemma vsqrt_nonpositive v : v <= 0 -> vdiv (Some 1) (vsqrt sqrtQ (Some v)) = None.
Proof.
  intros Hv. cbn. destruct (Qle_bool 0 v) eqn:E; [| done].
  apply Qle_bool_iff in E. assert (v == 0) as Hz by lra.
  cbn. by rewrite (proj2 (Qeq_bool_iff _ _) (sqrtQ_zero v Hz)).
Qed.

(** X6 -- A running variance that is zero or negative raises nothing: the
    division by [np.sqrt(running_var)] goes through and leaves a value
    that is not a number at that entry of the implicit bias. *)
Theorem implicit_bias_of_nonpositive_variance
    (s : list nat) (ws vs ms : list Q) (i : nat) (v : Q) :
  length ws = size_of s -> length vs = size_of s -> length ms = size_of s ->
  vs !! i = Some v -> v <= 0 ->
  exists r,
    implicit_bias sqrtQ (arr s ws) (arr s vs) (arr s ms) = Ok r /\
    shape r = s /\ data r !! i = Some None.
Proof.
  intros Hw Hv Hm Hi Hle. eexists. split; [by apply implicit_bias_entries |].
  split; [done |]. cbn [data].
  assert (i < length vs)%nat as Hlt by (by eapply lookup_lt_Some).
  destruct (lookup_lt_is_Some_2 ws i) as [w Ew]; [lia |].
  destruct (lookup_lt_is_Some_2 ms i) as [m Em]; [lia |].
  rewrite !lookup_zip_with, !list_lookup_fmap, Ew, Em, Hi. cbn.
  destruct (Qle_bool 0 v) eqn:E; [| done].
  apply Qle_bool_iff in E. assert (v == 0) as Hz by lra.
  by rewrite (proj2 (Qeq_bool_iff _ _) (sqrtQ_zero v Hz)).
Qed.

End ImplicitBiasEdges.

Lemma zip3_take {A B C} (a : list A) (b : list B) (c : list C) :
  let n := ((length a `min` length b) `min` length c)%nat in
  zip3 (take n a) (take n b) (take n c) = zip3 a b c.
Proof.
  unfold zip3. revert b c.
  induction a as [|x a IH]; intros [|y b] [|z c]; cbn; try done.
  f_equal. apply IH.
Qed.

Lemma length_zip3 {A B C} (a : list A) (b : list B) (c : list C) :
  length (zip3 a b c) = ((length a `min` length b) `min` length c)%nat.
Proof. unfold zip3. by rewrite !length_zip_with. Qed.

Section ImplicitBiasNames.

Variable sqrtQ : Q -> Q.
Context {TS : Type} (trial : Trial TS).

Lemma implicit_biases_loop_length names step : forall acc (w w' : world) bs,
  for_fold (fun implicit_biases '(weight_name, running_var_name, running_mean_name) =>
              weight ← value trial weight_name step;
              running_var ← value trial running_var_name step;
              running_mean ← value trial running_mean_name step;
              b ← np (implicit_bias sqrtQ weight running_var running_mean);
              mret (implicit_biases ++ [b]))
           acc names w = (Ok bs, w') ->
  length bs = (length acc + length names)%nat.
Proof.
  induction names as [|[[wn vn] mn] names IH]; intros acc w w' bs.
  - cbn. intros [= <- _]. lia.
  - cbn [for_fold]. intros E.
    match type of E with (?m ≫= ?f) w = _ =>
      destruct (m w) as [[acc' | e] w1] eqn:E1 end.
    + rewrite (M_bind_ok _ _ _ _ _ E1) in E. apply IH in E.
      assert (length acc' = S (length acc)) as El; [| cbn; lia].
      clear E IH. revert E1.
      unfold mbind, M_mbind, M_bind.
      destruct (value trial wn step w) as [[a1 | ?] w2]; [| done].
      destruct (value trial vn step w2) as [[a2 | ?] w3]; [| done].
      destruct (value trial mn step w3) as [[a3 | ?] w4]; [| done].
      unfold np. destruct (implicit_bias sqrtQ a1 a2 a3); [| done].
      intros [= <- _]. rewrite length_app. cbn. lia.
    + by rewrite (M_bind_raised _ _ _ _ _ E1) in E.
Qed.

(** X7 -- [compute_implicit_biases] goes through its three lists of names with
    [zip]: lists of different lengths raise nothing, the names past the
    length of the shortest list are not looked at, and the list returned
    has one tensor for each of the other names. *)
Theorem compute_implicit_biases_stops_at_shortest
    (bn_weights running_vars running_means : list string) (step : nat)
    (w : world) :
  let n := ((length bn_weights `min` length running_vars)
            `min` length running_means)%nat in
  compute_implicit_biases sqrtQ trial bn_weights running_vars running_means
    step w
  = compute_implicit_biases sqrtQ trial (take n bn_weights)
      (take n running_vars) (take n running_means) step w /\
  forall implicit_biases w',
    compute_implicit_biases sqrtQ trial bn_weights running_vars
      running_means step w = (Ok implicit_biases, w') ->
    length implicit_biases = n.
Proof.
  intros n. unfold compute_implicit_biases. split.
  - unfold n. by rewrite zip3_take.
  - intros bs w' E. apply implicit_biases_loop_length in E.
    rewrite E, length_zip3. done.
Qed.

End ImplicitBiasNames.

(** ** The cell that shows the names of the tensors *)

Lemma length_zip5 {A} (a b c d e : list A) :
  length (zip5 a b c d e)
  = (length a `min` (length b `min` (length c `min` (length d `min` length e))))%nat.
Proof. unfold zip5. rewrite !length_zip_with. lia. Qed.

Section NamesCell.

Variable sqrtQ : Q -> Q.
Context {TS : Type} (trial : Trial TS).

(** X8 -- The cell that prints the names shows the layers that the rendering
    loop goes through, and no other: it prints one line for each layer
    that [zip(gradients, biases, implicit_biases)] will yield, with the
    five names that stand at the position of the layer in their lists. *)
Theorem names_cell_shows_the_layers_rendered
    (biases gradients bn_weights running_vars running_means : list string)
    (step : nat) (w w' : world) (implicit_biases : list ndarray) :
  compute_implicit_biases sqrtQ trial bn_weights running_vars running_means
    step w = (Ok implicit_biases, w') ->
  length (names_cell biases gradients bn_weights running_vars running_means)
  = length (zip3 gradients biases implicit_biases) /\
  forall i line,
    names_cell biases gradients bn_weights running_vars running_means !! i
      = Some line ->
    exists bias gradient weight running_var running_mean implicit_bias,
      biases !! i = Some bias /\ gradients !! i = Some gradient /\
      bn_weights !! i = Some weight /\ running_vars !! i = Some running_var /\
      running_means !! i = Some running_mean /\
      zip3 gradients biases implicit_biases !! i
        = Some (gradient, bias, implicit_bias) /\
      line = print_names (bias, gradient, weight, running_var, running_mean).
Proof.
  intros E. unfold compute_implicit_biases in E.
  apply implicit_biases_loop_length in E as Hlen.
  rewrite length_zip3 in Hlen. cbn [length] in Hlen. split.
  - unfold names_cell. rewrite length_fmap, length_zip5, length_zip3. lia.
  - intros i line Hi. unfold names_cell, zip5 in Hi.
    rewrite list_lookup_fmap in Hi.
    destruct (zip (zip (zip (zip biases gradients) bn_weights) running_vars)
                running_means !! i) as [[[[[b g] wn] v] m] |] eqn:Ez; [| done].
    injection Hi as <-.
    apply lookup_zip_with_Some in Ez as (x4 & m' & [= <- <-] & Ez & Em).
    apply lookup_zip_with_Some in Ez as (x3 & v' & [= <- <-] & Ez & Ev).
    apply lookup_zip_with_Some in Ez as (x2 & w0 & [= <- <-] & Ez & Ew).
    apply lookup_zip_with_Some in Ez as (b' & g' & [= <- <-] & Eb & Eg).
    assert (i < length implicit_biases)%nat as Hlt.
    { apply lookup_lt_Some in Ew, Ev, Em. lia. }
    destruct (lookup_lt_is_Some_2 implicit_biases i Hlt) as [ib Eib].
    exists b, g, wn, v, m, ib. repeat (split; [done |]). split; [| done].
    unfold zip3. apply lookup_zip_with_Some. exists (g, b), ib.
    split; [done |]. split; [| done].
    apply lookup_zip_with_Some. by exists g, b.
Qed.

End NamesCell.

(** ** The shape of a saliency map *)

Lemma np_binop_shape f a b r :
  np_binop f a b = Ok r -> broadcast_shapes (shape a) (shape b) = Some (shape r).
Proof.
  unfold np_binop. destruct (broadcast_shapes (shape a) (shape b)) as [s |]; [| done].
  destruct (np_broadcast_to a s) as [a' |]; [| done]. cbn.
  destruct (np_broadcast_to b s) as [b' |]; [| done]. cbn. by intros [= <-].
Qed.

Lemma np_iadd_shape a b r : np_iadd a b = Ok r -> shape r = shape a.
Proof.
  unfold np_iadd. destruct (np_broadcast_to b (shape a)); [| done].
  cbn. by intros [= <-].
Qed.

Lemma np_sum_axis0_shape a r n rest :
  shape a = n :: rest -> np_sum_axis0 a = Ok r -> shape r = rest.
Proof. unfold np_sum_axis0. intros ->. by intros [= <-]. Qed.

Section MapShape.

Variable zoom : ndarray -> Q -> np_result ndarray.
Variable image_size : nat.

Lemma add_channel_shape bias_gradient saliency_map channel r :
  add_channel zoom image_size bias_gradient saliency_map channel = Ok r ->
  shape r = shape saliency_map.
Proof.
  unfold add_channel.
  destruct (channel_slice bias_gradient channel); [| done]. cbn.
  destruct (shape_at bias_gradient 2); [| done]. cbn.
  destruct (zoom_factor image_size _); [| done]. cbn.
  destruct (zoom _ _); [| done]. cbn. apply np_iadd_shape.
Qed.

Lemma layer_update_shape saliency_map gradient bias implicit_bias r :
  layer_update zoom image_size saliency_map gradient bias implicit_bias = Ok r ->
  shape r = shape saliency_map.
Proof.
  unfold layer_update.
  destruct (bias_gradient_of gradient bias implicit_bias) as [bg |]; [| done]. cbn.
  destruct (shape_at bg 1) as [channels |]; [| done]. cbn.
  generalize (range channels). intros l. revert saliency_map.
  induction l as [|ch l IH]; intros m; cbn.
  - by intros [= <-].
  - destruct (add_channel zoom image_size bg m ch) as [m' |] eqn:E; [| done].
    cbn. intros E'. rewrite (IH _ E'). by eapply add_channel_shape.
Qed.

(** X11 -- The saliency map of an image of [c] channels and [h] x [w] pixels is
    an [h] x [w] array, whatever the layers are and whatever sizes the
    zoom gives their channels: [+=] never changes the shape of the map it
    adds into, a channel that does not fit raises an exception. *)
Theorem full_gradient_has_the_shape_of_the_image
    (image image_gradient : ndarray)
    (layers : list (ndarray * ndarray * ndarray)) (c h w : nat) (m : ndarray) :
  shape image = [c; h; w] -> shape image_gradient = [c; h; w] ->
  full_gradient zoom image_size image image_gradient layers = Ok m ->
  shape m = [h; w].
Proof.
  intros Hi Hg. unfold full_gradient, accumulated_map.
  destruct (base_term image_gradient image) as [m0 |] eqn:E0; [| done].
  cbn [mbind result_mbind result_bind].
  assert (shape m0 = [h; w]) as H0.
  { revert E0. unfold base_term, np_mul.
    destruct (np_binop vmul image_gradient image) as [p |] eqn:Ep; [| done]. cbn.
    apply np_binop_shape in Ep. rewrite Hi, Hg, broadcast_shapes_same in Ep.
    injection Ep as Ep.
    destruct (normalize (np_abs p)) as [t |] eqn:Et; [| done]. cbn.
    apply normalize_ok in Et as (_ & Et & _). cbn in Et.
    apply np_sum_axis0_shape with (n := c). by rewrite Et, <- Ep. }
  clear E0. revert m0 H0.
  induction layers as [|[[gradient bias] implicit_bias] layers IH];
    intros m0 H0; cbn.
  - intros E. apply normalize_ok in E as (_ & E & _). by rewrite E.
  - destruct (layer_update zoom image_size m0 gradient bias implicit_bias)
      as [m1 |] eqn:E1; [| done].
    cbn. apply (IH m1).
    rewrite (layer_update_shape _ _ _ _ _ E1). exact H0.
Qed.

End MapShape.

(** ** More on the polling loop *)

Lemma strictly_ascending (l : list nat) :
  NoDup l -> StronglySorted Nat.le l ->
  forall i j a b, l !! i = Some a -> l !! j = Some b -> (i < j)%nat -> (a < b)%nat.
Proof.
  intros Hnd Hs. induction Hs as [|x l Hs IH Hx]; intros i j a b Hi Hj Hij.
  - by rewrite lookup_nil in Hi.
  - apply NoDup_cons in Hnd as [Hnx Hnd].
    destruct j as [|j]; [lia |]. cbn in Hj.
    destruct i as [|i].
    + injection Hi as <-. apply list_elem_of_lookup_2 in Hj.
      pose proof (proj1 (Forall_forall _ _) Hx b Hj).
      assert (x <> b) by (intros ->; done). lia.
    + cbn in Hi. apply (IH Hnd i j); [done | done | lia].
Qed.

(** X12 -- The [for] loop of a turn goes through the steps it renders in
    strictly ascending order, each of them once, in whatever order and
    however often the trial lists them. *)
Theorem steps_are_rendered_in_ascending_order
    (steps rendered_steps : list nat) (i j a b : nat) :
  sorted (steps_to_render steps rendered_steps) !! i = Some a ->
  sorted (steps_to_render steps rendered_steps) !! j = Some b ->
  (i < j)%nat -> (a < b)%nat.
Proof.
  apply strictly_ascending.
  - unfold sorted. rewrite merge_sort_Permutation.
    unfold steps_to_render. apply NoDup_elements.
  - unfold sorted. apply StronglySorted_merge_sort; apply _.
Qed.

Section PollingInvariants.

Variables sqrtQ expQ : Q -> Q.
Variable zoom : ndarray -> Q -> np_result ndarray.
Variable image_size : nat.
Context {TS : Type} (trial : Trial TS).
Variables bn_weights running_vars running_means gradients biases : list string.

Implicit Types (w : world (TS:=TS)) (e : exn).

Local Abbreviation iteration :=
  (poll_iteration sqrtQ expQ zoom image_size trial bn_weights running_vars
     running_means gradients biases).
Local Abbreviation loop :=
  (polling_loop sqrtQ expQ zoom image_size trial bn_weights running_vars
     running_means gradients biases).
Local Abbreviation turn :=
  (turn sqrtQ expQ zoom image_size trial bn_weights running_vars
     running_means gradients biases).

(** The flag a turn returns is the one read at its beginning. *)
Lemma poll_iteration_flag rendered_steps w flag rendered_steps' w' :
  iteration rendered_steps w = (Ok (flag, rendered_steps'), w') ->
  flag = (trial_loaded_all_steps trial (trial_state w)).1.
Proof.
  unfold poll_iteration. rewrite !on_trial_bind.
  cbn [trial_state output].
  unfold mbind at 1, M_mbind, M_bind.
  match goal with
  | |- context [for_fold ?b ?a ?l ?w0] =>
      destruct (for_fold b a l w0) as [[[] | e] w1]; [| done]
  end.
  cbn. by intros [= <- _ _].
Qed.

(** X13 -- As long as the trial lists every step that has been rendered, a turn
    leaves in [rendered_steps] the steps listed at its poll, each of them
    once. *)
Theorem rendered_steps_are_the_listed_steps rendered_steps w rendered_steps' w' :
  turn (rendered_steps, w) (rendered_steps', w') ->
  NoDup rendered_steps ->
  (forall x, x ∈ rendered_steps -> x ∈ listed_steps trial w) ->
  NoDup rendered_steps' /\
  forall x, x ∈ rendered_steps' <-> x ∈ listed_steps trial w.
Proof.
  intros [flag Hturn] Hnd Hsub. cbn in Hturn.
  rewrite (poll_iteration_rendered _ _ _ _ _ _ _ _ _ _ _ _ _ _ _ Hturn).
  split.
  - apply NoDup_app. split; [done |]. split.
    + intros x Hx Hx'. apply steps_to_render_spec in Hx' as [[_ ?] | [_ Hn]]; [done |].
      by apply Hn, Hsub.
    + apply NoDup_elements.
  - intros x. rewrite elem_of_app, steps_to_render_spec.
    pose proof (Hsub x). destruct (decide (x ∈ rendered_steps)); tauto.
Qed.

(** X14 -- The polling loop ends without an exception only when the trial has
    said that all steps are loaded: on a trial that never says so, the
    loop is left by an exception or not at all. *)
Theorem polling_loop_ends_by_the_flag_only :
  (forall s, (trial_loaded_all_steps trial s).1 = false) ->
  forall fuel rendered_steps w r w',
    polling_loop sqrtQ expQ zoom image_size trial bn_weights running_vars
      running_means gradients biases fuel false rendered_steps w
    = Some (r, w') ->
    exists e, r = Raised e.
Proof.
  intros Hflag. induction fuel as [|fuel IH]; intros rendered_steps w r w'; [done |].
  cbn [polling_loop].
  destruct (iteration rendered_steps w) as [[[flag rendered_steps'] | e] w1] eqn:E.
  - rewrite (poll_iteration_flag _ _ _ _ _ E), Hflag. apply IH.
  - intros [= <- _]. eauto.
Qed.

(** X15 -- The last turn: when the flag read at the beginning of a turn says that
    all steps are loaded, the turn still lists the steps and renders them,
    and the loop ends after it; every step listed at that poll is in
    [rendered_steps] at the end. *)
Theorem polling_loop_makes_a_last_pass fuel rendered_steps w rendered_steps' w' :
  iteration rendered_steps w = (Ok (true, rendered_steps'), w') ->
  polling_loop sqrtQ expQ zoom image_size trial bn_weights running_vars
    running_means gradients biases (S fuel) false rendered_steps w
  = Some (Ok rendered_steps',
          {| trial_state := trial_state w';
             output := output w' ++ [Printed Done] |}) /\
  forall x, x ∈ listed_steps trial w -> x ∈ rendered_steps'.
Proof.
  intros E. split.
  - cbn [polling_loop]. rewrite E. by destruct fuel.
  - intros x Hx.
    rewrite (poll_iteration_rendered _ _ _ _ _ _ _ _ _ _ _ _ _ _ _ E).
    rewrite elem_of_app, steps_to_render_spec.
    destruct (decide (x ∈ rendered_steps)); tauto.
Qed.

End PollingInvariants.

(** ** The waiting cell and the exceptions of the polling loop *)

(** X16 -- The waiting cell on any trial: one call of [trial.steps()], one line,
    one sleep of 3 seconds, and the two lines that follow the loop,
    whatever list of steps the call returns. *)
Theorem waiting_cell_makes_one_turn {TS} (trial : Trial TS) (fuel : nat)
    (w : world) :
  waiting_cell trial (S fuel) w
  = Some (Ok (PyList (trial_steps trial GLOBAL (trial_state w)).1),
          {| trial_state := (trial_steps trial GLOBAL (trial_state w)).2;
             output := output w ++ [Printed WaitingForTensors; Slept 3;
                                    Printed Done; Printed GettingTensors] |}).
Proof.
  unfold waiting_cell. rewrite waiting_loop_one_turn.
  unfold mbind, M_mbind, M_bind, print, emit, mret, M_mret.
  cbn [trial_state output]. by rewrite <- !app_assoc.
Qed.

Section PollingExceptions.

Variables sqrtQ expQ : Q -> Q.
Variable zoom : ndarray -> Q -> np_result ndarray.
Variable image_size : nat.
Context {TS : Type} (trial : Trial TS).
Variables bn_weights running_vars running_means gradients biases : list string.

Implicit Types (w : world (TS:=TS)) (e : exn).

Local Abbreviation render :=
  (render_step sqrtQ expQ zoom image_size trial bn_weights running_vars
     running_means gradients biases).
Local Abbreviation iteration :=
  (poll_iteration sqrtQ expQ zoom image_size trial bn_weights running_vars
     running_means gradients biases).
Local Abbreviation loop :=
  (polling_loop sqrtQ expQ zoom image_size trial bn_weights running_vars
     running_means gradients biases).

Lemma render_step_catches step w e w' :
  render step w = (Raised e, w') -> e <> TensorUnavailableForStep.
Proof.
  unfold render_step.
  destruct (render_step_body _ _ _ _ _ _ _ _ _ _ step w) as [[[] | e0] w0];
    [done |].
  destruct e0; [done | | ]; by intros [= <- _].
Qed.

Lemma render_steps_catch steps : forall w e w',
  for_fold (fun _ step => render step) tt steps w = (Raised e, w') ->
  e <> TensorUnavailableForStep.
Proof.
  induction steps as [|step steps IH]; intros w e w'; [done |].
  destruct (render step w) as [[[] | e0] w0] eqn:E.
  - rewrite (for_fold_cons_ok _ _ _ _ _ _ _ E). apply IH.
  - rewrite (for_fold_cons_raised _ _ _ _ _ _ _ E). intros [= <- _].
    by eapply render_step_catches.
Qed.

Lemma poll_iteration_catches rendered_steps w e w' :
  iteration rendered_steps w = (Raised e, w') -> e <> TensorUnavailableForStep.
Proof.
  unfold poll_iteration. rewrite !on_trial_bind. cbn [trial_state output].
  unfold mbind at 1, M_mbind, M_bind.
  match goal with
  | |- context [for_fold ?b ?a ?l ?w0] =>
      destruct (for_fold b a l w0) as [[[] | e0] w1] eqn:E
  end.
  - done.
  - intros [= <- _]. by eapply render_steps_catch.
Qed.

(** X17 -- A tensor that is not available never ends the polling loop: the
    exception is caught in the [for] loop, and whatever exception the
    loop ends with is another one. *)
Theorem polling_loop_never_ends_with_tensor_unavailable
    fuel loaded_all_steps rendered_steps w e w' :
  polling_loop sqrtQ expQ zoom image_size trial bn_weights running_vars
    running_means gradients biases fuel loaded_all_steps rendered_steps w
  = Some (Raised e, w') ->
  e <> TensorUnavailableForStep.
Proof.
  revert loaded_all_steps rendered_steps w.
  induction fuel as [|fuel IH]; intros flag rendered_steps w.
  - cbn. by destruct flag.
  - cbn [polling_loop]. destruct flag; [done |].
    destruct (iteration rendered_steps w) as [[[flag' rendered_steps'] | e0] w0] eqn:E.
    + apply IH.
    + intros [= <- _]. by eapply poll_iteration_catches.
Qed.

End PollingExceptions.

(** ** The cell that waits for the training job *)

Section TrainingJob.

Context {CS : Type}.
Variable client : JobStatus.Client CS.
Variable job_name : string.

Implicit Types (d : JobStatus.response) (w : JobStatus.world CS).

Lemma training_or_completed_spec s :
  JobStatus.training_or_completed s = true <-> s = "Training" \/ s = "Completed".
Proof.
  unfold JobStatus.training_or_completed.
  rewrite orb_true_iff, !String.eqb_eq. done.
Qed.

(** One turn of the loop: a call, a line and a sleep of 15 seconds. *)
Lemma poll_ok w d w' :
  JobStatus.poll client job_name w = (Ok d, w') ->
  (JobStatus.describe_training_job client job_name (JobStatus.client_state w)).1
    = Ok d /\
  JobStatus.output w' = JobStatus.output w ++ JobStatus.reported d /\
  JobStatus.reported d <> [].
Proof.
  unfold JobStatus.poll, JobStatus.describe, JobStatus.reported, JobStatus.pure,
    JobStatus.getitem, mbind, JobStatus.M_mbind, JobStatus.M_bind.
  destruct (JobStatus.describe_training_job client job_name _) as [[d0 | e] s];
    [| done].
  destruct (d0 !! "TrainingJobStatus") as [p |] eqn:E1; [| done].
  destruct (d0 !! "SecondaryStatus") as [s2 |] eqn:E2; [| done].
  cbn. intros [= <- <-]. cbn. rewrite E1, E2, <- app_assoc. done.
Qed.

Lemma status_loop_ok fuel : forall d w d' w',
  JobStatus.status_loop client job_name fuel d w = Some (Ok d', w') ->
  JobStatus.ready d' /\
  exists ds,
    JobStatus.output w' = JobStatus.output w ++ (ds ≫= JobStatus.reported) /\
    last (d :: ds) = Some d'.
Proof.
  induction fuel as [|fuel IH]; intros d w d' w'.
  - cbn. unfold JobStatus.getitem.
    destruct (d !! "SecondaryStatus") as [s |] eqn:Es; [| done].
    destruct (JobStatus.training_or_completed s) eqn:E; [| done].
    intros [= <- <-]. split.
    + exists s. by rewrite <- training_or_completed_spec.
    + exists []. cbn. by rewrite app_nil_r.
  - cbn [JobStatus.status_loop]. unfold JobStatus.getitem.
    destruct (d !! "SecondaryStatus") as [s |] eqn:Es; [| done].
    destruct (JobStatus.training_or_completed s) eqn:E.
    + intros [= <- <-]. split.
      * exists s. by rewrite <- training_or_completed_spec.
      * exists []. cbn. by rewrite app_nil_r.
    + destruct (JobStatus.poll client job_name w) as [[d1 | e] w1] eqn:Ep; [| done].
      intros H. apply IH in H as (Hready & ds & Hout & Hlast).
      apply poll_ok in Ep as (_ & Hout1 & _).
      split; [done |]. exists (d1 :: ds). split.
      * rewrite Hout, Hout1, <- app_assoc. done.
      * done.
Qed.

(** X18 -- When the cell ends without an exception, the job is completed and
    nothing has been asked or printed, or the last description has the
    secondary status ['Training'] or ['Completed']; every call of
    [describe_training_job] has left one status line and one sleep of 15
    seconds in the output. *)
Theorem status_cell_ends_when_the_job_is_ready fuel d w d' w' :
  JobStatus.status_cell client job_name fuel d w = Some (Ok d', w') ->
  (d !! "TrainingJobStatus" = Some "Completed" /\ d' = d /\ w' = w) \/
  (JobStatus.ready d' /\
   exists ds,
     JobStatus.output w' = JobStatus.output w ++ (ds ≫= JobStatus.reported) /\
     last (d :: ds) = Some d').
Proof.
  unfold JobStatus.status_cell, JobStatus.getitem.
  destruct (d !! "TrainingJobStatus") as [p |]; [| done].
  destruct (String.eqb p "Completed") eqn:E.
  - apply String.eqb_eq in E as ->. intros [= <- <-]. by left.
  - intros H. right. by apply status_loop_ok in H.
Qed.

(** X19 -- A job that never reaches ['Training'] keeps the cell waiting: when
    every response, and the description the cell starts with, show a job
    that is neither completed nor in training (a job that has failed or
    has been stopped, for one), the loop does not end. *)
Theorem status_cell_waits_forever_for_a_failed_job d :
  JobStatus.pending d ->
  (forall s, exists d' s',
     JobStatus.describe_training_job client job_name s = (Ok d', s') /\
     JobStatus.pending d') ->
  forall fuel w, JobStatus.status_cell client job_name fuel d w = None.
Proof.
  intros Hd Hclient fuel w.
  assert (forall fuel d w, JobStatus.pending d ->
            JobStatus.status_loop client job_name fuel d w = None) as Hloop.
  { clear d Hd fuel w. induction fuel as [|fuel IH];
      intros d w (p & s & Ep & Hp & Es & Hs).
    - cbn. unfold JobStatus.getitem. by rewrite Es, Hs.
    - cbn [JobStatus.status_loop]. unfold JobStatus.getitem. rewrite Es, Hs.
      destruct (Hclient (JobStatus.client_state w))
        as (d1 & s1 & E1 & (p1 & s2 & Ep1 & Hp1 & Es1 & Hs1)).
      unfold JobStatus.poll, JobStatus.describe, JobStatus.pure,
        JobStatus.getitem, mbind, JobStatus.M_mbind, JobStatus.M_bind.
      rewrite E1, Ep1, Es1. cbn. apply IH. by exists p1, s2. }
  unfold JobStatus.status_cell, JobStatus.getitem.
  destruct Hd as (p & s & Ep & Hp & Es & Hs). rewrite Ep.
  destruct (String.eqb p "Completed") eqn:E.
  - by apply String.eqb_eq in E.
  - apply Hloop. by exists p, s.
Qed.

End TrainingJob.

Lemma status_loop_pending {CS} (client : JobStatus.Client CS) job_name fuel d w :
  JobStatus.pending d ->
  JobStatus.status_loop client job_name (S fuel) d w
  = match JobStatus.poll client job_name w with
    | (Ok d1, w') => JobStatus.status_loop client job_name fuel d1 w'
    | (Raised e, w') => Some (Raised e, w')
    end.
Proof.
  intros (p & s & Ep & Hp & Es & Hs). cbn [JobStatus.status_loop].
  unfold JobStatus.getitem. by rewrite Es, Hs.
Qed.

Lemma status_loop_ready {CS} (client : JobStatus.Client CS) job_name fuel d w :
  JobStatus.ready d ->
  JobStatus.status_loop client job_name fuel d w = Some (Ok d, w).
Proof.
  intros (s & Es & Hs). apply training_or_completed_spec in Hs.
  destruct fuel; cbn [JobStatus.status_loop]; unfold JobStatus.getitem;
    by rewrite Es, Hs.
Qed.

Lemma poll_scripted job_name d rest o :
  is_Some (d !! "TrainingJobStatus") -> is_Some (d !! "SecondaryStatus") ->
  JobStatus.poll JobStatus.scripted job_name
    {| JobStatus.client_state := d :: rest; JobStatus.output := o |}
  = (Ok d, {| JobStatus.client_state := rest;
              JobStatus.output := o ++ JobStatus.reported d |}).
Proof.
  intros [p Ep] [s Es].
  unfold JobStatus.poll, JobStatus.describe, JobStatus.pure, JobStatus.reported,
    JobStatus.getitem, mbind, JobStatus.M_mbind, JobStatus.M_bind.
  cbn. rewrite Ep, Es. cbn. by rewrite <- app_assoc.
Qed.

(** X20 -- On responses that show a job on its way and then a job in training
    (or completed), the cell ends after the call that gets the last of
    them, with one line and one sleep for each response. *)
Theorem status_cell_ends_after_the_first_ready_response
    (job_name : string) (d : JobStatus.response)
    (ds : list JobStatus.response) (d' : JobStatus.response)
    (rest : list JobStatus.response) (o : list JobStatus.event) :
  JobStatus.pending d -> Forall JobStatus.pending ds ->
  JobStatus.ready d' -> is_Some (d' !! "TrainingJobStatus") ->
  JobStatus.status_cell JobStatus.scripted job_name (S (length ds)) d
    {| JobStatus.client_state := ds ++ d' :: rest; JobStatus.output := o |}
  = Some (Ok d',
          {| JobStatus.client_state := rest;
             JobStatus.output := o ++ ((ds ++ [d']) ≫= JobStatus.reported) |}).
Proof.
  intros Hd Hds Hd' Hp'.
  unfold JobStatus.status_cell, JobStatus.getitem.
  pose proof Hd as (p & s & Ep & Hp & Es & Hs). rewrite Ep.
  destruct (String.eqb p "Completed") eqn:E; [by apply String.eqb_eq in E |].
  clear p s Ep Hp Es Hs E. revert d Hd o.
  induction Hds as [|d1 ds Hd1 Hds IH]; intros d Hd o.
  - cbn [length app]. rewrite status_loop_pending by done.
    rewrite poll_scripted; [| done | destruct Hd' as (s & -> & _); eauto].
    rewrite status_loop_ready by done. cbn. by rewrite !app_nil_r.
  - cbn [length app]. rewrite status_loop_pending by done.
    rewrite poll_scripted;
      [| destruct Hd1 as (? & ? & -> & _); eauto
       | destruct Hd1 as (? & ? & _ & _ & -> & _); eauto].
    rewrite IH by done. do 3 f_equal. cbn. by rewrite <- !app_assoc.
Qed.

(** ** [upload_to_s3] *)

Section UploadStrings.

Import Stdlib.Strings.Ascii.

Lemma replace_app old new a b :
  Upload.replace old new (a +:+ b)
  = Upload.replace old new a +:+ Upload.replace old new b.
Proof.
  induction a as [|c a IH]; [done |]. simpl. by rewrite IH.
Qed.

Lemma split_not_nil sep s : Upload.split sep s <> [].
Proof.
  destruct s as [|c r]; cbn; [done |].
  destruct (Ascii.eqb c sep); [done |]. by destruct (Upload.split sep r).
Qed.

Lemma last_item_cons x l : l <> [] -> Upload.last_item (x :: l) = Upload.last_item l.
Proof. unfold Upload.last_item. by destruct l. Qed.

Lemma split_app_two sep a b :
  (2 <= length (Upload.split sep (a +:+ String sep b)))%nat.
Proof.
  induction a as [|c a IH]; simpl.
  - rewrite Ascii.eqb_refl. cbn [length].
    pose proof (split_not_nil sep b). destruct (Upload.split sep b); [done | cbn; lia].
  - destruct (Ascii.eqb c sep); [cbn [length]; lia |].
    destruct (Upload.split sep (a +:+ String sep b)) as [|x xs]; cbn [length] in *; lia.
Qed.

(** What comes after the last separator does not depend on what comes
    before it. *)
Lemma last_item_split_app sep a b :
  Upload.last_item (Upload.split sep (a +:+ String sep b))
  = Upload.last_item (Upload.split sep b).
Proof.
  induction a as [|c a IH]; simpl.
  - rewrite Ascii.eqb_refl. apply last_item_cons, split_not_nil.
  - destruct (Ascii.eqb c sep).
    + rewrite last_item_cons by apply split_not_nil. exact IH.
    + pose proof (split_app_two sep a b) as H2.
      destruct (Upload.split sep (a +:+ String sep b)) as [|x [|y xs]];
        cbn in H2; try lia.
      rewrite <- IH. done.
Qed.

Lemma endswith_app c a :
  Upload.endswith c a = true -> exists x, a = x +:+ String c EmptyString.
Proof.
  induction a as [|c' a IH]; [done |]. cbn.
  destruct a as [|c'' a].
  - intros E. apply Ascii.eqb_eq in E as ->. by exists EmptyString.
  - intros E. destruct (IH E) as [x ->]. by exists (String c' x).
Qed.

Lemma app_assoc_string (a b c : string) : (a +:+ b) +:+ c = a +:+ (b +:+ c).
Proof.
  induction a as [|x a IH]; [done |].
  change (String x ((a +:+ b) +:+ c) = String x (a +:+ (b +:+ c))).
  by rewrite IH.
Qed.

Lemma entry_name_no_slash name :
  Upload.entry_name name -> Upload.startswith "/" name = false.
Proof.
  unfold Upload.entry_name. destruct name as [|c r]; [done |]. cbn.
  destruct (Ascii.eqb c "/") eqn:E; [| done].
  intros H. discriminate H.
Qed.

(** X21 -- The key of a file in a subdirectory has the name of the subdirectory
    and nothing of the directories above it: [path.split("/")[-1]] keeps
    the last component of the path only.  Two subdirectories of the same
    name, wherever they are in the tree, are uploaded to the same keys. *)
Theorem keys_keep_the_last_directory_only
    (directory_name parent name file : string) :
  Upload.entry_name name ->
  Upload.key_of directory_name
    (Upload.replace "\" "/" (Upload.join parent name)) file
  = Upload.key_of directory_name (Upload.replace "\" "/" name) file.
Proof.
  intros Hname. unfold Upload.key_of. do 3 f_equal.
  unfold Upload.join. rewrite (entry_name_no_slash name Hname).
  destruct (String.eqb parent "") eqn:Ep.
  { apply String.eqb_eq in Ep as ->. done. }
  cbn [orb]. destruct (Upload.endswith "/" parent) eqn:Ee.
  - destruct (endswith_app _ _ Ee) as [x ->].
    rewrite app_assoc_string. cbn [String.append].
    rewrite replace_app. cbn [Upload.replace]. cbn [Ascii.eqb Bool.eqb].
    apply last_item_split_app.
  - rewrite replace_app. cbn [String.append Upload.replace].
    cbn [Ascii.eqb Bool.eqb]. apply last_item_split_app.
Qed.

End UploadStrings.

Lemma slice_to_minus_one {A} (l : list A) : Upload.slice_to l (-1) = removelast l.
Proof.
  unfold Upload.slice_to. cbn [Z.ltb Z.compare].
  replace (Z.to_nat (Z.max 0 (Z.of_nat (length l) + -1))) with (length l - 1)%nat by lia.
  induction l as [|x [|y l] IH]; try done.
  cbn [length removelast] in *. rewrite <- IH. cbn. by rewrite Nat.sub_0_r.
Qed.

Lemma slice_to_nonnegative {A} (l : list A) (stop : Z) :
  (0 <= stop)%Z -> Upload.slice_to l stop = take (Z.to_nat stop) l.
Proof.
  intros H. unfold Upload.slice_to.
  rewrite (proj2 (Z.ltb_ge stop 0) H).
  destruct (decide (stop <= Z.of_nat (length l))%Z).
  - by rewrite Z.min_l.
  - rewrite Z.min_r, Nat2Z.id by lia. rewrite !take_ge; [done | lia | lia].
Qed.

Section UploadRuns.

Import Stdlib.Strings.Ascii.

Context {CS : Type}.
Variable client : Upload.Client CS.
Variable fs : string -> option Upload.dir.
Hypothesis client_accepts : Upload.accepts client.

Implicit Types (w : Upload.world CS).

Lemma upload_bind_ok {A B} (m : Upload.M CS A) (f : A -> Upload.M CS B) w a w' :
  m w = (Ok a, w') -> (m ≫= f) w = f a w'.
Proof. intros E. unfold mbind, Upload.M_mbind, Upload.M_bind. by rewrite E. Qed.

Lemma call_upload_file_ok filename bucket key w :
  exists s',
    Upload.call_upload_file client filename bucket key w
    = (Ok tt, {| Upload.client_state := s';
                 Upload.output := Upload.output w ++
                   [Upload.Uploaded filename bucket key] |}).
Proof.
  unfold Upload.call_upload_file.
  destruct (client_accepts filename bucket key (Upload.client_state w)) as [s' ->].
  by exists s'.
Qed.

Lemma upload_files_ok path directory_name bucket files : forall w,
  exists s',
    for_fold (fun _ file =>
                Upload.call_upload_file client (Upload.join path file) bucket
                  (Upload.key_of directory_name path file)) tt files w
    = (Ok tt,
       {| Upload.client_state := s';
          Upload.output := Upload.output w ++
            ((fun file => Upload.Uploaded (Upload.join path file) bucket
                            (Upload.key_of directory_name path file)) <$> files) |}).
Proof.
  induction files as [|file files IH]; intros w.
  - exists (Upload.client_state w). cbn. rewrite app_nil_r. by destruct w.
  - destruct (call_upload_file_ok (Upload.join path file) bucket
                (Upload.key_of directory_name path file) w) as [s1 E1].
    cbn [for_fold]. rewrite (upload_bind_ok _ _ _ _ _ E1).
    destruct (IH {| Upload.client_state := s1;
                    Upload.output := Upload.output w ++
                      [Upload.Uploaded (Upload.join path file) bucket
                         (Upload.key_of directory_name path file)] |})
      as [s' E2].
    exists s'. rewrite E2. cbn. by rewrite <- app_assoc.
Qed.

Lemma upload_directories_ok directory_name bucket counter
    (dirs : list (string * list string * list string)) : forall w,
  exists s',
    for_fold (fun _ '(path, subdirs, files) =>
                let path := Upload.replace "\" "/" path in
                Upload.print path;;
                for_fold (fun _ file =>
                            Upload.call_upload_file client (Upload.join path file)
                              bucket (Upload.key_of directory_name path file))
                         tt (Upload.slice_to files counter))
             tt dirs w
    = (Ok tt,
       {| Upload.client_state := s';
          Upload.output := Upload.output w ++
            (dirs ≫= fun '(path, _, files) =>
               Upload.directory_events directory_name bucket path
                 (Upload.slice_to files counter)) |}).
Proof.
  induction dirs as [|[[path subdirs] files] dirs IH]; intros w.
  - exists (Upload.client_state w). cbn. rewrite app_nil_r. by destruct w.
  - destruct (upload_files_ok (Upload.replace "\" "/" path) directory_name bucket
                (Upload.slice_to files counter)
                {| Upload.client_state := Upload.client_state w;
                   Upload.output := Upload.output w ++
                     [Upload.Printed (Upload.replace "\" "/" path)] |})
      as [s1 E1].
    cbn [for_fold]. erewrite upload_bind_ok; cycle 1.
    { cbv zeta. erewrite upload_bind_ok; [exact E1 | done]. }
    match goal with |- exists _, for_fold _ _ _ ?w1 = _ =>
      destruct (IH w1) as [s' E2] end.
    exists s'. etrans; [exact E2 |]. cbn. unfold Upload.directory_events.
    by rewrite <- !app_assoc.
Qed.

Lemma upload_to_s3_output path directory_name bucket counter w :
  exists s',
    Upload.upload_to_s3 client fs path directory_name bucket counter w
    = (Ok tt,
       {| Upload.client_state := s';
          Upload.output := Upload.output w ++
            Upload.Printed ("Upload files from" +:+ path +:+ " to " +:+ bucket) ::
            (Upload.os_walk fs path ≫= fun '(path, _, files) =>
               Upload.directory_events directory_name bucket path
                 (Upload.slice_to files counter)) |}).
Proof.
  unfold Upload.upload_to_s3. erewrite upload_bind_ok; [| done].
  match goal with |- exists _, for_fold _ _ ?l ?w1 = _ =>
    destruct (upload_directories_ok directory_name bucket counter l w1) as [s' E] end.
  exists s'. etrans; [exact E |]. cbn. by rewrite <- app_assoc.
Qed.

Lemma bind_ext_walk {B} (f g : string * list string * list string -> list B) l :
  (forall x, f x = g x) -> l ≫= f = l ≫= g.
Proof. intros H. induction l as [|x l IH]; cbn; [done | by rewrite H, IH]. Qed.

(** X22 -- With the default [counter=-1] the slice [files[0:counter]] leaves out
    the last file of every directory: when the client accepts the
    uploads, the function prints its first line and, for every directory
    of the walk, the path and one upload for each file but the last one. A
    directory with one file uploads nothing. *)
Theorem upload_to_s3_default_skips_the_last_file path directory_name bucket w :
  exists s',
    Upload.upload_to_s3 client fs path directory_name bucket (-1) w
    = (Ok tt,
       {| Upload.client_state := s';
          Upload.output := Upload.output w ++
            Upload.Printed ("Upload files from" +:+ path +:+ " to " +:+ bucket) ::
            (Upload.os_walk fs path ≫= fun '(path, _, files) =>
               Upload.directory_events directory_name bucket path
                 (removelast files)) |}).
Proof.
  destruct (upload_to_s3_output path directory_name bucket (-1) w) as [s' E].
  exists s'. rewrite E. do 4 f_equal. apply bind_ext_walk.
  intros [[p subdirs] files]. by rewrite slice_to_minus_one.
Qed.

(** X23 -- With a [counter] that is not negative, the first [counter] files of
    every directory are uploaded, in the order of the listing, and no
    other file. *)
Theorem upload_to_s3_uploads_the_first_files
    path directory_name bucket (counter : Z) w :
  (0 <= counter)%Z ->
  exists s',
    Upload.upload_to_s3 client fs path directory_name bucket counter w
    = (Ok tt,
       {| Upload.client_state := s';
          Upload.output := Upload.output w ++
            Upload.Printed ("Upload files from" +:+ path +:+ " to " +:+ bucket) ::
            (Upload.os_walk fs path ≫= fun '(path, _, files) =>
               Upload.directory_events directory_name bucket path
                 (take (Z.to_nat counter) files)) |}).
Proof.
  intros Hc.
  destruct (upload_to_s3_output path directory_name bucket counter w) as [s' E].
  exists s'. rewrite E. do 4 f_equal. apply bind_ext_walk.
  intros [[p subdirs] files]. by rewrite slice_to_nonnegative.
Qed.

End UploadRuns.

(** ** [relu_inplace] *)

Section ReluInplace.

Import Relu.

Implicit Types (h : heap) (obj : module) (e : string * option addr).

Lemma elem_of_child_addresses obj c :
  c ∈ child_addresses obj <-> exists name, (name, Some c) ∈ modules obj.
Proof.
  unfold child_addresses. rewrite list_elem_of_omap. split.
  - intros ([name o] & Hin & Ho). cbn in Ho. subst. eauto.
  - intros [name H]. by exists (name, Some c).
Qed.

Lemma child_valid h a obj name c :
  well_formed h -> h !! a = Some obj -> (name, Some c) ∈ modules obj ->
  (c < length h)%nat.
Proof.
  intros Hwf Ha Hin. destruct (Hwf a obj Ha) as (_ & _ & Hlt).
  apply Hlt, elem_of_child_addresses. eauto.
Qed.

Lemma is_relu_class obj obj' :
  class_of obj' = class_of obj -> is_relu obj' = is_relu obj.
Proof. unfold is_relu. by intros ->. Qed.

Lemma is_relu_inplace obj : class_of obj = ReLU true -> is_relu obj = true.
Proof. unfold is_relu. by intros ->. Qed.

Lemma architecture_kept_refl h : architecture_kept h h.
Proof.
  split; [done |]. split; [| intros a Ha; lia].
  intros a obj Ha. exists obj. split; [done |]. split; [done |].
  apply Forall_Forall2_diag, Forall_forall. intros e _. split; [done | by left].
Qed.

Lemma Forall2_compose {A} (R1 R2 R3 : A -> A -> Prop) (l1 l2 l3 : list A) :
  (forall x y z, x ∈ l1 -> R1 x y -> R2 y z -> R3 x z) ->
  Forall2 R1 l1 l2 -> Forall2 R2 l2 l3 -> Forall2 R3 l1 l3.
Proof.
  intros H H12. revert l3 H. induction H12 as [|x y l1 l2 Hxy _ IH];
    intros l3 H H23; inversion H23 as [|? z ? l3' Hyz H23']; subst;
    constructor.
  - eapply H; [apply list_elem_of_here | done ..].
  - apply IH; [| done]. intros x' y' z' Hx'. apply H. by apply list_elem_of_further.
Qed.

(** An address of the old heap keeps its object, with its class. *)
Lemma architecture_kept_lookup h h' a obj :
  architecture_kept h h' -> h !! a = Some obj ->
  exists obj', h' !! a = Some obj' /\ class_of obj' = class_of obj /\
               Forall2 (entry_kept_or_replaced h h') (modules obj) (modules obj').
Proof. intros (_ & H & _). apply H. Qed.

Lemma architecture_kept_trans h1 h2 h3 :
  well_formed h1 ->
  architecture_kept h1 h2 -> architecture_kept h2 h3 -> architecture_kept h1 h3.
Proof.
  intros Hwf H12 H23.
  pose proof H12 as (Hl12 & Ho12 & Hn12). pose proof H23 as (Hl23 & Ho23 & Hn23).
  split; [lia |]. split.
  - intros a obj Ha.
    destruct (Ho12 a obj Ha) as (obj2 & Ha2 & Hc2 & Hm2).
    destruct (Ho23 a obj2 Ha2) as (obj3 & Ha3 & Hc3 & Hm3).
    exists obj3. split; [done |]. split; [congruence |].
    eapply Forall2_compose; [| exact Hm2 | exact Hm3].
    intros e1 e2 e3 Hin [Hn1 Hv1] [Hn2 Hv2]. split; [congruence |].
    destruct Hv2 as [Hv2 | (r & n & c & Er & En & Hr & Hc & Hlen & Hnew)].
    + rewrite Hv2. destruct Hv1 as [Hv1 | (r & n & c & Er & En & Hr & Hc & Hlen & Hnew)];
        [by left |].
      right. exists r, n, c. repeat (split; [done |]).
      destruct (Ho23 n new_relu Hnew) as (obj' & Hn' & Hc' & Hm').
      inversion Hm' as [E |]. rewrite Hn'. f_equal.
      destruct obj' as [cl ms]. cbn in *. by subst.
    + destruct Hv1 as [Hv1 | (r1 & n1 & c1 & Er1 & En1 & Hr1 & Hc1 & Hlen1 & Hnew1)].
      * right. rewrite Hv1 in Er.
        assert (r < length h1)%nat as Hlt.
        { destruct e1 as [name o]. cbn in Er. subst o.
          by eapply child_valid. }
        destruct (lookup_lt_is_Some_2 h1 r Hlt) as [c1 Hc1].
        destruct (Ho12 r c1 Hc1) as (c2 & Hc2' & Hcl & _).
        assert (c2 = c) by congruence. subst c2.
        exists r, n, c1. repeat (split; [done |]).
        split; [by rewrite <- (is_relu_class c1 c) |]. split; [lia | done].
      * right. exists r1, n, c1. repeat (split; [done |]). split; [lia | done].
  - intros a [Hge Hlt]. destruct (decide (a < length h2)%nat) as [Hlt2 | Hge2].
    + destruct (Ho23 a new_relu (Hn12 a (conj Hge Hlt2))) as (obj' & Hn' & Hc' & Hm').
      inversion Hm' as [E |]. rewrite Hn'. f_equal.
      destruct obj' as [cl ms]. cbn in *. by subst.
    + apply Hn23. lia.
Qed.

(** The calls of [relu_inplace] in the new heap are calls in the old
    one. *)
Lemma calls_kept h h' x y :
  well_formed h -> architecture_kept h h' -> calls h' x y -> calls h x y.
Proof.
  intros Hwf Hk (obj' & c' & Hx' & Hy & Hc' & Hrelu).
  pose proof Hk as (Hl & Ho & Hn).
  destruct (decide (x < length h)%nat) as [Hlt | Hge].
  2: { rewrite Hn in Hx' by (split; [lia | by eapply lookup_lt_Some]).
       injection Hx' as <-. by apply elem_of_nil in Hy. }
  destruct (lookup_lt_is_Some_2 h x Hlt) as [obj Hx].
  destruct (Ho x obj Hx) as (obj'' & Hx'' & _ & Hm).
  assert (obj'' = obj') by congruence. subst obj''.
  apply elem_of_child_addresses in Hy as [name Hin].
  apply list_elem_of_lookup in Hin as [i Hi].
  destruct (Forall2_lookup_r _ _ _ _ _ Hm Hi) as ([name0 o] & Hi0 & Hn0 & Hv).
  cbn in Hn0, Hv. destruct Hv as [Hv | (r & n & c & Er & En & Hr & Hc & Hlen & Hnew)].
  - subst o. assert ((name0, Some y) ∈ modules obj) as Hin0
      by (apply list_elem_of_lookup; eauto).
    assert (y < length h)%nat as Hylt by (by eapply child_valid).
    destruct (lookup_lt_is_Some_2 h y Hylt) as [c Hc].
    destruct (Ho y c Hc) as (c'' & Hc'' & Hcl & _).
    assert (c'' = c') by congruence. subst c''.
    exists obj, c. split; [done |]. split; [apply elem_of_child_addresses; eauto |].
    split; [done |]. by rewrite <- (is_relu_class c c').
  - injection En as <-. rewrite Hnew in Hc'. by injection Hc' as <-.
Qed.

Lemma has_inplace_relu_kept h h' b :
  well_formed h -> architecture_kept h h' ->
  has_inplace_relu h' b -> has_inplace_relu h b.
Proof.
  intros Hwf Hk (obj' & r & c' & Hb' & Hr & Hc' & Hcl').
  pose proof Hk as (Hl & Ho & Hn).
  destruct (decide (b < length h)%nat) as [Hlt | Hge].
  2: { rewrite Hn in Hb' by (split; [lia | by eapply lookup_lt_Some]).
       injection Hb' as <-. by apply elem_of_nil in Hr. }
  destruct (lookup_lt_is_Some_2 h b Hlt) as [obj Hb].
  destruct (Ho b obj Hb) as (obj'' & Hb'' & _ & Hm).
  assert (obj'' = obj') by congruence. subst obj''.
  apply elem_of_child_addresses in Hr as [name Hin].
  apply list_elem_of_lookup in Hin as [i Hi].
  destruct (Forall2_lookup_r _ _ _ _ _ Hm Hi) as ([name0 o] & Hi0 & Hn0 & Hv).
  cbn in Hn0, Hv. destruct Hv as [Hv | (r0 & n & c & Er & En & Hr0 & Hc & Hlen & Hnew)].
  - subst o. assert ((name0, Some r) ∈ modules obj) as Hin0
      by (apply list_elem_of_lookup; eauto).
    assert (r < length h)%nat as Hrlt by (by eapply child_valid).
    destruct (lookup_lt_is_Some_2 h r Hrlt) as [c Hc].
    destruct (Ho r c Hc) as (c'' & Hc'' & Hcl & _).
    assert (c'' = c') by congruence. subst c''.
    exists obj, r, c. split; [done |]. split; [apply elem_of_child_addresses; eauto |].
    split; [done | congruence].
  - injection En as <-. rewrite Hnew in Hc'. injection Hc' as <-. done.
Qed.

Lemma visits_kept h h' x b :
  well_formed h -> architecture_kept h h' -> visits h' x b -> visits h x b.
Proof.
  intros Hwf Hk. unfold visits. induction 1 as [| x y z Hxy _ IH]; [done |].
  eapply rtc_l; [by eapply calls_kept | done].
Qed.

Lemma clean_kept h h' x :
  well_formed h -> architecture_kept h h' -> clean h x -> clean h' x.
Proof.
  intros Hwf Hk Hc b Hb Hd. apply (Hc b); [by eapply visits_kept |].
  by eapply has_inplace_relu_kept.
Qed.

Lemma entry_done_kept h h' a obj e e' :
  well_formed h -> architecture_kept h h' ->
  h !! a = Some obj -> e ∈ modules obj ->
  entry_kept_or_replaced h h' e e' -> entry_done h e -> entry_done h' e'.
Proof.
  intros Hwf Hk Ha Hin [Hn Hv] Hd r c' Er Hc'.
  destruct Hv as [Hv | (r0 & n & c & Er0 & En & Hr0 & Hc & Hlen & Hnew)].
  - rewrite Hv in Er. destruct e as [name o]. cbn in Er. subst o.
    assert (r < length h)%nat as Hlt by (by eapply child_valid).
    destruct (lookup_lt_is_Some_2 h r Hlt) as [c Hc].
    destruct (architecture_kept_lookup h h' r c Hk Hc) as (c'' & Hc'' & Hcl & _).
    assert (c'' = c') by congruence. subst c''.
    destruct (Hd r c eq_refl Hc) as [H1 H2]. split; [congruence |].
    intros Hrelu. apply (clean_kept h h'); [done | done |].
    apply H2. by rewrite <- (is_relu_class c c').
  - rewrite En in Er. injection Er as <-. rewrite Hnew in Hc'.
    injection Hc' as <-. split; [done | done].
Qed.

Lemma entries_done_kept h h' a obj (l l' : list (string * option addr)) :
  well_formed h -> architecture_kept h h' ->
  h !! a = Some obj -> (forall e, e ∈ l -> e ∈ modules obj) ->
  Forall2 (entry_kept_or_replaced h h') l l' ->
  Forall (entry_done h) l -> Forall (entry_done h') l'.
Proof.
  intros Hwf Hk Ha Hsub H2. induction H2 as [|e e' l l' He _ IH]; intros Hd;
    [done |].
  inversion Hd as [|? ? Hde Hdl]; subst. constructor.
  - eapply entry_done_kept; [done | done | done | | done | done].
    apply Hsub, list_elem_of_here.
  - apply IH; [| done]. intros e0 He0. by apply Hsub, list_elem_of_further.
Qed.

Lemma yielded_kept h h' m x :
  well_formed h -> architecture_kept h h' -> yielded h m x -> yielded h' m x.
Proof.
  intros Hwf Hk [Hlt Hy]. pose proof Hk as (Hl & Ho & Hn).
  split; [lia |]. intros c' Hc'.
  destruct (lookup_lt_is_Some_2 h x Hlt) as [c Hc].
  destruct (Ho x c Hc) as (c'' & Hc'' & Hcl & _).
  assert (c'' = c') by congruence. subst c''.
  specialize (Hy c Hc). rewrite (is_relu_class c c') by done.
  destruct (is_relu c).
  - intros obj' Hm' Hx.
    destruct (decide (m < length h)%nat) as [Hmlt | Hge].
    2: { rewrite Hn in Hm' by (split; [lia | by eapply lookup_lt_Some]).
         injection Hm' as <-. by apply elem_of_nil in Hx. }
    destruct (lookup_lt_is_Some_2 h m Hmlt) as [obj Hm].
    destruct (Ho m obj Hm) as (obj'' & Hm'' & _ & Hms).
    assert (obj'' = obj') by congruence. subst obj''.
    apply elem_of_child_addresses in Hx as [name Hin].
    apply list_elem_of_lookup in Hin as [i Hi].
    destruct (Forall2_lookup_r _ _ _ _ _ Hms Hi) as ([name0 o] & Hi0 & Hn0 & Hv).
    cbn in Hn0, Hv.
    destruct Hv as [Hv | (r0 & n & c0 & Er0 & En & Hr0 & Hc0 & Hlen & Hnew)].
    + subst o. apply (Hy obj Hm). apply elem_of_child_addresses.
      exists name0. apply list_elem_of_lookup. eauto.
    + injection En as <-. lia.
  - by apply (clean_kept h h').
Qed.

Lemma set_item_other name n (l : list (string * option addr)) :
  name ∉ l.*1 -> set_item name n l = l.
Proof.
  unfold set_item. induction l as [|[name' o] l IH]; [done |].
  rewrite !fmap_cons. cbn [fst]. intros Hn.
  rewrite not_elem_of_cons in Hn. destruct Hn as [Hne Hn].
  rewrite IH by done. f_equal.
  destruct (String.eqb name' name) eqn:E; [| done].
  apply String.eqb_eq in E. by subst.
Qed.

(** The dict entry of a name is the only one that [setattr] changes. *)
Lemma set_item_middle name n o (l1 l2 : list (string * option addr)) :
  NoDup (l1 ++ (name, o) :: l2).*1 ->
  set_item name n (l1 ++ (name, o) :: l2) = l1 ++ (name, Some n) :: l2.
Proof.
  rewrite fmap_app, fmap_cons. cbn. intros Hnd.
  apply NoDup_app in Hnd as (_ & Hdis & Hnd2).
  apply NoDup_cons in Hnd2 as [Hn2 _].
  unfold set_item. rewrite fmap_app, fmap_cons. cbn [fst].
  rewrite String.eqb_refl.
  fold (set_item name n l1). fold (set_item name n l2).
  rewrite !set_item_other; [done | done |].
  intros Hin. apply (Hdis name Hin). apply list_elem_of_here.
Qed.

(** The branch of the loop for a child that is a ReLU. *)
Lemma replace_relu h m obj i name c cobj :
  well_formed h -> h !! m = Some obj ->
  modules obj !! i = Some (name, Some c) ->
  h !! c = Some cobj -> is_relu cobj = true ->
  let h2 := setattr m name (length h) (h ++ [new_relu]) in
  well_formed h2 /\ architecture_kept h h2 /\
  exists obj2,
    h2 !! m = Some obj2 /\ length (modules obj2) = length (modules obj) /\
    modules obj2 !! i = Some (name, Some (length h)) /\
    (c ∉ child_addresses obj2) /\ h2 !! length h = Some new_relu.
Proof.
  intros Hwf Hm Hi Hc Hrelu h2.
  destruct (Hwf m obj Hm) as (Hnames & Haddrs & Hvalid).
  set (l1 := take i (modules obj)). set (l2 := drop (S i) (modules obj)).
  assert (modules obj = l1 ++ (name, Some c) :: l2) as Ems
    by (symmetry; by apply take_drop_middle).
  assert (length l1 = i) as Hl1.
  { unfold l1. rewrite length_take. apply lookup_lt_Some in Hi. lia. }
  assert (m < length h)%nat as Hmlt by (by eapply lookup_lt_Some).
  assert (c < length h)%nat as Hclt by (by eapply lookup_lt_Some).
  set (obj2 := {| class_of := class_of obj;
                  modules := l1 ++ (name, Some (length h)) :: l2 |}).
  assert (h2 !! m = Some obj2) as Hm2.
  { unfold h2, setattr. rewrite list_lookup_alter_eq, lookup_app_l, Hm by done.
    cbn. unfold obj2. do 2 f_equal. rewrite Ems. apply set_item_middle.
    by rewrite <- Ems. }
  assert (forall a, a <> m -> h2 !! a = (h ++ [new_relu]) !! a) as Hother.
  { intros a Ha. unfold h2, setattr. by rewrite list_lookup_alter_ne. }
  assert (length h2 = S (length h)) as Hlen2.
  { unfold h2, setattr. rewrite length_alter, length_app. cbn. lia. }
  assert (h2 !! length h = Some new_relu) as Hnew.
  { rewrite Hother by lia. by apply list_lookup_middle. }
  assert (child_addresses obj
          = omap snd l1 ++ c :: omap snd l2) as Ech.
  { unfold child_addresses. rewrite Ems, omap_app. done. }
  assert (child_addresses obj2
          = omap snd l1 ++ length h :: omap snd l2) as Ech2.
  { unfold child_addresses, obj2. cbn [modules]. rewrite omap_app. done. }
  rewrite Ech in Haddrs, Hvalid.
  apply NoDup_app in Haddrs as (Hnd1 & Hdis & Hnd2).
  apply NoDup_cons in Hnd2 as [Hc2 Hnd2].
  split; [| split].
  - intros a obja Ha. destruct (decide (a = m)) as [-> | Hne].
    + rewrite Hm2 in Ha. injection Ha as <-. split.
      { unfold obj2. cbn [modules]. rewrite fmap_app, fmap_cons. cbn [fst].
        rewrite Ems, fmap_app, fmap_cons in Hnames. exact Hnames. }
      rewrite Ech2. split.
      * apply NoDup_app. split; [done |]. split.
        -- intros x Hx Hx'. apply elem_of_cons in Hx' as [-> | Hx'].
           ++ assert (length h < length h)%nat; [| lia].
              apply Hvalid, elem_of_app. by left.
           ++ apply (Hdis x Hx). by apply list_elem_of_further.
        -- apply NoDup_cons. split; [| done]. intros Hin.
           assert (length h < length h)%nat; [| lia].
           apply Hvalid, elem_of_app. right. by apply list_elem_of_further.
      * intros x Hx. rewrite Hlen2.
        apply elem_of_app in Hx as [Hx | Hx].
        -- assert (x < length h)%nat; [| lia]. apply Hvalid, elem_of_app. by left.
        -- apply elem_of_cons in Hx as [-> | Hx]; [lia |].
           assert (x < length h)%nat; [| lia].
           apply Hvalid, elem_of_app. right. by apply list_elem_of_further.
    + rewrite Hother in Ha by done.
      destruct (decide (a < length h)%nat) as [Halt | Hage].
      * rewrite lookup_app_l in Ha by done.
        destruct (Hwf a obja Ha) as (? & ? & Hv). split; [done |]. split; [done |].
        intros x Hx. specialize (Hv x Hx). lia.
      * assert (a = length h) as ->.
        { apply lookup_lt_Some in Ha. rewrite length_app in Ha. cbn in Ha. lia. }
        rewrite list_lookup_middle in Ha by done. injection Ha as <-.
        split; [constructor |]. split; [constructor |].
        intros x Hx. by apply elem_of_nil in Hx.
  - split; [lia |]. split.
    + intros a obja Ha. destruct (decide (a = m)) as [-> | Hne].
      * rewrite Hm in Ha. injection Ha as <-. exists obj2.
        split; [done |]. split; [done |]. unfold obj2. cbn [modules]. rewrite Ems.
        apply Forall2_app.
        { apply Forall_Forall2_diag, Forall_forall. intros e _. split; [done | by left]. }
        constructor.
        { split; [done |]. right. exists c, (length h), cobj. cbn.
          repeat split; try done; lia. }
        apply Forall_Forall2_diag, Forall_forall. intros e _. split; [done | by left].
      * exists obja. rewrite Hother by done.
        rewrite lookup_app_l by (by eapply lookup_lt_Some).
        split; [done |]. split; [done |].
        apply Forall_Forall2_diag, Forall_forall. intros e _. split; [done | by left].
    + intros a Ha. assert (a = length h) as -> by lia. done.
  - exists obj2. split; [done |]. split.
    { unfold obj2. cbn [modules]. rewrite Ems, !length_app. done. }
    split; [unfold obj2; cbn [modules]; by apply list_lookup_middle |].
    split; [| done]. rewrite Ech2. intros Hin.
    apply elem_of_app in Hin as [Hin | Hin].
    + apply (Hdis c Hin). apply list_elem_of_here.
    + apply elem_of_cons in Hin as [-> | Hin]; [lia | done].
Qed.

Lemma elem_of_take_list {A} (x : A) n (l : list A) : x ∈ take n l -> x ∈ l.
Proof.
  intros H. rewrite <- (take_drop n l). apply elem_of_app. by left.
Qed.

(** *** The loop over the children *)

Section ChildrenLoop.

Variable rec : addr -> heap -> option heap.
Variable m : addr.

Hypothesis rec_sound : forall c h h',
  well_formed h -> rec c h = Some h' ->
  well_formed h' /\ architecture_kept h h' /\ clean h' c.

Lemma children_loop_sound k : forall i memo h obj h',
  well_formed h -> h !! m = Some obj ->
  (i + k = length (modules obj))%nat ->
  Forall (entry_done h) (take i (modules obj)) ->
  Forall (yielded h m) memo ->
  children_loop rec m (seq i k) memo h = Some h' ->
  well_formed h' /\ architecture_kept h h' /\
  exists obj', h' !! m = Some obj' /\ Forall (entry_done h') (modules obj').
Proof.
  induction k as [|k IH]; intros i memo h obj h' Hwf Hm Hik Hdone Hmemo.
  { cbn. intros [= <-]. split; [done |]. split; [apply architecture_kept_refl |].
    exists obj. split; [done |]. rewrite take_ge in Hdone by lia. done. }
  cbn [seq children_loop]. rewrite Hm. cbn [mbind option_bind].
  destruct (lookup_lt_is_Some_2 (modules obj) i) as [[name o] Hi]; [lia |].
  rewrite Hi.
  assert ((name, o) ∈ modules obj) as Hin by (apply list_elem_of_lookup; eauto).
  destruct o as [c |].
  2: { apply (IH (S i) memo h obj); [done | done | lia | | done].
       rewrite (take_S_r _ _ _ Hi). apply Forall_app. split; [done |].
       constructor; [| done]. by intros r c [=]. }
  assert (c < length h)%nat as Hclt by (by eapply child_valid).
  destruct (lookup_lt_is_Some_2 h c Hclt) as [cobj Hc].
  destruct (decide (c ∈ memo)) as [Hcm | Hcm].
  { apply (IH (S i) memo h obj); [done | done | lia | | done].
    rewrite (take_S_r _ _ _ Hi). apply Forall_app. split; [done |].
    constructor; [| done]. intros r c' [= <-] Hc'.
    assert (c' = cobj) by congruence. subst c'.
    destruct (proj1 (Forall_forall _ _) Hmemo c Hcm) as [_ Hy].
    specialize (Hy cobj Hc). destruct (is_relu cobj) eqn:Hrelu.
    - exfalso. apply (Hy obj Hm). apply elem_of_child_addresses. eauto.
    - split; [| done]. intros Hcl. by rewrite (is_relu_inplace _ Hcl) in Hrelu. }
  rewrite Hc. cbn [mbind option_bind].
  destruct (is_relu cobj) eqn:Hrelu.
  - (* the child is a ReLU: a new one takes its place *)
    destruct (replace_relu h m obj i name c cobj Hwf Hm Hi Hc Hrelu)
      as (Hwf2 & Hk2 & obj2 & Hm2 & Hlen2 & Hi2 & Hc2 & Hnew).
    set (h2 := setattr m name (length h) (h ++ [new_relu])) in *.
    intros E.
    destruct (architecture_kept_lookup h h2 m obj Hk2 Hm) as (obj2' & Hm2' & _ & Hms).
    assert (obj2' = obj2) by congruence. subst obj2'.
    destruct (IH (S i) (c :: memo) h2 obj2 h') as (Hwf' & Hk' & Hres);
      [done | done | lia | | | done |].
    + rewrite (take_S_r _ _ _ Hi2). apply Forall_app. split.
      * eapply (entries_done_kept h h2 m obj (take i (modules obj)));
          [done | done | done | | by apply Forall2_take | done].
        intros e He. by eapply elem_of_take_list.
      * constructor; [| done]. intros r c' [= <-] Hc'.
        rewrite Hnew in Hc'. by injection Hc' as <-.
    + constructor.
      * split; [destruct Hk2 as (Hl & _); lia |]. intros c' Hc'.
        destruct (architecture_kept_lookup h h2 c cobj Hk2 Hc) as (c'' & Hc'' & Hcl & _).
        assert (c'' = c') by congruence. subst c''.
        rewrite (is_relu_class cobj c'), Hrelu by done.
        intros obj0 Hm0. assert (obj0 = obj2) by congruence. by subst obj0.
      * eapply Forall_impl; [exact Hmemo |]. intros x Hx. by apply (yielded_kept h h2).
    + split; [done |]. split; [| done]. by apply (architecture_kept_trans h h2 h').
  - (* any other child: the recursive call *)
    destruct (rec c h) as [h1 |] eqn:Erec; [| done]. cbn [mbind option_bind].
    destruct (rec_sound c h h1 Hwf Erec) as (Hwf1 & Hk1 & Hclean).
    intros E.
    destruct (architecture_kept_lookup h h1 m obj Hk1 Hm) as (obj1 & Hm1 & _ & Hms).
    destruct (architecture_kept_lookup h h1 c cobj Hk1 Hc) as (cobj1 & Hc1 & Hcl1 & _).
    assert (modules obj1 !! i = Some (name, Some c)) as Hi1.
    { destruct (Forall2_lookup_l _ _ _ _ _ Hms Hi) as ([name1 o1] & Hi1 & Hn1 & Hv1).
      cbn in Hn1, Hv1. rewrite Hi1. subst name1.
      destruct Hv1 as [-> | (r0 & n & c0 & Er0 & En & Hr0 & Hc0 & _)]; [done |].
      injection Er0 as <-. assert (c0 = cobj) by congruence. subst c0. congruence. }
    destruct (IH (S i) (c :: memo) h1 obj1 h') as (Hwf' & Hk' & Hres);
      [done | done | | | | done |].
    + rewrite <- (Forall2_length _ _ _ Hms). lia.
    + rewrite (take_S_r _ _ _ Hi1). apply Forall_app. split.
      * eapply (entries_done_kept h h1 m obj (take i (modules obj)));
          [done | done | done | | by apply Forall2_take | done].
        intros e He. by eapply elem_of_take_list.
      * constructor; [| done]. intros r c' [= <-] Hc'.
        assert (c' = cobj1) by congruence. subst c'.
        split; [| done]. intros Hcl.
        rewrite <- (is_relu_class cobj cobj1), (is_relu_inplace cobj1 Hcl) in Hrelu; done.
    + constructor.
      * split; [destruct Hk1 as (Hl & _); lia |]. intros c' Hc'.
        assert (c' = cobj1) by congruence. subst c'.
        by rewrite (is_relu_class cobj cobj1), Hrelu.
      * eapply Forall_impl; [exact Hmemo |]. intros x Hx. by apply (yielded_kept h h1).
    + split; [done |]. split; [| done]. by apply (architecture_kept_trans h h1 h').
Qed.

End ChildrenLoop.

Lemma relu_inplace_sound fuel : forall m h h',
  well_formed h -> relu_inplace fuel m h = Some h' ->
  well_formed h' /\ architecture_kept h h' /\ clean h' m.
Proof.
  induction fuel as [|fuel IH]; intros m h h' Hwf; [done |].
  cbn [relu_inplace]. destruct (h !! m) as [obj |] eqn:Hm; [| done].
  cbn [mbind option_bind]. intros E.
  destruct (children_loop_sound (relu_inplace fuel) m IH
              (length (modules obj)) 0 [] h obj h')
    as (Hwf' & Hk & obj' & Hm' & Hdone); [done | done | lia | done | done | done |].
  split; [done |]. split; [done |].
  intros b Hb (objb & r & c & Hb' & Hr & Hc & Hcl).
  apply rtc_inv in Hb as [<- | (y & (objm & cy & Hm'' & Hy & Hcy & Hrelu) & Hyb)].
  - assert (objb = obj') by congruence. subst objb.
    apply elem_of_child_addresses in Hr as [name Hin].
    destruct (proj1 (Forall_forall _ _) Hdone _ Hin r c eq_refl Hc) as [Hne _]. done.
  - assert (objm = obj') by congruence. subst objm.
    apply elem_of_child_addresses in Hy as [name Hin].
    destruct (proj1 (Forall_forall _ _) Hdone _ Hin y cy eq_refl Hcy) as [_ Hclean].
    apply (Hclean Hrelu b Hyb). by exists objb, r, c.
Qed.

(** *** The recursion comes to an end *)

Lemma ranked_kept h h' rank :
  well_formed h -> architecture_kept h h' -> ranked h rank -> ranked h' rank.
Proof. intros Hwf Hk Hr x y Hxy. apply Hr. by eapply calls_kept. Qed.

Section ChildrenLoopEnds.

Variable rank : addr -> nat.
Variable rec : addr -> heap -> option heap.
Variable m : addr.

Hypothesis rec_sound : forall c h h',
  well_formed h -> rec c h = Some h' ->
  well_formed h' /\ architecture_kept h h' /\ clean h' c.

Hypothesis rec_ends : forall c h,
  well_formed h -> ranked h rank -> (c < length h)%nat ->
  (rank c < rank m)%nat -> exists h', rec c h = Some h'.

Lemma children_loop_ends k : forall i memo h obj,
  well_formed h -> ranked h rank -> h !! m = Some obj ->
  (i + k = length (modules obj))%nat ->
  exists h', children_loop rec m (seq i k) memo h = Some h'.
Proof.
  induction k as [|k IH]; intros i memo h obj Hwf Hrank Hm Hik; [by eexists |].
  cbn [seq children_loop]. rewrite Hm. cbn [mbind option_bind].
  destruct (lookup_lt_is_Some_2 (modules obj) i) as [[name o] Hi]; [lia |].
  rewrite Hi.
  assert ((name, o) ∈ modules obj) as Hin by (apply list_elem_of_lookup; eauto).
  destruct o as [c |]; [| apply (IH (S i) memo h obj); [done | done | done | lia]].
  assert (c < length h)%nat as Hclt by (by eapply child_valid).
  destruct (lookup_lt_is_Some_2 h c Hclt) as [cobj Hc].
  destruct (decide (c ∈ memo)); [apply (IH (S i) memo h obj); [done | done | done | lia] |].
  rewrite Hc. cbn [mbind option_bind].
  destruct (is_relu cobj) eqn:Hrelu.
  - destruct (replace_relu h m obj i name c cobj Hwf Hm Hi Hc Hrelu)
      as (Hwf2 & Hk2 & obj2 & Hm2 & Hlen2 & _).
    apply (IH (S i) _ _ obj2); [done | by apply (ranked_kept h) | done | lia].
  - destruct (rec_ends c h Hwf Hrank Hclt) as [h1 Erec].
    { apply Hrank. exists obj, cobj. split; [done |].
      split; [apply elem_of_child_addresses; eauto | done]. }
    rewrite Erec. cbn [mbind option_bind].
    destruct (rec_sound c h h1 Hwf Erec) as (Hwf1 & Hk1 & _).
    destruct (architecture_kept_lookup h h1 m obj Hk1 Hm) as (obj1 & Hm1 & _ & Hms).
    apply (IH (S i) _ _ obj1); [done | by apply (ranked_kept h) | done |].
    rewrite <- (Forall2_length _ _ _ Hms). lia.
Qed.

End ChildrenLoopEnds.

Lemma relu_inplace_ends rank fuel : forall m h,
  well_formed h -> ranked h rank -> (m < length h)%nat ->
  (rank m < fuel)%nat -> exists h', relu_inplace fuel m h = Some h'.
Proof.
  induction fuel as [|fuel IH]; intros m h Hwf Hrank Hm Hfuel; [lia |].
  cbn [relu_inplace].
  destruct (lookup_lt_is_Some_2 h m Hm) as [obj Hobj]. rewrite Hobj.
  cbn [mbind option_bind].
  apply (children_loop_ends rank (relu_inplace fuel) m) with (obj := obj);
    [apply relu_inplace_sound | | done | done | done | lia].
  intros c h0 Hwf0 Hrank0 Hc Hlt. apply IH; [done | done | done | lia].
Qed.

(** *** The properties of [relu_inplace] *)

(** X24 -- On a model in which no module is registered twice under one parent
    and no module contains itself, [relu_inplace] comes to an end, and
    after it no module it has come to (the model, and every module below it
    that is reached through modules that are no ReLUs) has a child that is
    a ReLU with [inplace=True]. *)
Theorem relu_inplace_leaves_no_inplace_relu
    (rank : addr -> nat) (h : heap) (model : addr) :
  well_formed h -> ranked h rank -> (model < length h)%nat ->
  exists h',
    relu_inplace (S (rank model)) model h = Some h' /\
    forall b, visits h' model b -> ~ has_inplace_relu h' b.
Proof.
  intros Hwf Hrank Hm.
  destruct (relu_inplace_ends rank (S (rank model)) model h) as [h' E];
    [done | done | done | lia |].
  exists h'. split; [done |].
  by destruct (relu_inplace_sound _ _ _ _ Hwf E) as (_ & _ & Hclean).
Qed.

(** X25 -- [relu_inplace] keeps the architecture: every module object stays
    where it was, with its class (the model itself too, which is not
    replaced even if it is a ReLU with [inplace=True]), and with its children
    under their names in their order; the only change is that a child that
    was a ReLU can be a new [ReLU(inplace=False)], an object that was not
    there before. *)
Theorem relu_inplace_keeps_the_architecture
    (fuel : nat) (h h' : heap) (model : addr) :
  well_formed h -> relu_inplace fuel model h = Some h' ->
  architecture_kept h h'.
Proof.
  intros Hwf E. by destruct (relu_inplace_sound _ _ _ _ Hwf E) as (_ & Hk & _).
Qed.

(** X26 -- [named_children] yields a module once: when one ReLU is registered
    under two names of a model, [relu_inplace] replaces it under the first
    name and leaves it under the second one, with its [inplace] flag. *)
Theorem relu_inplace_misses_a_shared_relu
    (fuel : nat) (h : heap) (model r : addr) (cl : class) (a b : string)
    (c : module) :
  h !! model = Some {| class_of := cl;
                       modules := [(a, Some r); (b, Some r)] |} ->
  a <> b -> model <> r -> h !! r = Some c -> is_relu c = true ->
  exists h',
    relu_inplace (S fuel) model h = Some h' /\
    h' !! model = Some {| class_of := cl;
                          modules := [(a, Some (length h)); (b, Some r)] |} /\
    h' !! r = Some c.
Proof.
  intros Hm Hab Hne Hr Hrelu.
  assert (model < length h)%nat as Hmlt by (by eapply lookup_lt_Some).
  assert (String.eqb b a = false) as Hba.
  { destruct (String.eqb b a) eqn:E; [| done]. apply String.eqb_eq in E. by subst. }
  set (h2 := setattr model a (length h) (h ++ [new_relu])).
  assert (h2 !! model = Some {| class_of := cl;
            modules := [(a, Some (length h)); (b, Some r)] |}) as Hm2.
  { unfold h2, setattr. rewrite list_lookup_alter_eq, lookup_app_l, Hm by done.
    cbn. unfold set_item. cbn. by rewrite String.eqb_refl, Hba. }
  exists h2. split; [| split; [done |]].
  - cbn [relu_inplace]. rewrite Hm. cbn [mbind option_bind modules length seq].
    cbn [children_loop]. rewrite Hm. cbn [mbind option_bind modules lookup list_lookup].
    rewrite decide_False by (apply not_elem_of_nil).
    rewrite Hr. cbn [mbind option_bind]. rewrite Hrelu. fold h2.
    rewrite Hm2. cbn [mbind option_bind modules lookup list_lookup].
    rewrite decide_True by (apply list_elem_of_here). done.
  - unfold h2, setattr. rewrite list_lookup_alter_ne by done.
    rewrite lookup_app_l by (by eapply lookup_lt_Some). done.
Qed.

End ReluInplace.

(** ** The theorems of this part on inputs *)

Lemma sqrt_floor_zero x : x == 0 -> sqrt_floor x == 0.
Proof.
  intros H. unfold sqrt_floor. unfold Qeq in *. cbn in *.
  assert (Qnum x = 0)%Z as -> by lia. done.
Qed.

Lemma implicit_bias_of_nonpositive_variance_witness :
  exists r,
    implicit_bias sqrt_floor (arr [2%nat] [2; 3]) (arr [2%nat] [0; 9])
      (arr [2%nat] [1; -6]) = Ok r /\
    shape r = [2%nat] /\ data r !! 0%nat = Some None.
Proof.
  apply (implicit_bias_of_nonpositive_variance sqrt_floor sqrt_floor_zero
           [2%nat] [2; 3] [0; 9] [1; -6] 0 0); try reflexivity.
  by intros E.
Defined.

Example compute_implicit_biases_uneven_lists :
  compute_implicit_biases sqrt_floor bn_trial
    ["bn1.weight"; "bn2.weight"] ["bn1.running_var"]
    ["bn1.running_mean"; "bn2.running_mean"; "bn3.running_mean"] 1 fresh_world
  = (Ok [arr [2%nat] [-2 # 2; 18 # 3]], fresh_world).
Proof. vm_compute. reflexivity. Qed.

Lemma full_gradient_has_the_shape_of_the_image_witness :
  exists m,
    full_gradient zoom_linear 1 image_1x2 gradient_1x2 [layer_a; layer_b] = Ok m /\
    shape m = [1; 2]%nat.
Proof.
  destruct (full_gradient zoom_linear 1 image_1x2 gradient_1x2 [layer_a; layer_b])
    as [m |] eqn:E; [| by vm_compute in E].
  exists m. split; [done |].
  by apply (full_gradient_has_the_shape_of_the_image zoom_linear 1 image_1x2
              gradient_1x2 [layer_a; layer_b] 2 1 2 m).
Defined.

Lemma steps_are_rendered_in_ascending_order_witness :
  sorted (steps_to_render [3; 1; 2; 3]%nat [1%nat]) !! 0%nat = Some 2%nat /\
  sorted (steps_to_render [3; 1; 2; 3]%nat [1%nat]) !! 1%nat = Some 3%nat /\
  (2 < 3)%nat.
Proof.
  split; [by vm_compute |]. split; [by vm_compute |].
  apply (steps_are_rendered_in_ascending_order [3; 1; 2; 3]%nat [1%nat] 0 1 2 3);
    [by vm_compute | by vm_compute | lia].
Defined.

Lemma rendered_steps_are_the_listed_steps_witness :
  NoDup [5%nat] /\ forall x, x ∈ [5%nat] <-> x ∈ listed_steps empty_trial fresh_world.
Proof.
  apply (rendered_steps_are_the_listed_steps sqrt_floor exp_taylor zoom_linear
           2 empty_trial [] [] [] [] [] [] fresh_world [5%nat]
           {| trial_state := tt;
              output := [Printed (TensorUnavailable 5); Slept 5] |}).
  - by exists true.
  - constructor.
  - intros x Hx. by apply elem_of_nil in Hx.
Defined.

Lemma polling_loop_ends_by_the_flag_only_witness :
  exists e, (Raised (TrialError "connection lost") : result exn (list nat)) = Raised e.
Proof.
  apply (polling_loop_ends_by_the_flag_only sqrt_floor exp_taylor zoom_linear 2
           broken_trial [] [] [] [] [] (fun _ => eq_refl) 3 [] fresh_world
           (Raised (TrialError "connection lost")) fresh_world).
  reflexivity.
Defined.

Lemma polling_loop_makes_a_last_pass_witness :
  polling_loop sqrt_floor exp_taylor zoom_linear 2 empty_trial [] [] [] [] []
    1 false [] fresh_world
  = Some (Ok [5%nat],
          {| trial_state := tt;
             output := [Printed (TensorUnavailable 5); Slept 5] ++ [Printed Done] |}) /\
  forall x, x ∈ listed_steps empty_trial fresh_world -> x ∈ [5%nat].
Proof.
  apply (polling_loop_makes_a_last_pass sqrt_floor exp_taylor zoom_linear 2
           empty_trial [] [] [] [] [] 0 [] fresh_world [5%nat]
           {| trial_state := tt;
              output := [Printed (TensorUnavailable 5); Slept 5] |}).
  reflexivity.
Defined.

Lemma names_cell_shows_the_layers_rendered_witness :
  length (names_cell ["bn1.bias"; "fc.bias"] ["gradient/bn1_output"]
            ["bn1.weight"] ["bn1.running_var"] ["bn1.running_mean"])
  = length (zip3 ["gradient/bn1_output"] ["bn1.bias"; "fc.bias"]
              [arr [2%nat] [-2 # 2; 18 # 3]]) /\
  forall i line,
    names_cell ["bn1.bias"; "fc.bias"] ["gradient/bn1_output"]
      ["bn1.weight"] ["bn1.running_var"] ["bn1.running_mean"] !! i = Some line ->
    exists bias gradient weight running_var running_mean implicit_bias,
      ["bn1.bias"; "fc.bias"] !! i = Some bias /\
      ["gradient/bn1_output"] !! i = Some gradient /\
      ["bn1.weight"] !! i = Some weight /\
      ["bn1.running_var"] !! i = Some running_var /\
      ["bn1.running_mean"] !! i = Some running_mean /\
      zip3 ["gradient/bn1_output"] ["bn1.bias"; "fc.bias"]
        [arr [2%nat] [-2 # 2; 18 # 3]] !! i
        = Some (gradient, bias, implicit_bias) /\
      line = print_names (bias, gradient, weight, running_var, running_mean).
Proof.
  apply (names_cell_shows_the_layers_rendered sqrt_floor bn_trial
           ["bn1.bias"; "fc.bias"] ["gradient/bn1_output"] ["bn1.weight"]
           ["bn1.running_var"] ["bn1.running_mean"] 1 fresh_world fresh_world).
  vm_compute. reflexivity.
Defined.

Example names_cell_one_layer :
  names_cell ["bn1.bias"; "fc.bias"] ["gradient/bn1_output"]
    ["bn1.weight"] ["bn1.running_var"] ["bn1.running_mean"]
  = ["bn1.bias gradient/bn1_output bn1.weight bn1.running_var bn1.running_mean"].
Proof. reflexivity. Qed.

(** The waiting cell of the training job *)

Lemma pending_job p s :
  p <> "Completed" -> JobStatus.training_or_completed s = false ->
  JobStatus.pending (JobStatus.job p s).
Proof. intros Hp Hs. by exists p, s. Qed.

Lemma status_cell_ends_when_the_job_is_ready_witness :
  (JobStatus.job "InProgress" "Starting" !! "TrainingJobStatus" = Some "Completed" /\
   JobStatus.job "InProgress" "Training" = JobStatus.job "InProgress" "Starting" /\
   {| JobStatus.client_state := [];
      JobStatus.output :=
        [JobStatus.Printed
           "Current job status: [PrimaryStatus: InProgress, SecondaryStatus: Training]";
         JobStatus.Slept 15] |}
   = {| JobStatus.client_state := [JobStatus.job "InProgress" "Training"];
        JobStatus.output := [] |}) \/
  (JobStatus.ready (JobStatus.job "InProgress" "Training") /\
   exists ds,
     [JobStatus.Printed
        "Current job status: [PrimaryStatus: InProgress, SecondaryStatus: Training]";
      JobStatus.Slept 15]
     = [] ++ (ds ≫= JobStatus.reported) /\
     last (JobStatus.job "InProgress" "Starting" :: ds)
     = Some (JobStatus.job "InProgress" "Training")).
Proof.
  apply (status_cell_ends_when_the_job_is_ready JobStatus.scripted "job" 2
           (JobStatus.job "InProgress" "Starting")
           {| JobStatus.client_state := [JobStatus.job "InProgress" "Training"];
              JobStatus.output := [] |}).
  by vm_compute.
Defined.

Lemma status_cell_waits_forever_for_a_failed_job_witness :
  JobStatus.status_cell failed_client "job" 100 (JobStatus.job "Failed" "Failed")
    {| JobStatus.client_state := tt; JobStatus.output := [] |}
  = None.
Proof.
  apply (status_cell_waits_forever_for_a_failed_job failed_client "job"
           (JobStatus.job "Failed" "Failed")).
  - by apply pending_job.
  - intros s. exists (JobStatus.job "Failed" "Failed"), s.
    split; [done | by apply pending_job].
Defined.

Lemma status_cell_ends_after_the_first_ready_response_witness :
  JobStatus.status_cell JobStatus.scripted "job" 3
    (JobStatus.job "InProgress" "Starting")
    {| JobStatus.client_state :=
         [JobStatus.job "InProgress" "Starting";
          JobStatus.job "InProgress" "Downloading";
          JobStatus.job "InProgress" "Training";
          JobStatus.job "Completed" "Completed"];
       JobStatus.output := [] |}
  = Some (Ok (JobStatus.job "InProgress" "Training"),
          {| JobStatus.client_state := [JobStatus.job "Completed" "Completed"];
             JobStatus.output :=
               [] ++ (([JobStatus.job "InProgress" "Starting";
                        JobStatus.job "InProgress" "Downloading"]
                       ++ [JobStatus.job "InProgress" "Training"])
                      ≫= JobStatus.reported) |}).
Proof.
  apply (status_cell_ends_after_the_first_ready_response "job"
           (JobStatus.job "InProgress" "Starting")
           [JobStatus.job "InProgress" "Starting";
            JobStatus.job "InProgress" "Downloading"]
           (JobStatus.job "InProgress" "Training")
           [JobStatus.job "Completed" "Completed"] []).
  - by apply pending_job.
  - repeat constructor; by apply pending_job.
  - exists "Training". split; [done | by left].
  - by exists "InProgress".
Defined.

Lemma polling_loop_never_ends_with_tensor_unavailable_witness :
  TrialError "connection lost" <> TensorUnavailableForStep.
Proof.
  apply (polling_loop_never_ends_with_tensor_unavailable sqrt_floor exp_taylor
           zoom_linear 2 broken_trial [] [] [] [] [] 3 false [] fresh_world
           (TrialError "connection lost") fresh_world).
  reflexivity.
Defined.

(** [upload_to_s3] on the test directory *)

Section UploadExamples.

Import Stdlib.Strings.Ascii.

Lemma accepting_accepts : Upload.accepts Upload.accepting.
Proof. intros filename bucket key s. by exists s. Qed.

Example upload_test_files_default :
  Upload.upload_to_s3 Upload.accepting test_files "GTSRB/Final_Test" "test"
    "bucket" (-1) {| Upload.client_state := tt; Upload.output := [] |}
  = (Ok tt,
     {| Upload.client_state := tt;
        Upload.output :=
          [Upload.Printed "Upload files fromGTSRB/Final_Test to bucket";
           Upload.Printed "GTSRB/Final_Test";
           Upload.Printed "GTSRB/Final_Test/Images";
           Upload.Uploaded "GTSRB/Final_Test/Images/00000.ppm" "bucket"
             "test/Images/00000.ppm";
           Upload.Uploaded "GTSRB/Final_Test/Images/00001.ppm" "bucket"
             "test/Images/00001.ppm"] |}).
Proof. reflexivity. Qed.

Lemma keys_keep_the_last_directory_only_witness :
  Upload.key_of "train"
    (Upload.replace "\" "/" (Upload.join "GTSRB/Training" "00001")) "00000_00000.ppm"
  = Upload.key_of "train" (Upload.replace "\" "/" "00001") "00000_00000.ppm".
Proof.
  apply (keys_keep_the_last_directory_only "train" "GTSRB/Training" "00001"
           "00000_00000.ppm").
  reflexivity.
Defined.

Lemma upload_to_s3_default_skips_the_last_file_witness :
  exists s',
    Upload.upload_to_s3 Upload.accepting test_files "GTSRB/Final_Test" "test"
      "bucket" (-1) {| Upload.client_state := tt; Upload.output := [] |}
    = (Ok tt,
       {| Upload.client_state := s';
          Upload.output := [] ++
            Upload.Printed ("Upload files from" +:+ "GTSRB/Final_Test" +:+ " to "
                            +:+ "bucket") ::
            (Upload.os_walk test_files "GTSRB/Final_Test" ≫= fun '(path, _, files) =>
               Upload.directory_events "test" "bucket" path (removelast files)) |}).
Proof.
  apply (upload_to_s3_default_skips_the_last_file Upload.accepting test_files
           accepting_accepts "GTSRB/Final_Test" "test" "bucket"
           {| Upload.client_state := tt; Upload.output := [] |}).
Defined.

Lemma upload_to_s3_uploads_the_first_files_witness :
  exists s',
    Upload.upload_to_s3 Upload.accepting test_files "GTSRB/Final_Test" "test"
      "bucket" 4 {| Upload.client_state := tt; Upload.output := [] |}
    = (Ok tt,
       {| Upload.client_state := s';
          Upload.output := [] ++
            Upload.Printed ("Upload files from" +:+ "GTSRB/Final_Test" +:+ " to "
                            +:+ "bucket") ::
            (Upload.os_walk test_files "GTSRB/Final_Test" ≫= fun '(path, _, files) =>
               Upload.directory_events "test" "bucket" path
                 (take (Z.to_nat 4) files)) |}).
Proof.
  apply (upload_to_s3_uploads_the_first_files Upload.accepting test_files
           accepting_accepts "GTSRB/Final_Test" "test" "bucket" 4
           {| Upload.client_state := tt; Upload.output := [] |}).
  done.
Defined.

End UploadExamples.

(** [relu_inplace] on two models *)

Section ReluExamples.

Import Relu.

Example relu_inplace_small_model :
  relu_inplace 3 0 small_model
  = Some
      [ {| class_of := Layer "ResNet";
           modules := [("conv1", Some 1%nat); ("relu", Some 5%nat);
                       ("layer1", Some 3%nat); ("fc", None)] |};
        {| class_of := Layer "Conv2d"; modules := [] |};
        {| class_of := ReLU true; modules := [] |};
        {| class_of := Layer "BasicBlock"; modules := [("relu", Some 6%nat)] |};
        {| class_of := ReLU true; modules := [] |};
        {| class_of := ReLU false; modules := [] |};
        {| class_of := ReLU false; modules := [] |} ].
Proof. reflexivity. Qed.

Lemma small_model_well_formed : well_formed small_model.
Proof.
  intros a obj Ha.
  do 5 (destruct a as [|a];
        [injection Ha as <-; cbn;
         split; [apply (bool_decide_unpack _); by vm_compute |];
         split; [apply (bool_decide_unpack _); by vm_compute |];
         intros c Hc; repeat (apply elem_of_cons in Hc as [-> | Hc]; [lia |]);
         by apply elem_of_nil in Hc |]).
  done.
Qed.

Lemma small_model_ranked : ranked small_model small_model_rank.
Proof.
  intros x y (obj & c & Hx & Hy & Hc & Hrelu).
  do 5 (destruct x as [|x];
        [injection Hx as <-; cbn in Hy;
         repeat (apply elem_of_cons in Hy as [-> | Hy];
                 [first [by injection Hc as <- | cbn; lia] |]);
         by apply elem_of_nil in Hy |]).
  done.
Qed.

Lemma relu_inplace_leaves_no_inplace_relu_witness :
  exists h',
    relu_inplace (S (small_model_rank 0)) 0 small_model = Some h' /\
    forall b, visits h' 0%nat b -> ~ has_inplace_relu h' b.
Proof.
  apply (relu_inplace_leaves_no_inplace_relu small_model_rank small_model 0
           small_model_well_formed small_model_ranked).
  cbn. lia.
Defined.

Lemma relu_inplace_keeps_the_architecture_witness :
  architecture_kept small_model
    [ {| class_of := Layer "ResNet";
         modules := [("conv1", Some 1%nat); ("relu", Some 5%nat);
                     ("layer1", Some 3%nat); ("fc", None)] |};
      {| class_of := Layer "Conv2d"; modules := [] |};
      {| class_of := ReLU true; modules := [] |};
      {| class_of := Layer "BasicBlock"; modules := [("relu", Some 6%nat)] |};
      {| class_of := ReLU true; modules := [] |};
      {| class_of := ReLU false; modules := [] |};
      {| class_of := ReLU false; modules := [] |} ].
Proof.
  apply (relu_inplace_keeps_the_architecture 3 small_model _ 0
           small_model_well_formed).
  reflexivity.
Defined.

Lemma relu_inplace_misses_a_shared_relu_witness :
  exists h',
    relu_inplace 1 0 shared_relu_model = Some h' /\
    h' !! 0%nat = Some {| class_of := Layer "Net";
                          modules := [("relu1", Some (length shared_relu_model));
                                      ("relu2", Some 1%nat)] |} /\
    h' !! 1%nat = Some {| class_of := ReLU true; modules := [] |}.
Proof.
  apply (relu_inplace_misses_a_shared_relu 0 shared_relu_model 0 1 (Layer "Net")
           "relu1" "relu2" {| class_of := ReLU true; modules := [] |});
    (reflexivity || discriminate || lia).
Defined.

End ReluExamples.
